(** * Quizzy: the IndexedDB controller (document store, indexer, BM25 search)

    A shallow embedding of [IDBController] (quizzy-common, impl/idb.ts), of
    [sanitizeIndices] (types/technical.ts), of the text helpers of
    utils/string.ts and of the page arithmetic of components/Pagination.tsx.

    Conventions of the embedding.
    - A JavaScript object is a finite map from property names to values
      ([gmap string jsval]); an absent property is [undefined].  Properties
      hold values of their declared TypeScript types.
    - JavaScript numbers that count things or stamp time (frequencies,
      lengths, [Date.now()]) are integers ([Z]); the BM25 statistics that
      go through [Math.log] and division are real numbers ([R]), the
      idealisation of IEEE doubles.
    - An object store with [keyPath: 'id'] is a map from the key to the
      stored record; the [id] of the record under a cursor is the key of
      the cursor.  A cursor visits the records, and [Object.keys] lists
      the properties, in the order of [map_to_list].
    - [Date.now()] is an explicit argument.
    - An asynchronous method is a function from the controller state to an
      outcome and the next state; a thrown error leaves the state it was
      thrown in.  Where a method awaits between a read and a write
      transaction ([_update]), the two parts are separate functions, so
      that other calls can be placed between them. *)

From Stdlib Require Import Reals Lra ZArith.
From stdpp Require Import gmap strings list fin_maps sorting.

#[local] Open Scope Z_scope.
#[local] Set Warnings "-clear-no-such-hyp".

(** ** Values and records *)

Inductive jsval :=
| VBool (b : bool)
| VNum (n : Z)
| VStr (s : string)
| VStrs (l : list string)
| VFreq (m : gmap string Z).

#[global] Instance jsval_eq_dec : EqDecision jsval.
Proof. solve_decision. Defined.

(** [DatabaseIndexed & KeywordIndexed], as an object. *)
Abbreviation doc := (gmap string jsval).

(** JavaScript truthiness of a property read. *)
Definition truthy (v : option jsval) : bool :=
  match v with
  | None => false
  | Some (VBool b) => b
  | Some (VNum n) => negb (n =? 0)
  | Some (VStr s) => negb (String.eqb s "")
  | Some (VStrs _) | Some (VFreq _) => true
  end.

(** [a < b] on two numbers. *)
Definition js_lt (a b : jsval) : bool :=
  match a, b with
  | VNum x, VNum y => x <? y
  | _, _ => false
  end.

(** [v ?? []] for a [string[]] property. *)
Definition strs (v : option jsval) : list string :=
  match v with
  | Some (VStrs l) => l
  | _ => []
  end.

(** [v ?? {}] for a [Record<string, number>] property. *)
Definition freqs (v : option jsval) : gmap string Z :=
  match v with
  | Some (VFreq m) => m
  | _ => ∅
  end.

(** [Object.keys] *)
Definition keys {A} (m : gmap string A) : list string := (map_to_list m).*1.

(** The in-line key of a record ([keyPath: 'id']). *)
Definition key_of (d : doc) : option string :=
  match d !! "id" with
  | Some (VStr k) => Some k
  | _ => None
  end.

(** types/technical.ts: [sanitizeIndices].  The callers mutate a fresh copy
    read from the database, so [inPlace] does not show in the value. *)
Definition sanitizeIndices (object : doc) (retainTags : bool) : doc :=
  let ret := object in
  let ret := delete "deleted" ret in
  let ret := delete "keywords" ret in
  let ret := delete "keywordsFrequency" ret in
  let ret := delete "tagsFrequency" ret in
  let ret := delete "keywordsUpdatedTime" ret in
  if negb retainTags then delete "tags" ret else ret.

(** The properties [sanitizeIndices] deletes when tags are retained. *)
Definition derived_fields : list string :=
  ["deleted"; "keywords"; "keywordsFrequency"; "tagsFrequency";
   "keywordsUpdatedTime"].

(** ** Collaborators that are not part of the controller

    [applyPatch] (utils/patch), [generateKeywords] (impl/keywords) and the
    trie of impl/search are used by the controller through their signatures
    only.  [applyPatch original patch] returns a patched copy: it leaves
    [original] as it was read. *)
Class Externals := {
  trie : Type;
  emptyTrie : trie;
  buildTrieTree : list string → trie * nat;
  loadTrieTree : trie → nat → string → list string;
  generateKeywords : list jsval → list string * gmap string Z;
  applyPatch : doc → doc → doc;
}.

(** ** Errors *)

Inductive error :=
| ConstraintError   (* [add] of a key that is already stored *)
| DataError         (* a record without a valid in-line key *)
| DataModified.     (* [new Error('Data modified.')] *)

Inductive outcome (A : Type) :=
| Ok (a : A)
| Throw (e : error).
Arguments Ok {A} a.
Arguments Throw {A} e.

(** ** The score cache: [QuickLRU] with [maxSize: 100]

    The key is [JSON.stringify([store, keywords, useTag, k1, b, threshold])];
    the serialisation is kept as the tuple it serialises. *)

#[global] Instance R_eq_dec : EqDecision R := Req_dec_T.

Record cache_key := CacheKey {
  ck_store : string;
  ck_keywords : list string;
  ck_useTag : bool;
  ck_k1 : R;
  ck_b : R;
  ck_threshold : R;
}.

#[global] Instance cache_key_eq_dec : EqDecision cache_key.
Proof. solve_decision. Defined.

(** A ranked list: [[id, score]] pairs. *)
Abbreviation ranking := (list (string * R)).

(** Entries, most recently used first. *)
Abbreviation lru := (list (cache_key * ranking)).

Definition maxSize : nat := 100.

Fixpoint lru_lookup (k : cache_key) (c : lru) : option ranking :=
  match c with
  | [] => None
  | (k', v) :: c => if decide (k' = k) then Some v else lru_lookup k c
  end.

Definition lru_has (c : lru) (k : cache_key) : bool :=
  match lru_lookup k c with Some _ => true | None => false end.

Definition lru_remove (k : cache_key) (c : lru) : lru :=
  filter (λ e, e.1 ≠ k) c.

Definition lru_set (c : lru) (k : cache_key) (v : ranking) : lru :=
  take maxSize ((k, v) :: lru_remove k c).

(** [get] returns the value and makes the entry the most recent one. *)
Definition lru_get (c : lru) (k : cache_key) : option ranking * lru :=
  match lru_lookup k c with
  | Some v => (Some v, (k, v) :: lru_remove k c)
  | None => (None, c)
  end.

Definition lru_clear (c : lru) : lru := [].

Section Controller.
Context `{Ext : Externals}.

(** ** The controller state *)

Record Bm25Cache := {
  wordAppeared : gmap string Z;
  tagAppeared : gmap string Z;
  averageDocLength : R;
  averageDocLengthTag : R;
  totalDocs : Z;
  idf : gmap string R;
  idfTag : gmap string R;
  bm_trie : trie;
  trieSize : nat;
  trieTags : trie;
  trieSizeTags : nat;
}.

Record controller := Controller {
  db : gmap string (gmap string doc);  (* object stores: name, then id *)
  general : gmap string Bm25Cache;     (* the 'general' store, by key *)
  cache : lru;
}.

Definition M (A : Type) : Type := controller → outcome A * controller.

Definition STORE_KEY_PAPERS : string := "papers".
Definition STORE_KEY_QUESTIONS : string := "questions".

(** ** The storage primitive (idb) *)

Definition records (c : controller) (store : string) : gmap string doc :=
  default ∅ (db c !! store).

Definition set_records (c : controller) (store : string)
    (rs : gmap string doc) : controller :=
  {| db := <[store := rs]> (db c); general := general c; cache := cache c |}.

Definition db_get (c : controller) (store id : string) : option doc :=
  records c store !! id.

Definition db_put (store : string) (d : doc) : M unit := λ c,
  match key_of d with
  | Some k => (Ok (), set_records c store (<[k := d]> (records c store)))
  | None => (Throw DataError, c)
  end.

Definition db_delete (store id : string) (c : controller) : controller :=
  set_records c store (delete id (records c store)).

Definition clear_cache (c : controller) : controller :=
  {| db := db c; general := general c; cache := lru_clear (cache c) |}.

(** [tx.store.add] over the items of one transaction: the first failing
    [add] rejects and the transaction writes nothing. *)
Fixpoint add_all (items : list doc) (rs : gmap string doc)
    : outcome (gmap string doc) :=
  match items with
  | [] => Ok rs
  | q :: items =>
      match key_of q with
      | None => Throw DataError
      | Some k =>
          match rs !! k with
          | Some _ => Throw ConstraintError
          | None => add_all items (<[k := q]> rs)
          end
      end
  end.

(** ** Document store *)

Definition _import (store : string) (items : list doc) : M (list string) :=
  λ c,
  match add_all items (records c store) with
  | Ok rs => (Ok (omap key_of items), set_records c store rs)
  | Throw e => (Throw e, c)
  end.

Definition _delete (store id : string) (hard : bool) (now : Z) : M bool :=
  λ c,
  match db_get c store id with
  | None => (Ok false, c)
  | Some original =>
      if negb hard then
        let original := <["deleted" := VBool true]> original in
        let original := <["lastUpdate" := VNum now]> original in
        match db_put store original c with
        | (Ok _, c) => (Ok true, clear_cache c)
        | (Throw e, c) => (Throw e, c)
        end
      else (Ok true, clear_cache (db_delete store id c))
  end.

(** [_update] awaits twice: the read of [original], then the write
    transaction.  What the first part hands to the second is a plan. *)
Inductive update_plan :=
| PlanCreate (record : doc)
| PlanCommit (original modified : doc).

Definition _update_read (store id : string) (patch : doc)
    (invalidateKeywordsCache : bool) (now : Z) (c : controller)
    : update_plan :=
  match db_get c store id with
  | None =>
      let patch := <["id" := VStr id]> patch in
      let patch := <["lastUpdate" := VNum now]> patch in
      PlanCreate patch
  | Some original =>
      let modified := applyPatch original patch in
      let modified := <["id" := VStr id]> modified in
      let modified := <["lastUpdate" := VNum now]> modified in
      let modified :=
        if invalidateKeywordsCache then
          delete "keywordsUpdatedTime"
            (delete "tagsFrequency"
               (delete "keywordsFrequency" (delete "keywords" modified)))
        else modified in
      PlanCommit original modified
  end.

Definition _update_write (store id : string) (plan : update_plan)
    : M string := λ c,
  match plan with
  | PlanCreate record =>
      match _import store [record] c with
      | (Ok _, c) => (Ok id, c)
      | (Throw e, c) => (Throw e, c)
      end
  | PlanCommit original modified =>
      let another := db_get c store id in
      if decide (another ≫= (.!! "lastUpdate") ≠ original !! "lastUpdate")
      then (Throw DataModified, c)
      else
        match db_put store modified c with
        | (Ok _, c) => (Ok id, clear_cache c)
        | (Throw e, c) => (Throw e, c)
        end
  end.

(** A call that nothing interleaves with. *)
Definition _update (store id : string) (patch : doc)
    (invalidateKeywordsCache : bool) (now : Z) : M string := λ c,
  _update_write store id
    (_update_read store id patch invalidateKeywordsCache now c) c.

Definition getQuizPaper (id : string) (c : controller) : option doc :=
  (λ ret, sanitizeIndices ret true) <$> db_get c STORE_KEY_PAPERS id.

Definition getQuestions (ids : list string) (c : controller)
    : list (option doc) :=
  (λ id, (λ ret, sanitizeIndices ret true)
           <$> db_get c STORE_KEY_QUESTIONS id) <$> ids.

Definition updateQuestion (id : string) (patch : doc) (now : Z)
    : M string :=
  _update STORE_KEY_QUESTIONS id patch false now.
Definition updateQuizPaper (id : string) (paper : doc) (now : Z)
    : M string :=
  _update STORE_KEY_PAPERS id paper false now.

Definition deleteQuestion (id : string) (now : Z) : M bool :=
  _delete STORE_KEY_QUESTIONS id true now.
Definition deleteQuizPaper (id : string) (now : Z) : M bool :=
  _delete STORE_KEY_PAPERS id true now.

(** ** Indexer *)

(** [m[key] = (m[key] || 0) + 1] *)
Definition bump (m : gmap string Z) (key : string) : gmap string Z :=
  <[key := default 0 (m !! key) + 1]> m.

Definition needs_reindex (force : bool) (object : doc) : bool :=
  force ||
  (negb (truthy (object !! "deleted")) &&
   match object !! "keywords", object !! "keywordsUpdatedTime" with
   | None, _ | _, None => true
   | Some _, Some kut =>
       match object !! "lastUpdate" with
       | Some lu => js_lt kut lu
       | None => false
       end
   end).

(** [Object.entries(object).filter(([k]) => !excludedKeysSet.has(k))
      .map(([, v]) => v)] *)
Definition indexed_values (excludedKeys : list string) (object : doc)
    : list jsval :=
  (filter (λ kv, kv.1 ∉ excludedKeys) (map_to_list object)).*2.

(** The body of the re-indexing branch: the object updated in place. *)
Definition reindex (excludedKeys : list string) (now : Z) (object : doc)
    : doc :=
  let '(words, freq) :=
    generateKeywords (indexed_values excludedKeys object) in
  let object := <["keywordsUpdatedTime" := VNum now]> object in
  let object := <["keywordsFrequency" := VFreq freq]> object in
  let object := <["keywords" := VStrs words]> object in
  let tagFreq : gmap string Z := ∅ in
  let tagFreq :=
    fold_left (λ m tag, <[tag := 1]> m) (strs (object !! "tags")) tagFreq in
  let tagFreq :=
    fold_left (λ m tag, <[tag := 4]> m) (strs (object !! "categories"))
      tagFreq in
  <["tagsFrequency" := VFreq tagFreq]> object.

(** [object.keywords?.length ?? 0] *)
Definition keywords_length (object : doc) : Z :=
  match object !! "keywords" with
  | Some (VStrs l) => Z.of_nat (length l)
  | _ => 0
  end.

(** [(object.tags?.length ?? 0) + (object.categories?.length ?? 0)] *)
Definition tags_length (object : doc) : Z :=
  Z.of_nat (length (strs (object !! "tags")))
  + Z.of_nat (length (strs (object !! "categories"))).

(** The variables of the cursor loop of [_buildIndices]. *)
Record scan := {
  updated : list string;
  sc_wordAppeared : gmap string Z;
  sc_tagAppeared : gmap string Z;
  totalLength : Z;
  totalLengthTag : Z;
  sc_totalDocs : Z;
  sc_records : gmap string doc;
}.

Definition scan_init (rs : gmap string doc) : scan :=
  {| updated := []; sc_wordAppeared := ∅; sc_tagAppeared := ∅;
     totalLength := 0; totalLengthTag := 0; sc_totalDocs := 0;
     sc_records := rs |}.

(** The record as the counting part of the loop body sees it. *)
Definition visited (force : bool) (excludedKeys : list string) (now : Z)
    (object : doc) : doc :=
  if needs_reindex force object then reindex excludedKeys now object
  else object.

(** One turn of the cursor loop; [clock key] is what [Date.now()] returns
    while the cursor is on the record [key]. *)
Definition scan_step (force : bool) (excludedKeys : list string)
    (clock : string → Z) (st : scan) (kv : string * doc) : scan :=
  let '(key, object0) := kv in
  let object := visited force excludedKeys (clock key) object0 in
  let reindexed := needs_reindex force object0 in
  {| updated := if reindexed then updated st ++ [key] else updated st;
     sc_records :=
       if reindexed then <[key := object]> (sc_records st)
       else sc_records st;
     sc_wordAppeared :=
       fold_left bump (keys (freqs (object !! "keywordsFrequency")))
         (sc_wordAppeared st);
     sc_tagAppeared :=
       fold_left bump (keys (freqs (object !! "tagsFrequency")))
         (sc_tagAppeared st);
     totalLength := totalLength st + keywords_length object;
     totalLengthTag := totalLengthTag st + tags_length object;
     sc_totalDocs := sc_totalDocs st + 1 |}.

Definition run_scan (force : bool) (excludedKeys : list string)
    (clock : string → Z) (rs : gmap string doc) : scan :=
  fold_left (scan_step force excludedKeys clock) (map_to_list rs)
    (scan_init rs).

(** [Math.max(1e-8, Math.log((totalDocs - n + 0.5) / (n + 0.5)))] *)
Definition idf_of (totalDocs n : Z) : R :=
  Rmax 1e-8 (ln ((IZR totalDocs - IZR n + 0.5) / (IZR n + 0.5))).

(** What [_buildIndices] dumps under ['bm25_' + store]. *)
Definition bm25_of (st : scan) : Bm25Cache :=
  let '(trie, trieSize) := buildTrieTree (keys (sc_wordAppeared st)) in
  let '(trieTags, trieSizeTags) :=
    buildTrieTree (keys (sc_tagAppeared st)) in
  let totalDocs := sc_totalDocs st in
  let idf := idf_of totalDocs <$> sc_wordAppeared st in
  let idfTag := idf_of totalDocs <$> sc_tagAppeared st in
  let docs1 := if totalDocs =? 0 then 1 else totalDocs in
  {| wordAppeared := sc_wordAppeared st;
     tagAppeared := sc_tagAppeared st;
     averageDocLength := (IZR (totalLength st) / IZR docs1)%R;
     averageDocLengthTag := (IZR (totalLengthTag st) / IZR docs1)%R;
     totalDocs := totalDocs;
     idf := idf; idfTag := idfTag;
     bm_trie := trie; trieSize := trieSize;
     trieTags := trieTags; trieSizeTags := trieSizeTags |}.

Definition _load (key : string) (c : controller) : option Bm25Cache :=
  general c !! key.

Definition _dump (key : string) (value : Bm25Cache) (c : controller)
    : controller :=
  {| db := db c; general := <[key := value]> (general c);
     cache := cache c |}.

Definition _buildIndices (store : string) (force : bool)
    (excludedKeys : list string) (clock : string → Z) (c : controller)
    : list string * controller :=
  let st := run_scan force excludedKeys clock (records c store) in
  let c := set_records c store (sc_records st) in
  let bm25Body := bm25_of st in
  (updated st, _dump ("bm25_" +:+ store) bm25Body c).

(** [clock store key]: the time at which the pass over [store] re-indexes
    the record [key]. *)
Definition refreshSearchIndices (force : bool)
    (clock : string → string → Z) (c : controller) : Z * controller :=
  let count := 0 in
  let '(u, c) :=
    _buildIndices STORE_KEY_QUESTIONS force ["id"; "keywords"]
      (clock STORE_KEY_QUESTIONS) c in
  let count := count + Z.of_nat (length u) in
  let '(u, c) :=
    _buildIndices STORE_KEY_PAPERS force ["id"; "questions"; "keywords"]
      (clock STORE_KEY_PAPERS) c in
  let count := count + Z.of_nat (length u) in
  (count, clear_cache c).

(** ** Query engine *)

(** [Set.prototype.add], insertion order kept. *)
Definition set_add (x : string) (s : list string) : list string :=
  if decide (x ∈ s) then s else s ++ [x].

Definition expand (searchFunc : string → list string) (query : list string)
    : list string :=
  fold_left
    (λ expandedQuery qi,
       fold_left (λ s qj, set_add qj s) (searchFunc qi)
         (set_add qi expandedQuery))
    query [].

(** [cacheList?.length || 1] *)
Definition docLength (useTag : bool) (d : doc) : Z :=
  let n :=
    if useTag then
      Z.of_nat (length (strs (d !! "tags") ++ strs (d !! "categories")))
    else keywords_length d in
  if n =? 0 then 1 else n.

Definition localTerm (_idf : gmap string R) (freq : gmap string Z)
    (k1 b docLength l : R) (qi : string) : R :=
  let f_qi := IZR (default 0 (freq !! qi)) in
  (default 0 (_idf !! qi) * (f_qi * (k1 + 1))
   / (f_qi + k1 * (1 - b + b * docLength / l)))%R.

(** The score of one document: the inner loop of [_buildScore]. *)
Definition score_of (_idf : gmap string R) (l : R) (useTag : bool)
    (k1 b : R) (expandedQuery : list string) (d : doc) : R :=
  let freq :=
    freqs (d !! (if useTag then "tagsFrequency" else "keywordsFrequency")) in
  fold_left
    (λ score qi,
       (score + localTerm _idf freq k1 b (IZR (docLength useTag d)) l qi)%R)
    expandedQuery 0%R.

(** [scoresSorted.sort((a, b) => b[1] - a[1])]: stable, descending. *)
Fixpoint insert_desc (x : string * R) (l : ranking) : ranking :=
  match l with
  | [] => [x]
  | y :: l' =>
      if Rlt_dec x.2 y.2 then y :: insert_desc x l' else x :: l
  end.

Definition sort_desc (l : ranking) : ranking := foldr insert_desc [] l.

Definition no_cache : Bm25Cache :=
  {| wordAppeared := ∅; tagAppeared := ∅;
     averageDocLength := 0; averageDocLengthTag := 0; totalDocs := 0;
     idf := ∅; idfTag := ∅;
     bm_trie := emptyTrie; trieSize := 0%nat;
     trieTags := emptyTrie; trieSizeTags := 0%nat |}.

(** The expanded query of [_buildScore]. *)
Definition expanded_query (store : string) (query : list string)
    (useTag : bool) (c : controller) : list string :=
  let bm := default no_cache (_load ("bm25_" +:+ store) c) in
  let trieTree :=
    loadTrieTree (if negb useTag then bm_trie bm else trieTags bm)
      (if negb useTag then trieSize bm else trieSizeTags bm) in
  expand trieTree query.

(** The score [_buildScore] computes for a record of [store]. *)
Definition scorer (store : string) (query : list string) (useTag : bool)
    (k1 b : R) (c : controller) : doc → R :=
  let bm := default no_cache (_load ("bm25_" +:+ store) c) in
  score_of (if useTag then idfTag bm else idf bm)
    (if useTag then averageDocLengthTag bm else averageDocLength bm)
    useTag k1 b (expanded_query store query useTag c).

(** The [scores] object after the cursor loop of [_buildScore]. *)
Definition score_table (store : string) (query : list string)
    (useTag : bool) (k1 b threshold : R) (c : controller)
    : gmap string R :=
  let bm := default no_cache (_load ("bm25_" +:+ store) c) in
  let l := if useTag then averageDocLengthTag bm else averageDocLength bm in
  let _idf := if useTag then idfTag bm else idf bm in
  let expandedQuery := expanded_query store query useTag c in
  fold_left
    (λ (scores : gmap string R) (kv : string * doc),
       let score := score_of _idf l useTag k1 b expandedQuery kv.2 in
       if Rgt_dec score threshold then <[kv.1 := score]> scores
       else scores)
    (map_to_list (records c store)) ∅.

Definition _buildScore (key : cache_key) (store : string)
    (query : list string) (useTag : bool) (k1 b threshold : R)
    (c : controller) : ranking * controller :=
  let scores := score_table store query useTag k1 b threshold c in
  let scoresSorted := sort_desc (map_to_list scores) in
  (scoresSorted,
   {| db := db c; general := general c;
      cache := lru_set (cache c) key scoresSorted |}).

Record SearchResult := {
  sr_query : string;
  sr_keywords : list string;
  result : list doc;
  totalPages : Z;
}.

(** [Math.ceil(a / b)] for [b > 0]. *)
Definition ceil_div (a b : Z) : Z := - ((- a) `div` b).

(** The body of the paging loop at index [i]. *)
Definition fetch (store : string) (scores : option ranking)
    (c : controller) (i : nat) : option doc :=
  let id := default "" (fst <$> (scores ≫= (.!! i))) in
  (λ currentResult, sanitizeIndices currentResult true)
    <$> db_get c store id.

Definition _search (store query : string) (keywords : list string)
    (useTag : bool) (count page : option Z) (k1 b threshold : R)
    (c : controller) : SearchResult * controller :=
  let queryCacheKey := CacheKey store keywords useTag k1 b threshold in
  let '(scores, c) :=
    if lru_has (cache c) queryCacheKey then
      let '(v, q) := lru_get (cache c) queryCacheKey in
      (v, {| db := db c; general := general c; cache := q |})
    else
      let '(v, c) :=
        _buildScore queryCacheKey store keywords useTag k1 b threshold c in
      (Some v, c) in
  let count := Z.max (default 1 count) 1 in
  let page := Z.max (default 0 page) 0 in
  let result :=
    omap (fetch store scores c)
      (seq (Z.to_nat (page * count)) (Z.to_nat count)) in
  ({| sr_query := query; sr_keywords := keywords; result := result;
      totalPages :=
        ceil_div (Z.of_nat (default 0%nat (length <$> scores))) count |},
   c).

(** [query.split(' ')]: [cur] is the piece being read. *)
Fixpoint split_spaces (query cur : string) : list string :=
  match query with
  | EmptyString => [cur]
  | String a rest =>
      if Ascii.eqb a Ascii.Space then cur :: split_spaces rest ""
      else split_spaces rest (cur +:+ String a "")
  end.

(** The query terms of [findQuizPaperByTags] and [findQuestionByTags]:
    [query.split(' ').filter(x => !!x)], with the whole query put first
    when it is not the first word. *)
Definition tag_query (query : string) : list string :=
  let queryKeywords := filter (λ x, x ≠ "") (split_spaces query "") in
  if decide (head queryKeywords ≠ Some query) then query :: queryKeywords
  else queryKeywords.

Definition findQuizPaperByTags (query : string) (count page : option Z)
    (c : controller) : SearchResult * controller :=
  _search STORE_KEY_PAPERS query (tag_query query) true count page
    1.5 0.75 1e-10 c.

Definition findQuestionByTags (query : string) (count page : option Z)
    (c : controller) : SearchResult * controller :=
  _search STORE_KEY_QUESTIONS query (tag_query query) true count page
    1.5 0.75 1e-10 c.

(** The ranked list a search is served: the cached one if the key is in
    the cache, a fresh one otherwise. *)
Definition served (store : string) (keywords : list string) (useTag : bool)
    (k1 b threshold : R) (c : controller) : ranking :=
  let key := CacheKey store keywords useTag k1 b threshold in
  match lru_lookup key (cache c) with
  | Some v => v
  | None => (_buildScore key store keywords useTag k1 b threshold c).1
  end.

(** The records of a pass as the counting part of the loop sees them, and
    as the pass leaves them in the store. *)
Definition seen (force : bool) (excludedKeys : list string)
    (clock : string → Z) (l : list (string * doc)) : list doc :=
  (λ kv, visited force excludedKeys (clock kv.1) kv.2) <$> l.

Definition post (force : bool) (excludedKeys : list string)
    (clock : string → Z) (kv : string * doc) : string * doc :=
  (kv.1, visited force excludedKeys (clock kv.1) kv.2).

End Controller.

(** ** Notions used to state what a pass counts *)

(** A counter that is absent until its first increment. *)
Definition add_count (o : option Z) (n : nat) : option Z :=
  match n with
  | O => o
  | S _ => Some (default 0 o + Z.of_nat n)
  end.

(** Number of records in [ds] whose frequency table [field] has [t]. *)
Definition appear (field t : string) (ds : list doc) : nat :=
  length (filter (λ d, is_Some (freqs (d !! field) !! t)) ds).

Definition sumZ (l : list Z) : Z := foldr Z.add 0 l.

(** ** Stand-ins for the collaborators

    Simple implementations of the collaborators' signatures, used where a
    statement is evaluated on concrete data. *)
Module Toy.

(** Every string is one term; a term counts once per occurrence. *)
Definition terms (values : list jsval) : list string :=
  values ≫= λ v,
    match v with
    | VStr s => [s]
    | VStrs l => l
    | _ => []
    end.

Definition keywords_of (values : list jsval)
    : list string * gmap string Z :=
  let ws := terms values in
  (remove_dups ws, fold_left bump ws ∅).

(** A vocabulary list stands for the trie; search is by prefix. *)
Definition build (vocabulary : list string) : list string * nat :=
  (vocabulary, length vocabulary).

Definition load (t : list string) (size : nat) (prefix : string)
    : list string :=
  filter (λ w, String.prefix prefix w = true) t.

(** The fields of the patch replace those of the original. *)
Definition patch_over (original patch : doc) : doc := patch ∪ original.

Definition externals : Externals := {|
  trie := list string;
  emptyTrie := [];
  buildTrieTree := build;
  loadTrieTree := load;
  generateKeywords := keywords_of;
  applyPatch := patch_over;
|}.

Definition empty_controller : controller (Ext := externals) :=
  {| db := ∅; general := ∅; cache := [] |}.

(** A controller whose only records are [rs], in [store]. *)
Definition with_records (store : string) (rs : list (string * doc))
    : controller (Ext := externals) :=
  {| db := {[store := list_to_map rs]}; general := ∅; cache := [] |}.

End Toy.

(** ** Sample data

    Small stores on which statements are evaluated. *)
Module Sample.
#[local] Existing Instance Toy.externals.

Definition q0 : doc :=
  {[ "id" := VStr "q"; "lastUpdate" := VNum 5; "name" := VStr "x" ]}.

Definition questions0 : controller :=
  Toy.with_records "questions" [("q", q0)].

Definition paper_a : doc :=
  {[ "id" := VStr "a"; "lastUpdate" := VNum 1; "tags" := VStrs ["math"] ]}.

Definition papers0 : controller :=
  Toy.with_records "papers" [("a", paper_a)].

(** [papers0] after the soft delete of its record at time 2. *)
Definition papers_deleted : controller :=
  (_delete "papers" "a" false 2 papers0).2.

Definition future_paper : doc :=
  {[ "id" := VStr "a"; "lastUpdate" := VNum 10; "tags" := VStrs ["math"] ]}.

Definition papers_future : controller :=
  Toy.with_records "papers" [("a", future_paper)].

Definition nameless : doc := {[ "id" := VStr "" ]}.

Definition papers_nameless : controller :=
  Toy.with_records "papers" [("", nameless)].

Definition by_category : doc := {[ "categories" := VStrs ["math"] ]}.
Definition by_tag : doc := {[ "tags" := VStrs ["math"] ]}.

End Sample.

(** ** Further methods of the controller *)

Section Maintenance.
Context `{Ext : Externals}.

(** [tx.store.getAll()]: the records in the order of their keys. *)
Definition _export (store : string) (c : controller) : list doc :=
  (map_to_list (records c store)).*2.

Definition STORE_KEY_RECORDS : string := "records".
Definition STORE_KEY_RESULTS : string := "results".
Definition STORE_KEY_STATS : string := "stats".
Definition STORE_KEY_GENERAL : string := "general".

(** [Object.keys(result.answers ?? [])] of a stored result.  The answers
    are objects of the quiz-result module; [deleteUnlinked] reads their
    keys only. *)
Variable answered : doc → list string.

(** The set [linkedQuestions] of [deleteUnlinked]. *)
Definition linkedQuestions (c : controller) : list string :=
  let linkedQuestions : list string := [] in
  let linkedQuestions :=
    fold_left
      (λ linked paper,
         fold_left (λ s q, set_add q s) (strs (paper !! "questions")) linked)
      (_export STORE_KEY_PAPERS c) linkedQuestions in
  fold_left
    (λ linked result,
       fold_left (λ s q, set_add q s) (answered result) linked)
    (_export STORE_KEY_RESULTS c) linkedQuestions.

Definition deleteUnlinked (c : controller) : Z * controller :=
  let count := 0 in
  let allQuestions := keys (records c STORE_KEY_QUESTIONS) in
  let linkedQuestions := linkedQuestions c in
  let deleteNeededQuestions :=
    fold_left
      (λ s id, if decide (id ∈ linkedQuestions) then s else set_add id s)
      allQuestions [] in
  fold_left
    (λ '(count, c) id, (count + 1, db_delete STORE_KEY_QUESTIONS id c))
    deleteNeededQuestions (count, c).

(** Every stored record carries its key in [id] ([keyPath: 'id']). *)
Definition keyed (c : controller) : Prop :=
  ∀ store k d, db_get c store k = Some d → key_of d = Some k.

(** The condition under which the [add]s of one [_import] all succeed. *)
Definition importable (store : string) (items : list doc) (c : controller)
    : Prop :=
  Forall (λ q, is_Some (key_of q)) items
  ∧ NoDup (omap key_of items)
  ∧ ∀ k, k ∈ omap key_of items → db_get c store k = None.

End Maintenance.

(** ** Notions used to state what a tag query holds *)

(** The text holds no space. *)
Fixpoint spaceless (s : string) : bool :=
  match s with
  | EmptyString => true
  | String a rest => negb (Ascii.eqb a Ascii.Space) && spaceless rest
  end.

(** ** The schema and the listings by paper

    The object stores and indexes that the [updaters] create.  An index is
    kept as its name and its key path. *)
Module Schema.

Abbreviation schema := (gmap string (list (string * string))).

Definition createObjectStore (name : string) (db : schema) : schema :=
  <[name := []]> db.

Definition createIndex (store name keyPath : string) (db : schema) : schema :=
  alter (λ indexes, indexes ++ [(name, keyPath)]) store db.

Definition createIndexes (stores keys : list string) (db : schema) : schema :=
  fold_left
    (λ db store, fold_left (λ db key, createIndex store key key db) keys db)
    stores db.

Definition updaters : list (schema → schema) :=
  [ (λ db,
       let db := createObjectStore STORE_KEY_PAPERS db in
       let db := createObjectStore STORE_KEY_RECORDS db in
       let db := createObjectStore STORE_KEY_QUESTIONS db in
       let db := createObjectStore STORE_KEY_RESULTS db in
       let db := createObjectStore STORE_KEY_STATS db in
       let db :=
         createIndexes
           [STORE_KEY_PAPERS; STORE_KEY_RECORDS; STORE_KEY_QUESTIONS;
            STORE_KEY_RESULTS; STORE_KEY_STATS]
           ["deleted"; "lastUpdate"] db in
       let db :=
         createIndexes [STORE_KEY_PAPERS; STORE_KEY_QUESTIONS]
           ["name"; "tags"; "keywords"; "keywordsUpdatedTime"] db in
       let db :=
         createIndexes [STORE_KEY_RECORDS]
           ["paperId"; "paused"; "startTime"; "updateTime"] db in
       let db :=
         createIndexes [STORE_KEY_RESULTS] ["paperId"; "startTime"] db in
       let db := createIndex STORE_KEY_STATS "tag" "tag" db in
       let db := createIndex STORE_KEY_STATS "alternatives" "alternatives" db in
       createIndex STORE_KEY_STATS "percentage" "percentage" db);
    (λ db, createObjectStore STORE_KEY_GENERAL db);
    (λ db,
       createIndexes [STORE_KEY_PAPERS; STORE_KEY_QUESTIONS] ["categories"]
         db) ].

(** The schema of a database opened at [VERSION = 3]: the updaters 0, 1
    and 2 have run, in this order. *)
Definition opened : schema := fold_left (λ db updater, updater db) updaters ∅.

Section Listings.
Context `{Ext : Externals}.

(** [db.getAllFromIndex(store, indexName, key)] for a string key: the
    records whose key path holds [key]; [None] stands for the
    [NotFoundError] of a store without an index of that name. *)
Definition getAllFromIndex (store indexName key : string) (c : controller)
    : option (list doc) :=
  match
    list_find (λ index, index.1 = indexName) (default [] (opened !! store))
  with
  | None => None
  | Some (_, (_, keyPath)) =>
      Some (filter (λ d, d !! keyPath = Some (VStr key)) (_export store c))
  end.

Definition listQuizRecords (quizPaperID : option string) (c : controller)
    : option (list doc) :=
  if negb (truthy (VStr <$> quizPaperID)) then
    Some (_export STORE_KEY_RECORDS c)
  else
    getAllFromIndex STORE_KEY_RECORDS "paperID" (default "" quizPaperID) c.

Definition listQuizResults (quizPaperID : option string) (c : controller)
    : option (list doc) :=
  if negb (truthy (VStr <$> quizPaperID)) then
    Some (_export STORE_KEY_RESULTS c)
  else
    getAllFromIndex STORE_KEY_RESULTS "paperID" (default "" quizPaperID) c.

End Listings.
End Schema.

(** ** Quiz records: [updateQuiz]

    The [records] store is a map from the key to the quiz record.  A quiz
    record is kept with the properties [startQuiz] gives it; [qr_rest]
    holds whatever else the record carries.  A [Partial<QuizRecord>] has
    each property or not; [None] is a property it does not have. *)
Module Quiz.
Section WithAnswers.
Variable Answers : Type.

Record QuizRecord := {
  qr_id : string;
  qr_paperId : string;
  qr_paused : bool;
  qr_startTime : Z;
  qr_updateTime : Z;
  qr_timeUsed : Z;
  qr_answers : gmap string Answers;
  qr_rest : doc;
}.

Record PartialQuizRecord := {
  p_id : option string;
  p_paperId : option string;
  p_paused : option bool;
  p_startTime : option Z;
  p_updateTime : option Z;
  p_timeUsed : option Z;
  p_answers : option (gmap string Answers);
  p_rest : doc;
}.

Record UpdateQuizOptions := {
  timestamp : option Z;
  ignoreTimeUsed : option bool;
}.

(** [inl] is the message of the error thrown. *)
Definition updateQuiz (id : string) (record : PartialQuizRecord)
    (options : option UpdateQuizOptions) (now : Z)
    (store : gmap string QuizRecord)
    : (string + QuizRecord) * gmap string QuizRecord :=
  match store !! id with
  | None => (inl "Invalid record ID", store)
  | Some oldRecord =>
      let t := default now (options ≫= timestamp) in
      let timeUsed := default (qr_timeUsed oldRecord) (p_timeUsed record) in
      let timeUsed :=
        if negb (default false (options ≫= ignoreTimeUsed)) then
          qr_timeUsed oldRecord + (t - qr_updateTime oldRecord)
        else timeUsed in
      let newRecord :=
        {| qr_id := qr_id oldRecord;
           qr_paperId := default (qr_paperId oldRecord) (p_paperId record);
           qr_paused := default (qr_paused oldRecord) (p_paused record);
           qr_startTime :=
             default (qr_startTime oldRecord) (p_startTime record);
           qr_updateTime := t;
           qr_timeUsed := timeUsed;
           qr_answers :=
             default ∅ (p_answers record) ∪ qr_answers oldRecord;
           qr_rest := p_rest record ∪ qr_rest oldRecord |} in
      (inr newRecord, <[qr_id newRecord := newRecord]> store)
  end.

(** Calls one after the other, each with its patch and its clock. *)
Definition updateQuiz_each (id : string)
    (calls : list (PartialQuizRecord * Z)) (store : gmap string QuizRecord)
    : gmap string QuizRecord :=
  fold_left (λ store call, (updateQuiz id call.1 None call.2 store).2)
    calls store.

End WithAnswers.
End Quiz.

(** ** The pagination control (components/Pagination.tsx) *)
Module Pagination.

(** [Math.max(_nearPages || 4, 0)] *)
Definition nearPages (_nearPages : option Z) : Z :=
  Z.max
    (match _nearPages with
     | Some n => if n =? 0 then 4 else n
     | None => 4
     end) 0.

(** [currentPage] and [pageOutRange] after the two range checks. *)
Definition clamp (currentPageRaw totalPages : Z) : Z * Z :=
  let pageOutRange := 0 in
  let currentPage := currentPageRaw in
  let '(currentPage, pageOutRange) :=
    if currentPage <? 1 then (1, -1) else (currentPage, pageOutRange) in
  if totalPages <? currentPage then (totalPages, 1)
  else (currentPage, pageOutRange).

(** The page [setPage] is called with, if it is called. *)
Definition handlePageChange (currentPageRaw totalPages page : Z)
    : option Z :=
  let page := if page <? 1 then 1 else page in
  let page := if totalPages <? page then totalPages else page in
  if decide (page ≠ currentPageRaw) then Some page else None.

Inductive item :=
| Button (i : Z) (selected : bool)
| Dots.

Definition _btn (i : Z) (selected : bool) : item := Button i selected.

Definition renderPageNumbers (currentPageRaw totalPages : Z)
    (_nearPages : option Z) : list item :=
  let nearPages := nearPages _nearPages in
  let '(currentPage, pageOutRange) := clamp currentPageRaw totalPages in
  let startPageRaw := currentPage - nearPages in
  let endPageRaw := currentPage + nearPages in
  let startPageEllipsis := 0 <? startPageRaw - 1 in
  let endPageEllipsis := 0 <? totalPages - endPageRaw in
  let startPage := if startPageEllipsis then startPageRaw else 1 in
  let endPage := if endPageEllipsis then endPageRaw else totalPages in
  let pages : list item := [] in
  let pages :=
    if pageOutRange =? -1 then pages ++ [_btn currentPageRaw true]
    else pages in
  let pages :=
    if startPageEllipsis
    then pages ++ [_btn 1 (currentPageRaw =? 1); Dots]
    else pages in
  let pages :=
    pages ++ ((λ i, _btn i (currentPageRaw =? i))
                <$> seqZ startPage (endPage - startPage + 1)) in
  let pages :=
    if endPageEllipsis
    then pages ++ [_btn totalPages (currentPageRaw =? totalPages); Dots]
    else pages in
  if pageOutRange =? 1 then pages ++ [_btn currentPageRaw true] else pages.

(** The page numbers on the buttons, and the pages shown as selected. *)
Definition numbers (pages : list item) : list Z :=
  omap (λ it, match it with Button i _ => Some i | Dots => None end) pages.

Definition selected_pages (pages : list item) : list Z :=
  omap (λ it, match it with Button i true => Some i | _ => None end) pages.

End Pagination.

(** ** Import and export of the whole database *)
Section Data.
Context `{Ext : Externals}.

(** [QuizzyData]; an item of [general] is [{ id, value }]. *)
Record QuizzyData := {
  qd_papers : list doc;
  qd_questions : list doc;
  qd_records : list doc;
  qd_results : list doc;
  qd_stats : list doc;
  qd_general : list (string * Bm25Cache);
}.

(** [await m; f]: what follows a rejected [await] does not run. *)
Definition and_then {A B} (m : M A) (f : A → M B) : M B := λ c,
  match m c with
  | (Ok a, c) => f a c
  | (Throw e, c) => (Throw e, c)
  end.

(** [_import] into the [general] store. *)
Fixpoint add_all_general (items : list (string * Bm25Cache))
    (g : gmap string Bm25Cache) : outcome (gmap string Bm25Cache) :=
  match items with
  | [] => Ok g
  | (k, v) :: items =>
      match g !! k with
      | Some _ => Throw ConstraintError
      | None => add_all_general items (<[k := v]> g)
      end
  end.

Definition _import_general (items : list (string * Bm25Cache))
    : M (list string) := λ c,
  match add_all_general items (general c) with
  | Ok g => (Ok items.*1, {| db := db c; general := g; cache := cache c |})
  | Throw e => (Throw e, c)
  end.

Definition importData (data : QuizzyData) : M unit :=
  and_then (_import STORE_KEY_PAPERS (qd_papers data)) (λ _,
  and_then (_import STORE_KEY_QUESTIONS (qd_questions data)) (λ _,
  and_then (_import STORE_KEY_RECORDS (qd_records data)) (λ _,
  and_then (_import STORE_KEY_RESULTS (qd_results data)) (λ _,
  and_then (_import STORE_KEY_STATS (qd_stats data)) (λ _,
  and_then (_import_general (qd_general data)) (λ _ c, (Ok (), c))))))).

Definition exportData (c : controller) : QuizzyData :=
  {| qd_papers := _export STORE_KEY_PAPERS c;
     qd_questions := _export STORE_KEY_QUESTIONS c;
     qd_records := _export STORE_KEY_RECORDS c;
     qd_results := _export STORE_KEY_RESULTS c;
     qd_stats := _export STORE_KEY_STATS c;
     qd_general := map_to_list (general c) |}.

End Data.

(** ** utils/string.ts

    A JavaScript string is the list of its UTF-16 code units; [charCodeAt]
    reads a unit and [String.fromCharCode] makes a one-unit string. *)
Module Text.

Abbreviation jsstring := (list Z).

(** The code units of a string of ASCII characters. *)
Fixpoint codes (s : string) : jsstring :=
  match s with
  | EmptyString => []
  | String a s => Z.of_nat (Ascii.nat_of_ascii a) :: codes s
  end.

(** The body of the [while (num > 0)] loop of [numberToLetters], run at
    most [fuel] times. *)
Fixpoint numberToLetters_loop (fuel : nat) (num : Z) (result : jsstring)
    : jsstring :=
  match fuel with
  | O => result
  | S fuel =>
      if 0 <? num then
        let num := num - 1 in
        let result := (65 + num `mod` 26) :: result in
        let num := num `div` 26 in
        numberToLetters_loop fuel num result
      else result
  end.

(** [num] turns of the loop are enough: every turn makes [num] smaller. *)
Definition numberToLetters (num : Z) : jsstring :=
  if num <? 1 then [] else numberToLetters_loop (Z.to_nat num) num [].

(** [toUpperCase] on a code unit of the ASCII range. *)
Definition ascii_upper (c : Z) : Z :=
  if (97 <=? c) && (c <=? 122) then c - 32 else c.

(** [lettersToNumber], over the [str.toUpperCase()] of the engine. *)
Definition lettersToNumber (toUpperCase : jsstring → jsstring)
    (str : jsstring) : Z :=
  let str := toUpperCase str in
  fold_left (λ result c, result * 26 + (c - 64)) str 0.

(** White space and line terminators, as [String.prototype.trim] strips
    them. *)
Definition is_space (c : Z) : bool :=
  ((9 <=? c) && (c <=? 13)) || (c =? 32) || (c =? 160) || (c =? 5760)
  || ((8192 <=? c) && (c <=? 8202)) || (c =? 8232) || (c =? 8233)
  || (c =? 8239) || (c =? 8287) || (c =? 12288) || (c =? 65279).

Fixpoint trim_start (s : jsstring) : jsstring :=
  match s with
  | [] => []
  | c :: s' => if is_space c then trim_start s' else s
  end.

Definition trim (s : jsstring) : jsstring :=
  reverse (trim_start (reverse (trim_start s))).

(** [input.endsWith(search)] *)
Definition endsWith (input search : jsstring) : bool :=
  bool_decide (drop (length input - length search) input = search
               ∧ (length search ≤ length input)%nat).

(** The defaults [',;、；，'] and [' 　'] of [parseCommaSeparatedArray]. *)
Definition default_separators : jsstring := [44; 59; 12289; 65307; 65292].
Definition default_spaces : jsstring := [32; 12288].

(** The variables of the loop of [parseCommaSeparatedArray]. *)
Record parser := {
  ps_result : list jsstring;
  ps_current : jsstring;
  ps_escaped : bool;
}.

Definition backslash : Z := 92.

(** One turn of the loop, on the unit [char]. *)
Definition parse_step (separators spaces : jsstring) (st : parser)
    (char : Z) : parser :=
  if ps_escaped st then
    let current :=
      if char =? backslash then ps_current st ++ [backslash]
      else if bool_decide (char ∈ separators) || bool_decide (char ∈ spaces)
      then ps_current st ++ [char]
      else ps_current st ++ [backslash; char] in
    {| ps_result := ps_result st; ps_current := current;
       ps_escaped := false |}
  else if char =? backslash then
    {| ps_result := ps_result st; ps_current := ps_current st;
       ps_escaped := true |}
  else if bool_decide (char ∈ separators) then
    {| ps_result := ps_result st ++ [trim (ps_current st)];
       ps_current := []; ps_escaped := false |}
  else
    {| ps_result := ps_result st; ps_current := ps_current st ++ [char];
       ps_escaped := false |}.

(** [separators[separators.length - 1]], as [endsWith] reads it: for the
    empty [separators] it is [undefined], which [endsWith] turns into the
    text ["undefined"]. *)
Definition last_separator (separators : jsstring) : jsstring :=
  match last separators with
  | Some c => [c]
  | None => codes "undefined"
  end.

Definition parseCommaSeparatedArray (input separators spaces : jsstring)
    : list jsstring :=
  let st :=
    fold_left (parse_step separators spaces) input
      {| ps_result := []; ps_current := []; ps_escaped := false |} in
  if (0 <? Z.of_nat (length (ps_current st)))
     || endsWith input (last_separator separators)
  then ps_result st ++ [trim (ps_current st)]
  else ps_result st.

(** Notions used to state what the functions do. *)

(** [Array.prototype.join] with a one-unit separator. *)
Fixpoint join (c : Z) (ws : list jsstring) : jsstring :=
  match ws with
  | [] => []
  | w :: ws' => match ws' with [] => w | _ :: _ => w ++ c :: join c ws' end
  end.

(** An upper-case letter of the basic Latin alphabet; a letter of it. *)
Definition is_upper (c : Z) : Prop := 65 ≤ c ≤ 90.
Definition is_letter (c : Z) : Prop := 65 ≤ c ≤ 90 ∨ 97 ≤ c ≤ 122.

(** The text starts or ends with a unit [trim] removes. *)
Definition padded (s : jsstring) : bool :=
  match head s with Some c => is_space c | None => false end
  || match last s with Some c => is_space c | None => false end.

(** No unit of the text is a backslash or one of the separators. *)
Definition plain (separators : jsstring) (w : jsstring) : Prop :=
  Forall (λ ch, ch ≠ backslash ∧ ch ∉ separators) w.

(** What an escaped unit leaves in the entry. *)
Definition unescaped (separators spaces : jsstring) (char : Z) : jsstring :=
  if char =? backslash then [backslash]
  else if bool_decide (char ∈ separators) || bool_decide (char ∈ spaces)
  then [char] else [backslash; char].

End Text.

(** * Proofs *)

Section StoreFacts.
Context `{Ext : Externals}.
Implicit Types (c : controller) (d : doc).

Lemma records_set_records c store rs store' :
  records (set_records c store rs) store'
  = if decide (store = store') then rs else records c store'.
Proof.
  unfold records, set_records; simpl.
  rewrite lookup_insert. by case_decide.
Qed.

Lemma sanitize_lookup d k :
  sanitizeIndices d true !! k
  = if bool_decide (k ∈ derived_fields) then None else d !! k.
Proof.
  unfold sanitizeIndices, derived_fields; simpl.
  case_bool_decide as Hk.
  - repeat (apply elem_of_cons in Hk as [->|Hk];
            [by repeat (rewrite lookup_delete_eq
                        || rewrite lookup_delete_ne by done)|]).
    by apply elem_of_nil in Hk.
  - repeat (rewrite lookup_delete_ne; [|intros <-; apply Hk; set_solver]).
    done.
Qed.

Lemma search_result_from_store store query keywords useTag count page
    k1 b threshold c :
  Forall
    (λ r, ∃ id d, db_get c store id = Some d ∧ r = sanitizeIndices d true)
    (result (_search store query keywords useTag count page k1 b
               threshold c).1).
Proof.
  unfold _search, _buildScore, lru_get.
  destruct (lru_has _ _); [destruct (lru_lookup _ _)|]; simpl;
    apply Forall_forall; intros r Hr;
    apply list_elem_of_omap in Hr as (i & _ & Hi);
    unfold fetch, db_get, records in *; simpl in *;
    apply fmap_Some in Hi as (d & Hd & ->); eauto.
Qed.

End StoreFacts.

Section UpdateFacts.
Context `{Ext : Externals}.
Implicit Types (c : controller) (d : doc).

Lemma update_read_existing store id patch inv now c original :
  db_get c store id = Some original →
  ∃ modified,
    _update_read store id patch inv now c = PlanCommit original modified
    ∧ modified !! "id" = Some (VStr id)
    ∧ modified !! "lastUpdate" = Some (VNum now).
Proof.
  intros Hget. unfold _update_read. rewrite Hget.
  eexists; split; [reflexivity|].
  destruct inv; simpl;
    repeat (rewrite lookup_delete_ne by done);
    rewrite ?lookup_insert_eq, ?lookup_insert_ne by done;
    rewrite ?lookup_insert_eq; done.
Qed.

Lemma key_of_id d id : d !! "id" = Some (VStr id) → key_of d = Some id.
Proof. unfold key_of. by intros ->. Qed.

Lemma update_write_commit store id original modified c :
  modified !! "id" = Some (VStr id) →
  db_get c store id ≫= (.!! "lastUpdate") = original !! "lastUpdate" →
  _update_write store id (PlanCommit original modified) c
  = (Ok id,
     clear_cache (set_records c store (<[id := modified]> (records c store)))).
Proof.
  intros Hid Heq. unfold _update_write.
  rewrite decide_False by (by intros ?).
  unfold db_put. by rewrite (key_of_id _ _ Hid).
Qed.

Lemma update_write_conflict store id original modified c :
  db_get c store id ≫= (.!! "lastUpdate") ≠ original !! "lastUpdate" →
  _update_write store id (PlanCommit original modified) c
  = (Throw DataModified, c).
Proof. intros Hne. unfold _update_write. by rewrite decide_True. Qed.

Lemma update_create store id patch inv now c :
  db_get c store id = None →
  _update store id patch inv now c
  = (Ok id,
     set_records c store
       (<[id := <["lastUpdate" := VNum now]> (<["id" := VStr id]> patch)]>
          (records c store))).
Proof.
  intros Hget. unfold _update, _update_read. rewrite Hget.
  unfold _update_write, _import; simpl.
  assert (key_of (<["lastUpdate" := VNum now]> (<["id" := VStr id]> patch))
          = Some id) as Hk.
  { apply key_of_id. rewrite lookup_insert_ne by done.
    apply lookup_insert_eq. }
  rewrite Hk. unfold db_get in Hget. by rewrite Hget.
Qed.

End UpdateFacts.

Section StoreTheorems.
Context `{Ext : Externals}.
Implicit Types (c : controller) (d : doc).

Lemma refresh_cache force clock c :
  cache (refreshSearchIndices force clock c).2 = [].
Proof. reflexivity. Qed.

Lemma delete_true_cache store id hard now c c' :
  _delete store id hard now c = (Ok true, c') → cache c' = [].
Proof.
  unfold _delete. destruct (db_get c store id) as [original|]; [|done].
  destruct hard; simpl.
  - by intros [= <-].
  - unfold db_put. destruct (key_of _); [|done]. by intros [= <-].
Qed.

Lemma update_existing_cache store id patch inv now c :
  is_Some (db_get c store id) →
  ∃ c', _update store id patch inv now c = (Ok id, c') ∧ cache c' = [].
Proof.
  intros [original Hget].
  destruct (update_read_existing store id patch inv now c original Hget)
    as (modified & Hplan & Hid & _).
  unfold _update. rewrite Hplan.
  rewrite (update_write_commit store id original modified c Hid).
  - eexists. split; reflexivity.
  - unfold db_get in *. by rewrite Hget.
Qed.

End StoreTheorems.

(** ** Counting facts *)

Lemma add_count_add o a b :
  add_count (add_count o a) b = add_count o (a + b).
Proof.
  destruct a as [|a], b as [|b]; simpl; try done.
  - by rewrite Nat.add_0_r.
  - f_equal. lia.
Qed.

Lemma bump_lookup m key t :
  bump m key !! t = add_count (m !! t) (if decide (key = t) then 1 else 0).
Proof.
  unfold bump. rewrite lookup_insert. case_decide; simpl; by subst.
Qed.

Lemma fold_bump_lookup ks m t :
  NoDup ks →
  fold_left bump ks m !! t
  = add_count (m !! t) (if decide (t ∈ ks) then 1 else 0).
Proof.
  intros Hnd. revert m.
  induction Hnd as [|k ks Hk Hnd IH]; intros m; cbn [fold_left].
  - case_decide as Hin; [by apply elem_of_nil in Hin|done].
  - rewrite IH, bump_lookup, add_count_add. f_equal.
    destruct (decide (k = t)) as [->|Hne], (decide (t ∈ ks)) as [Hin|Hin].
    + done.
    + by rewrite decide_True by (apply elem_of_cons; by left).
    + by rewrite decide_True by (apply elem_of_cons; by right).
    + rewrite decide_False; [done|].
      by intros [?|?]%elem_of_cons.
Qed.

Lemma keys_NoDup {A} (m : gmap string A) : NoDup (keys m).
Proof. apply NoDup_fst_map_to_list. Qed.

Lemma elem_of_keys {A} (m : gmap string A) t : t ∈ keys m ↔ is_Some (m !! t).
Proof.
  unfold keys. rewrite list_elem_of_fmap. split.
  - intros ([k v] & -> & Hin). apply elem_of_map_to_list in Hin. eauto.
  - intros [v Hv]. exists (t, v). split; [done|].
    by apply elem_of_map_to_list.
Qed.

Lemma sumZ_cons x l : sumZ (x :: l) = x + sumZ l.
Proof. reflexivity. Qed.

Lemma sumZ_perm l1 l2 : l1 ≡ₚ l2 → sumZ l1 = sumZ l2.
Proof. induction 1; simpl; lia. Qed.

Lemma appear_perm field t l1 l2 :
  l1 ≡ₚ l2 → appear field t l1 = appear field t l2.
Proof. intros Hp. unfold appear. by rewrite Hp. Qed.

Lemma appear_cons field t d ds :
  appear field t (d :: ds)
  = ((if decide (t ∈ keys (freqs (d !! field))) then 1 else 0)
     + appear field t ds)%nat.
Proof.
  unfold appear. rewrite filter_cons.
  destruct (decide (t ∈ _)) as [Hin|Hin]; rewrite elem_of_keys in Hin.
  - by rewrite decide_True.
  - by rewrite decide_False.
Qed.

Section Scan.
Context `{Ext : Externals}.
Context (force : bool) (excludedKeys : list string) (clock : string → Z).

Lemma scan_step_word st0 k d :
  sc_wordAppeared (scan_step force excludedKeys clock st0 (k, d))
  = fold_left bump
      (keys (freqs (visited force excludedKeys (clock k) d
                      !! "keywordsFrequency")))
      (sc_wordAppeared st0).
Proof. reflexivity. Qed.

Lemma scan_step_tag st0 k d :
  sc_tagAppeared (scan_step force excludedKeys clock st0 (k, d))
  = fold_left bump
      (keys (freqs (visited force excludedKeys (clock k) d
                      !! "tagsFrequency")))
      (sc_tagAppeared st0).
Proof. reflexivity. Qed.

Lemma scan_step_docs st0 kv :
  sc_totalDocs (scan_step force excludedKeys clock st0 kv)
  = sc_totalDocs st0 + 1.
Proof. by destruct kv. Qed.

Lemma scan_step_length st0 k d :
  totalLength (scan_step force excludedKeys clock st0 (k, d))
  = totalLength st0
    + keywords_length (visited force excludedKeys (clock k) d).
Proof. reflexivity. Qed.

Lemma scan_step_lengthTag st0 k d :
  totalLengthTag (scan_step force excludedKeys clock st0 (k, d))
  = totalLengthTag st0
    + tags_length (visited force excludedKeys (clock k) d).
Proof. reflexivity. Qed.

Lemma scan_stats l st0 :
  let st := fold_left (scan_step force excludedKeys clock) l st0 in
  sc_totalDocs st = sc_totalDocs st0 + Z.of_nat (length l)
  ∧ totalLength st
    = totalLength st0
      + sumZ (keywords_length <$> seen force excludedKeys clock l)
  ∧ totalLengthTag st
    = totalLengthTag st0
      + sumZ (tags_length <$> seen force excludedKeys clock l)
  ∧ (∀ t, sc_wordAppeared st !! t
          = add_count (sc_wordAppeared st0 !! t)
              (appear "keywordsFrequency" t (seen force excludedKeys clock l)))
  ∧ (∀ t, sc_tagAppeared st !! t
          = add_count (sc_tagAppeared st0 !! t)
              (appear "tagsFrequency" t (seen force excludedKeys clock l))).
Proof.
  revert st0. induction l as [|[k d] l IH]; intros st0.
  - simpl. repeat split; try lia; done.
  - cbn [fold_left]. cbv zeta in IH |- *.
    destruct (IH (scan_step force excludedKeys clock st0 (k, d)))
      as (H1 & H2 & H3 & H4 & H5).
    unfold seen in *. rewrite fmap_cons.
    split; [|split; [|split; [|split]]].
    + rewrite H1, scan_step_docs, length_cons. lia.
    + rewrite H2, scan_step_length, fmap_cons, sumZ_cons. cbn [fst snd]. lia.
    + rewrite H3, scan_step_lengthTag, fmap_cons, sumZ_cons. cbn [fst snd]. lia.
    + intros t. rewrite H4, scan_step_word.
      rewrite fold_bump_lookup by apply keys_NoDup.
      rewrite add_count_add. f_equal. by rewrite appear_cons.
    + intros t. rewrite H5, scan_step_tag.
      rewrite fold_bump_lookup by apply keys_NoDup.
      rewrite add_count_add. f_equal. by rewrite appear_cons.
Qed.

Lemma scan_updated l st0 :
  updated (fold_left (scan_step force excludedKeys clock) l st0)
  = updated st0 ++ (filter (λ kv, needs_reindex force kv.2 = true) l).*1.
Proof.
  revert st0. induction l as [|[k d] l IH]; intros st0.
  - simpl. by rewrite app_nil_r.
  - cbn [fold_left]. rewrite IH, filter_cons. cbn [fst snd].
    change (updated (scan_step force excludedKeys clock st0 (k, d)))
      with (if needs_reindex force d then updated st0 ++ [k]
            else updated st0).
    destruct (needs_reindex force d).
    + rewrite decide_True by done. rewrite fmap_cons.
      by rewrite <- app_assoc.
    + by rewrite decide_False by done.
Qed.

Lemma scan_records l st0 :
  NoDup l.*1 →
  (∀ k d, (k, d) ∈ l → sc_records st0 !! k = Some d) →
  ∀ k,
    sc_records (fold_left (scan_step force excludedKeys clock) l st0) !! k
    = if decide (k ∈ l.*1)
      then visited force excludedKeys (clock k) <$> sc_records st0 !! k
      else sc_records st0 !! k.
Proof.
  revert st0. induction l as [|[k0 d0] l IH]; intros st0 Hnd Hin k.
  - simpl. done.
  - cbn [fold_left]. rewrite fmap_cons in Hnd |- *. cbn [fst] in Hnd |- *.
    apply NoDup_cons in Hnd as [Hk0 Hnd].
    set (st1 := scan_step force excludedKeys clock st0 (k0, d0)).
    assert (∀ k', k' ≠ k0 → sc_records st1 !! k' = sc_records st0 !! k')
      as Hother.
    { intros k' Hne. subst st1; simpl.
      destruct (needs_reindex force d0); [|done].
      by rewrite lookup_insert_ne. }
    assert (sc_records st1 !! k0
            = Some (visited force excludedKeys (clock k0) d0)) as Hk0'.
    { subst st1; simpl. unfold visited.
      destruct (needs_reindex force d0); [apply lookup_insert_eq|].
      apply Hin. apply elem_of_cons. by left. }
    rewrite IH; [|done|].
    + destruct (decide (k = k0)) as [->|Hne].
      * rewrite decide_False by done.
        rewrite decide_True by (apply elem_of_cons; by left).
        rewrite Hk0'. rewrite (Hin k0 d0) by (apply elem_of_cons; by left).
        done.
      * rewrite Hother by done.
        destruct (decide (k ∈ l.*1)).
        -- rewrite decide_True by (apply elem_of_cons; by right). done.
        -- rewrite decide_False; [done|].
           intros [?|?]%elem_of_cons; done.
    + intros k' d' Hin'. rewrite Hother.
      * apply Hin. apply elem_of_cons. by right.
      * intros ->. apply Hk0. apply list_elem_of_fmap. by exists (k0, d').
Qed.

Lemma post_fst l : (post force excludedKeys clock <$> l).*1 = l.*1.
Proof. rewrite <- list_fmap_compose. by apply list_fmap_ext. Qed.

Lemma post_snd l :
  (post force excludedKeys clock <$> l).*2
  = seen force excludedKeys clock l.
Proof. unfold seen. rewrite <- list_fmap_compose. by apply list_fmap_ext. Qed.

Lemma run_scan_records rs k :
  sc_records (run_scan force excludedKeys clock rs) !! k
  = visited force excludedKeys (clock k) <$> rs !! k.
Proof.
  unfold run_scan. rewrite scan_records.
  - simpl. case_decide as Hin; [done|].
    destruct (rs !! k) as [d|] eqn:Hk; [|done].
    exfalso. apply Hin. apply list_elem_of_fmap. exists (k, d).
    split; [done|]. by apply elem_of_map_to_list.
  - apply NoDup_fst_map_to_list.
  - intros k' d Hin. by apply elem_of_map_to_list.
Qed.

Lemma run_scan_records_perm rs :
  (map_to_list (sc_records (run_scan force excludedKeys clock rs))).*2
  ≡ₚ seen force excludedKeys clock (map_to_list rs).
Proof.
  assert (NoDup (post force excludedKeys clock <$> map_to_list rs).*1) as Hnd.
  { rewrite post_fst. apply NoDup_fst_map_to_list. }
  assert (sc_records (run_scan force excludedKeys clock rs)
          = list_to_map (post force excludedKeys clock <$> map_to_list rs)) as ->.
  { apply map_eq. intros k. rewrite run_scan_records.
    destruct (rs !! k) as [d|] eqn:Hk; simpl; symmetry.
    - apply elem_of_list_to_map; [done|].
      apply list_elem_of_fmap. exists (k, d). split; [done|].
      by apply elem_of_map_to_list.
    - apply not_elem_of_list_to_map. rewrite post_fst.
      intros ([k' d] & -> & Hin)%list_elem_of_fmap.
      apply elem_of_map_to_list in Hin. simpl in Hk. congruence. }
  rewrite map_to_list_to_map by done. by rewrite post_snd.
Qed.

Lemma run_scan_stats rs :
  let st := run_scan force excludedKeys clock rs in
  let ds := (map_to_list (sc_records st)).*2 in
  sc_totalDocs st = Z.of_nat (size rs)
  ∧ totalLength st = sumZ (keywords_length <$> ds)
  ∧ totalLengthTag st = sumZ (tags_length <$> ds)
  ∧ (∀ t, sc_wordAppeared st !! t
          = add_count None (appear "keywordsFrequency" t ds))
  ∧ (∀ t, sc_tagAppeared st !! t
          = add_count None (appear "tagsFrequency" t ds)).
Proof.
  cbv zeta.
  pose proof (run_scan_records_perm rs) as Hp.
  destruct (scan_stats (map_to_list rs) (scan_init rs))
    as (H1 & H2 & H3 & H4 & H5).
  fold (run_scan force excludedKeys clock rs) in H1, H2, H3, H4, H5.
  split; [|split; [|split; [|split]]].
  - rewrite H1. simpl. by rewrite length_map_to_list.
  - rewrite H2. simpl. apply sumZ_perm. by rewrite Hp.
  - rewrite H3. simpl. apply sumZ_perm. by rewrite Hp.
  - intros t. rewrite H4. simpl. rewrite lookup_empty.
    f_equal. symmetry. by apply appear_perm.
  - intros t. rewrite H5. simpl. rewrite lookup_empty.
    f_equal. symmetry. by apply appear_perm.
Qed.

Lemma run_scan_updated rs :
  updated (run_scan force excludedKeys clock rs)
  = (filter (λ kv, needs_reindex force kv.2 = true) (map_to_list rs)).*1.
Proof. unfold run_scan. by rewrite scan_updated. Qed.

End Scan.

Lemma filter_none {A} (P : A → Prop) `{∀ x, Decision (P x)} (l : list A) :
  Forall (λ x, ¬ P x) l → filter P l = [].
Proof.
  induction 1 as [|x l Hx _ IH]; [done|].
  by rewrite filter_cons_False.
Qed.

Section Freshness.
Context `{Ext : Externals}.
Implicit Types (c : controller) (d : doc).

Lemma bm25_of_ext st st' :
  sc_wordAppeared st = sc_wordAppeared st' →
  sc_tagAppeared st = sc_tagAppeared st' →
  totalLength st = totalLength st' →
  totalLengthTag st = totalLengthTag st' →
  sc_totalDocs st = sc_totalDocs st' →
  bm25_of st = bm25_of st'.
Proof. unfold bm25_of. by intros -> -> -> -> ->. Qed.

Lemma reindex_lookup excludedKeys now d k :
  k ∉ ["keywordsUpdatedTime"; "keywordsFrequency"; "keywords";
       "tagsFrequency"] →
  reindex excludedKeys now d !! k = d !! k.
Proof.
  intros Hk. unfold reindex. destruct (generateKeywords _) as [words freq].
  assert (k ≠ "keywordsUpdatedTime" ∧ k ≠ "keywordsFrequency"
          ∧ k ≠ "keywords" ∧ k ≠ "tagsFrequency") as (?&?&?&?).
  { repeat split; intros ->; apply Hk; compute_done. }
  by repeat (rewrite lookup_insert_ne by done).
Qed.

Lemma reindex_keywords excludedKeys now d :
  is_Some (reindex excludedKeys now d !! "keywords").
Proof.
  unfold reindex. destruct (generateKeywords _) as [words freq].
  rewrite lookup_insert_ne by done. rewrite lookup_insert_eq. eauto.
Qed.

Lemma reindex_keywordsUpdatedTime excludedKeys now d :
  reindex excludedKeys now d !! "keywordsUpdatedTime" = Some (VNum now).
Proof.
  unfold reindex. destruct (generateKeywords _) as [words freq].
  do 3 (rewrite lookup_insert_ne by done). apply lookup_insert_eq.
Qed.

(** A record the pass has visited is fresh, unless its [lastUpdate] is
    later than the time of the visit. *)
Lemma visited_fresh force excludedKeys now d :
  (needs_reindex force d = true →
   truthy (d !! "deleted") = false →
   ∀ lu, d !! "lastUpdate" = Some (VNum lu) → lu ≤ now) →
  needs_reindex false (visited force excludedKeys now d) = false.
Proof.
  intros Hclock. unfold visited.
  destruct (needs_reindex force d) eqn:Hneeds.
  - unfold needs_reindex. simpl.
    rewrite reindex_lookup by compute_done.
    destruct (truthy (d !! "deleted")) eqn:Hdel; [done|]. simpl.
    destruct (reindex_keywords excludedKeys now d) as [w ->].
    rewrite reindex_keywordsUpdatedTime.
    rewrite reindex_lookup by compute_done.
    destruct (d !! "lastUpdate") as [[| lu | | |]|] eqn:Hlu; try done.
    simpl. apply Z.ltb_ge. by apply Hclock.
  - unfold needs_reindex in *. apply orb_false_iff in Hneeds as [_ H].
    done.
Qed.

Lemma needs_reindex_spec force object :
  needs_reindex force object = true
  ↔ force = true
    ∨ (truthy (object !! "deleted") = false
       ∧ (object !! "keywords" = None
          ∨ object !! "keywordsUpdatedTime" = None
          ∨ ∃ kut lu,
              object !! "keywordsUpdatedTime" = Some kut
              ∧ object !! "lastUpdate" = Some lu
              ∧ js_lt kut lu = true)).
Proof.
  unfold needs_reindex. rewrite orb_true_iff, andb_true_iff, negb_true_iff.
  apply or_iff_compat_l, and_iff_compat_l.
  destruct (object !! "keywords") as [w|],
           (object !! "keywordsUpdatedTime") as [kut|],
           (object !! "lastUpdate") as [lu|]; naive_solver.
Qed.

(** A pass with [force = false] over records none of which is stale. *)
Lemma run_scan_fresh excludedKeys clock (rs : gmap string doc) :
  (∀ k d, rs !! k = Some d → needs_reindex false d = false) →
  let st := run_scan false excludedKeys clock rs in
  updated st = [] ∧ sc_records st = rs.
Proof.
  intros Hfresh. split.
  - rewrite run_scan_updated.
    rewrite filter_none; [done|].
    apply Forall_forall. intros [k d] Hin%elem_of_map_to_list. cbn [snd].
    by rewrite (Hfresh k d Hin).
  - apply map_eq. intros k. rewrite run_scan_records.
    destruct (rs !! k) as [d|] eqn:Hk; [|done]. simpl.
    unfold visited. by rewrite (Hfresh k d Hk).
Qed.

Lemma run_scan_stats_determined force force' excludedKeys excludedKeys'
    clock clock' (rs rs' : gmap string doc) :
  sc_records (run_scan force excludedKeys clock rs)
  = sc_records (run_scan force' excludedKeys' clock' rs') →
  size rs = size rs' →
  bm25_of (run_scan force excludedKeys clock rs)
  = bm25_of (run_scan force' excludedKeys' clock' rs').
Proof.
  intros Hrec Hsize.
  destruct (run_scan_stats force excludedKeys clock rs)
    as (H1 & H2 & H3 & H4 & H5).
  destruct (run_scan_stats force' excludedKeys' clock' rs')
    as (H1' & H2' & H3' & H4' & H5').
  apply bm25_of_ext.
  - apply map_eq. intros t. by rewrite H4, H4', Hrec.
  - apply map_eq. intros t. by rewrite H5, H5', Hrec.
  - by rewrite H2, H2', Hrec.
  - by rewrite H3, H3', Hrec.
  - by rewrite H1, H1', Hsize.
Qed.

End Freshness.

Section Passes.
Context `{Ext : Externals}.
Implicit Types (c : controller) (d : doc).

Lemma run_scan_size force excludedKeys clock (rs : gmap string doc) :
  size (sc_records (run_scan force excludedKeys clock rs)) = size rs.
Proof.
  rewrite <- !length_map_to_list.
  rewrite <- (length_fmap snd (map_to_list (sc_records _))).
  rewrite (run_scan_records_perm force excludedKeys clock rs).
  unfold seen. by rewrite length_fmap.
Qed.

(** A pass with [force = false] over a store that a pass has just
    indexed changes nothing. *)
Lemma buildIndices_fresh store excludedKeys clock c :
  db c !! store = Some (records c store) →
  (∀ k d, db_get c store k = Some d → needs_reindex false d = false) →
  general c !! ("bm25_" +:+ store)
  = Some (bm25_of (run_scan false excludedKeys clock (records c store))) →
  _buildIndices store false excludedKeys clock c = ([], c).
Proof.
  intros Hdb Hfresh Hbm. unfold _buildIndices.
  destruct (run_scan_fresh excludedKeys clock (records c store) Hfresh)
    as [Hup Hrec].
  rewrite Hup. f_equal.
  unfold _dump, set_records; simpl. rewrite Hrec.
  destruct c as [dbc gen ch]; simpl in *. f_equal; by apply insert_id.
Qed.

Lemma buildIndices_result store force excludedKeys clock clock' c :
  (∀ k d, db_get c store k = Some d →
     needs_reindex force d = true → truthy (d !! "deleted") = false →
     ∀ lu, d !! "lastUpdate" = Some (VNum lu) → lu ≤ clock k) →
  let st := run_scan force excludedKeys clock (records c store) in
  let c1 := (_buildIndices store force excludedKeys clock c).2 in
  (_buildIndices store force excludedKeys clock c).1 = updated st
  ∧ db c1 = <[store := sc_records st]> (db c)
  ∧ general c1 = <["bm25_" +:+ store := bm25_of st]> (general c)
  ∧ cache c1 = cache c
  ∧ (∀ k d, sc_records st !! k = Some d → needs_reindex false d = false)
  ∧ bm25_of st = bm25_of (run_scan false excludedKeys clock' (sc_records st)).
Proof.
  intros Hclock. cbv zeta.
  split; [done|]. split; [done|]. split; [done|]. split; [done|].
  assert (∀ k d,
    sc_records (run_scan force excludedKeys clock (records c store)) !! k
    = Some d → needs_reindex false d = false) as Hfresh.
  { intros k d'. rewrite run_scan_records.
    intros (d & Hd & ->)%fmap_Some.
    apply visited_fresh. intros. by eapply Hclock. }
  split; [done|].
  apply run_scan_stats_determined.
  - symmetry. by apply run_scan_fresh.
  - by rewrite run_scan_size.
Qed.

End Passes.

Section Refresh.
Context `{Ext : Externals}.
Implicit Types (c : controller) (d : doc).

Lemma records_lookup c store rs :
  db c !! store = Some rs → records c store = rs.
Proof. unfold records. by intros ->. Qed.

End Refresh.

(** ** Ranking facts *)

Lemma insert_desc_perm x l : insert_desc x l ≡ₚ x :: l.
Proof.
  induction l as [|y l IH]; simpl; [done|].
  destruct (Rlt_dec _ _); [|done].
  rewrite IH. apply perm_swap.
Qed.

Lemma sort_desc_perm l : sort_desc l ≡ₚ l.
Proof.
  induction l as [|x l IH]; simpl; [done|].
  rewrite insert_desc_perm. by rewrite IH.
Qed.

Lemma score_fold_lookup (sc : doc → R) (threshold : R)
    (l : list (string * doc)) (m0 : gmap string R) (k : string) :
  NoDup l.*1 →
  let m :=
    fold_left
      (λ (scores : gmap string R) (kv : string * doc),
         if Rgt_dec (sc kv.2) threshold then <[kv.1 := sc kv.2]> scores
         else scores) l m0 in
  (∀ d, (k, d) ∈ l →
        m !! k = if Rgt_dec (sc d) threshold then Some (sc d) else m0 !! k)
  ∧ (k ∉ l.*1 → m !! k = m0 !! k).
Proof.
  revert m0. induction l as [|[k0 d0] l IH]; intros m0 Hnd; cbv zeta.
  - split; [by intros d ?%elem_of_nil|done].
  - rewrite fmap_cons in Hnd |- *. cbn [fst] in Hnd |- *.
    apply NoDup_cons in Hnd as [Hk0 Hnd]. cbn [fold_left fst snd].
    set (m1 := if Rgt_dec (sc d0) threshold then <[k0 := sc d0]> m0 else m0).
    destruct (IH m1 Hnd) as [IH1 IH2]. split.
    + intros d [Heq|Hin]%elem_of_cons.
      * injection Heq as -> ->. rewrite IH2 by done. subst m1.
        destruct (Rgt_dec _ _); [apply lookup_insert_eq|done].
      * rewrite (IH1 d Hin).
        assert (k ≠ k0) as Hne.
        { intros ->. apply Hk0. apply list_elem_of_fmap. by exists (k0, d). }
        destruct (Rgt_dec (sc d) threshold); [done|]. subst m1.
        destruct (Rgt_dec _ _); [|done]. by rewrite lookup_insert_ne.
    + intros Hnot. rewrite IH2.
      * subst m1. destruct (Rgt_dec _ _); [|done].
        rewrite lookup_insert_ne; [done|].
        intros ->. apply Hnot. apply elem_of_cons. by left.
      * intros ?. apply Hnot. apply elem_of_cons. by right.
Qed.

Section Ranking.
Context `{Ext : Externals}.
Implicit Types (c : controller) (d : doc).

Lemma score_table_lookup store query useTag k1 b threshold c id :
  score_table store query useTag k1 b threshold c !! id
  = db_get c store id ≫= λ d,
      if Rgt_dec (scorer store query useTag k1 b c d) threshold
      then Some (scorer store query useTag k1 b c d) else None.
Proof.
  unfold score_table, db_get.
  destruct (score_fold_lookup (scorer store query useTag k1 b c) threshold
              (map_to_list (records c store)) ∅ id) as [H1 H2].
  { apply NoDup_fst_map_to_list. }
  cbv zeta in H1, H2.
  destruct (records c store !! id) as [d|] eqn:Hid; simpl.
  - apply H1. by apply elem_of_map_to_list.
  - rewrite <- (lookup_empty (M := gmap string) (A := R) id). apply H2.
    intros ([k d] & -> & Hin%elem_of_map_to_list)%list_elem_of_fmap.
    simpl in Hid. congruence.
Qed.

Lemma buildScore_ranking key store query useTag k1 b threshold c :
  let ranked :=
    (_buildScore key store query useTag k1 b threshold c).1 in
  NoDup ranked.*1
  ∧ ∀ id s,
      (id, s) ∈ ranked
      ↔ ∃ d, db_get c store id = Some d
             ∧ s = scorer store query useTag k1 b c d
             ∧ (s > threshold)%R.
Proof.
  cbv zeta. unfold _buildScore. cbn [fst]. split.
  - rewrite sort_desc_perm. apply NoDup_fst_map_to_list.
  - intros id s. rewrite sort_desc_perm, elem_of_map_to_list.
    rewrite score_table_lookup.
    destruct (db_get c store id) as [d|]; simpl.
    + destruct (Rgt_dec _ _) as [Hgt|Hle]; split.
      * intros [= <-]. eauto.
      * by intros (? & [= <-] & -> & _).
      * done.
      * intros (? & [= <-] & -> & ?). done.
    + split; [done|]. by intros (? & ? & _).
Qed.

End Ranking.

Lemma fold_insert_const_lookup (v : Z) (l : list string)
    (m0 : gmap string Z) (t : string) :
  fold_left (λ m tag, <[tag := v]> m) l m0 !! t
  = if decide (t ∈ l) then Some v else m0 !! t.
Proof.
  revert m0. induction l as [|x l IH]; intros m0; cbn [fold_left].
  - by rewrite decide_False by apply not_elem_of_nil.
  - rewrite IH. destruct (decide (t ∈ l)) as [Hin|Hin].
    + by rewrite decide_True by (apply elem_of_cons; by right).
    + rewrite lookup_insert. destruct (decide (x = t)) as [->|Hne].
      * by rewrite decide_True by (apply elem_of_cons; by left).
      * rewrite decide_False; [done|]. by intros [?|?]%elem_of_cons.
Qed.

Section Reindex.
Context `{Ext : Externals}.
Implicit Types (c : controller) (d : doc).

Lemma reindex_tagsFrequency excludedKeys now d t :
  freqs (reindex excludedKeys now d !! "tagsFrequency") !! t
  = if decide (t ∈ strs (d !! "categories")) then Some 4
    else if decide (t ∈ strs (d !! "tags")) then Some 1
    else None.
Proof.
  unfold reindex. destruct (generateKeywords _) as [words freq].
  rewrite lookup_insert_eq. cbn [freqs].
  rewrite !fold_insert_const_lookup.
  repeat (rewrite lookup_insert_ne by done).
  by rewrite lookup_empty.
Qed.

Lemma reindex_keywordsFrequency excludedKeys now d :
  freqs (reindex excludedKeys now d !! "keywordsFrequency")
  = (generateKeywords (indexed_values excludedKeys d)).2.
Proof.
  unfold reindex. destruct (generateKeywords _) as [words freq].
  do 2 (rewrite lookup_insert_ne by done). by rewrite lookup_insert_eq.
Qed.

Lemma records_mk_insert_ne store store' rs (m : gmap string (gmap string doc))
    (g : gmap string Bm25Cache) (h : lru) :
  store ≠ store' →
  records {| db := <[store := rs]> m; general := g; cache := h |} store'
  = default ∅ (m !! store').
Proof. intros Hne. unfold records. cbn [db]. by rewrite lookup_insert_ne. Qed.

Lemma refresh_spec force clock c :
  let stQ := run_scan force ["id"; "keywords"] (clock STORE_KEY_QUESTIONS)
               (records c STORE_KEY_QUESTIONS) in
  let stP := run_scan force ["id"; "questions"; "keywords"]
               (clock STORE_KEY_PAPERS) (records c STORE_KEY_PAPERS) in
  refreshSearchIndices force clock c
  = (Z.of_nat (length (updated stQ)) + Z.of_nat (length (updated stP)),
     {| db := <[STORE_KEY_PAPERS := sc_records stP]>
                (<[STORE_KEY_QUESTIONS := sc_records stQ]> (db c));
        general := <["bm25_papers" := bm25_of stP]>
                     (<["bm25_questions" := bm25_of stQ]> (general c));
        cache := [] |}).
Proof.
  cbv zeta. unfold refreshSearchIndices, _buildIndices.
  unfold _dump, set_records, clear_cache, lru_clear.
  cbn [fst snd db general cache].
  rewrite !records_mk_insert_ne by done. reflexivity.
Qed.

End Reindex.

Lemma length_filter_fmap {A B} (f : A → B) (P : B → Prop) (Q : A → Prop)
    `{!∀ y, Decision (P y), !∀ x, Decision (Q x)} (l : list A) :
  (∀ x, P (f x) ↔ Q x) →
  length (filter P (f <$> l)) = length (filter Q l).
Proof.
  intros HPQ. induction l as [|x l IH]; [done|].
  rewrite fmap_cons, !filter_cons.
  destruct (decide (Q x)) as [HQ|HQ].
  - rewrite decide_True by by apply HPQ. simpl. by rewrite IH.
  - rewrite decide_False by by rewrite HPQ. done.
Qed.

Lemma default_add_count n : default 0 (add_count None n) = Z.of_nat n.
Proof. by destruct n. Qed.

Section Counts.
Context `{Ext : Externals}.
Implicit Types (c : controller) (d : doc).

Lemma bm25_of_counts st :
  wordAppeared (bm25_of st) = sc_wordAppeared st
  ∧ tagAppeared (bm25_of st) = sc_tagAppeared st
  ∧ totalDocs (bm25_of st) = sc_totalDocs st
  ∧ idf (bm25_of st) = idf_of (sc_totalDocs st) <$> sc_wordAppeared st
  ∧ idfTag (bm25_of st) = idf_of (sc_totalDocs st) <$> sc_tagAppeared st.
Proof.
  unfold bm25_of.
  destruct (buildTrieTree (keys (sc_wordAppeared st))),
           (buildTrieTree (keys (sc_tagAppeared st))). done.
Qed.

(** What a forced pass counts, in terms of the records it started from. *)
Lemma forced_scan_counts excludedKeys clock (rs : gmap string doc) :
  let st := run_scan true excludedKeys clock rs in
  let stored := (map_to_list rs).*2 in
  sc_totalDocs st = Z.of_nat (length stored)
  ∧ (∀ t, default 0 (sc_tagAppeared st !! t)
          = Z.of_nat (length (filter
              (λ d, t ∈ strs (d !! "tags") ++ strs (d !! "categories"))
              stored)))
  ∧ (∀ t, default 0 (sc_wordAppeared st !! t)
          = Z.of_nat (length (filter
              (λ d, is_Some
                      ((generateKeywords (indexed_values excludedKeys d)).2
                         !! t))
              stored))).
Proof.
  cbv zeta.
  destruct (scan_stats true excludedKeys clock (map_to_list rs)
              (scan_init rs)) as (H1 & _ & _ & H4 & H5).
  fold (run_scan true excludedKeys clock rs) in H1, H4, H5.
  split; [|split].
  - rewrite H1. simpl. by rewrite length_fmap.
  - intros t. rewrite H5. simpl. rewrite lookup_empty, default_add_count.
    f_equal. unfold appear, seen.
    rewrite (length_filter_fmap snd
      (λ d, t ∈ strs (d !! "tags") ++ strs (d !! "categories"))
      (λ kv : string * doc,
         t ∈ strs (kv.2 !! "tags") ++ strs (kv.2 !! "categories")))
      by done.
    apply length_filter_fmap. intros [k d]. cbn [fst snd].
    unfold visited. cbn [needs_reindex orb].
    rewrite reindex_tagsFrequency, elem_of_app.
    destruct (decide (t ∈ strs (d !! "categories"))),
             (decide (t ∈ strs (d !! "tags"))); split; try tauto; eauto.
    by intros []%is_Some_None.
  - intros t. rewrite H4. simpl. rewrite lookup_empty, default_add_count.
    f_equal. unfold appear, seen.
    rewrite (length_filter_fmap snd
      (λ d, is_Some
              ((generateKeywords (indexed_values excludedKeys d)).2 !! t))
      (λ kv : string * doc,
         is_Some
           ((generateKeywords (indexed_values excludedKeys kv.2)).2 !! t)))
      by done.
    apply length_filter_fmap. intros [k d]. cbn [fst snd].
    unfold visited. cbn [needs_reindex orb].
    by rewrite reindex_keywordsFrequency.
Qed.

End Counts.

(** ** Real-number facts *)

Lemma ln_nonpos (x : R) : (0 < x)%R → (x <= 1)%R → (ln x <= 0)%R.
Proof.
  intros Hpos [Hlt | ->].
  - left. rewrite <- ln_1. by apply ln_increasing.
  - right. apply ln_1.
Qed.

Lemma idf_of_floor N n : (1e-8 <= idf_of N n)%R.
Proof. apply Rmax_l. Qed.

Lemma idf_of_every_document (n : nat) :
  idf_of (Z.of_nat n) (Z.of_nat n) = 1e-8%R.
Proof.
  unfold idf_of. apply Rmax_left.
  assert (0 <= IZR (Z.of_nat n))%R as Hn by (apply IZR_le; lia).
  transitivity 0%R; [|lra].
  apply ln_nonpos.
  - apply Rdiv_lt_0_compat; lra.
  - apply (Rmult_le_reg_r (IZR (Z.of_nat n) + 0.5)); [lra|].
    unfold Rdiv. rewrite Rmult_assoc, Rinv_l by lra. lra.
Qed.

(** ** Sums of per-term contributions *)

Lemma fold_sum_shift (f : string → R) (l : list string) (a : R) :
  fold_left (λ s q, (s + f q)%R) l a
  = (a + fold_left (λ s q, (s + f q)%R) l 0)%R.
Proof.
  revert a. induction l as [|q l IH]; intros a; cbn [fold_left].
  - lra.
  - rewrite (IH (a + f q)%R), (IH (0 + f q)%R). lra.
Qed.

Lemma fold_sum_le (f g : string → R) (l : list string) :
  (∀ q, q ∈ l → (g q <= f q)%R) →
  (fold_left (λ s q, (s + g q)%R) l 0
   <= fold_left (λ s q, (s + f q)%R) l 0)%R.
Proof.
  induction l as [|q l IH]; intros Hle; cbn [fold_left]; [lra|].
  rewrite (fold_sum_shift f), (fold_sum_shift g).
  assert (g q <= f q)%R by (apply Hle, elem_of_cons; by left).
  assert (fold_left (λ s q, (s + g q)%R) l 0
          <= fold_left (λ s q, (s + f q)%R) l 0)%R.
  { apply IH. intros q' Hq'. apply Hle, elem_of_cons. by right. }
  lra.
Qed.

Lemma fold_sum_lt (f g : string → R) (l : list string) (t : string) :
  t ∈ l →
  (g t < f t)%R →
  (∀ q, q ∈ l → (g q <= f q)%R) →
  (fold_left (λ s q, (s + g q)%R) l 0
   < fold_left (λ s q, (s + f q)%R) l 0)%R.
Proof.
  induction l as [|q l IH]; intros Hin Hlt Hle; [by apply elem_of_nil in Hin|].
  cbn [fold_left]. rewrite (fold_sum_shift f), (fold_sum_shift g).
  assert (g q <= f q)%R by (apply Hle, elem_of_cons; by left).
  assert (∀ q', q' ∈ l → (g q' <= f q')%R) as Hle'.
  { intros q' Hq'. apply Hle, elem_of_cons. by right. }
  pose proof (fold_sum_le f g l Hle').
  apply elem_of_cons in Hin as [->|Hin].
  - lra.
  - specialize (IH Hin Hlt Hle'). lra.
Qed.

(** The length normaliser of BM25 is positive. *)
Lemma bm25_norm_pos (k1 b dl l : R) :
  (0 < k1)%R → (0 <= b <= 1)%R → (1 <= dl)%R → (0 < l)%R →
  (0 < k1 * (1 - b + b * dl / l))%R.
Proof.
  intros Hk1 [Hb0 Hb1] Hdl Hl.
  apply Rmult_lt_0_compat; [done|].
  assert (0 < dl / l)%R as Hq by (apply Rdiv_lt_0_compat; lra).
  unfold Rdiv in *. rewrite Rmult_assoc.
  destruct Hb0 as [Hb0| <-]; [|lra].
  assert (0 < b * (dl * / l))%R by (by apply Rmult_lt_0_compat).
  lra.
Qed.

Lemma weight_ratio (w k1 K : R) :
  (0 < w)%R → (0 < k1)%R → (0 < K)%R →
  (w * (1 * (k1 + 1)) / (1 + K) < w * (4 * (k1 + 1)) / (4 + K))%R.
Proof.
  intros Hw Hk1 HK.
  assert ((w * (1 * (k1 + 1)) / (1 + K)
           = w * (k1 + 1) * (/ (1 + K)))%R) as -> by (unfold Rdiv; ring).
  assert ((w * (4 * (k1 + 1)) / (4 + K)
           = w * (k1 + 1) * (4 * / (4 + K)))%R) as -> by (unfold Rdiv; ring).
  apply Rmult_lt_compat_l.
  - apply Rmult_lt_0_compat; lra.
  - apply (Rmult_lt_reg_r ((1 + K) * (4 + K)));
      [apply Rmult_lt_0_compat; lra|].
    assert ((/ (1 + K) * ((1 + K) * (4 + K)) = 4 + K)%R) as ->
      by (field; lra).
    assert ((4 * / (4 + K) * ((1 + K) * (4 + K)) = 4 * (1 + K))%R) as ->
      by (field; lra).
    lra.
Qed.

(** The contribution of a term grows with its stored frequency: 4 beats 1. *)
Lemma localTerm_weight (_idf : gmap string R) (fA fB : gmap string Z)
    (k1 b dl l : R) (t : string) :
  (0 < default 0 (_idf !! t))%R →
  (0 < k1)%R → (0 <= b <= 1)%R → (1 <= dl)%R → (0 < l)%R →
  fA !! t = Some 4 → fB !! t = Some 1 →
  (localTerm _idf fB k1 b dl l t < localTerm _idf fA k1 b dl l t)%R.
Proof.
  intros Hidf Hk1 Hb Hdl Hl HA HB. unfold localTerm. rewrite HA, HB.
  apply weight_ratio; [done|done|]. by apply bm25_norm_pos.
Qed.

Section Weight.
Context `{Ext : Externals}.
Implicit Types (c : controller) (d : doc).

Lemma docLength_tag_pos d : (1 <= IZR (docLength true d))%R.
Proof.
  apply IZR_le. unfold docLength.
  destruct (Z.eqb_spec (Z.of_nat (length (strs (d !! "tags")
                                          ++ strs (d !! "categories")))) 0);
    lia.
Qed.

End Weight.

(** ** Cache and paging facts *)

Lemma lru_lookup_head k v (q : lru) : lru_lookup k ((k, v) :: q) = Some v.
Proof. simpl. by rewrite decide_True. Qed.

Lemma lru_lookup_set (q : lru) k v : lru_lookup k (lru_set q k v) = Some v.
Proof. unfold lru_set, maxSize. cbn [take]. apply lru_lookup_head. Qed.

Lemma ceil_div_spec (a b : Z) :
  0 < b → b * (ceil_div a b - 1) < a ≤ b * ceil_div a b.
Proof.
  intros Hb. unfold ceil_div.
  pose proof (Z.div_mod (- a) b ltac:(lia)) as Hdm.
  pose proof (Z.mod_pos_bound (- a) b Hb) as Hmod.
  nia.
Qed.

Lemma slice_lookup {A} (l : list A) (start n : nat) (x : A) :
  x ∈ take n (drop start l) →
  ∃ i, (i < n)%nat ∧ l !! (start + i)%nat = Some x.
Proof.
  intros (i & Hi)%list_elem_of_lookup.
  apply lookup_take_Some in Hi as [Hi Hlt].
  rewrite lookup_drop in Hi. eauto.
Qed.

Lemma slices_disjoint {A} (l : list A) (n p q : nat) (x : A) :
  NoDup l →
  x ∈ take n (drop (p * n) l) →
  x ∈ take n (drop (q * n) l) →
  p = q.
Proof.
  intros Hnd (i & Hi & Hx)%slice_lookup (j & Hj & Hy)%slice_lookup.
  pose proof (NoDup_lookup _ _ _ _ Hnd Hx Hy). nia.
Qed.

Lemma omap_ext_all {A B} (f g : A → option B) (l : list A) :
  (∀ x, f x = g x) → omap f l = omap g l.
Proof.
  intros Hfg. induction l as [|x l IH]; [done|].
  cbn [omap list_omap]. fold (@omap list _ A B). by rewrite Hfg, IH.
Qed.

Section Search.
Context `{Ext : Externals}.
Implicit Types (c : controller) (d : doc).

Lemma search_spec store query keywords useTag count page k1 b threshold c :
  let key := CacheKey store keywords useTag k1 b threshold in
  let ranked := served store keywords useTag k1 b threshold c in
  let r := _search store query keywords useTag count page k1 b threshold c in
  let count := Z.max (default 1 count) 1 in
  let page := Z.max (default 0 page) 0 in
  db r.2 = db c
  ∧ general r.2 = general c
  ∧ lru_lookup key (cache r.2) = Some ranked
  ∧ result r.1
    = omap (fetch store (Some ranked) c)
        (seq (Z.to_nat (page * count)) (Z.to_nat count))
  ∧ totalPages r.1 = ceil_div (Z.of_nat (length ranked)) count.
Proof.
  cbv zeta. unfold _search, served, lru_has, lru_get.
  destruct (lru_lookup _ (cache c)) as [v|] eqn:Hlook; cbn [fst snd].
  - split; [done|]. split; [done|].
    split; [apply lru_lookup_head|]. done.
  - unfold _buildScore. cbn [fst snd db general cache].
    split; [done|]. split; [done|].
    split; [apply lru_lookup_set|]. done.
Qed.

(** The records of a slice of a ranked list, as the paging loop returns
    them. *)
Lemma fetch_slice store (ranked : ranking) c (start n : nat) :
  db_get c store "" = None →
  omap (fetch store (Some ranked) c) (seq start n)
  = omap (λ e, (λ d, sanitizeIndices d true) <$> db_get c store e.1)
      (take n (drop start ranked)).
Proof.
  intros Hempty. revert start. induction n as [|n IH]; intros start.
  - done.
  - cbn [seq omap list_omap]. fold (@omap list _ nat doc).
    rewrite IH. unfold fetch at 1.
    destruct (ranked !! start) as [e|] eqn:He.
    + rewrite (drop_S _ _ _ He). cbn [take omap list_omap].
      simpl. rewrite He. simpl. done.
    + simpl. rewrite He. simpl. rewrite Hempty. simpl.
      apply lookup_ge_None in He.
      rewrite !drop_ge by lia. by rewrite !take_nil.
Qed.

End Search.

Section RefreshFacts.
Context `{Ext : Externals}.

Lemma refresh_count force clock c :
  (refreshSearchIndices force clock c).1
  = Z.of_nat (length (updated
      (run_scan force ["id"; "keywords"] (clock STORE_KEY_QUESTIONS)
         (records c STORE_KEY_QUESTIONS))))
    + Z.of_nat (length (updated
        (run_scan force ["id"; "questions"; "keywords"]
           (clock STORE_KEY_PAPERS) (records c STORE_KEY_PAPERS)))).
Proof. by rewrite refresh_spec. Qed.

Lemma refresh_records_papers force clock c :
  records (refreshSearchIndices force clock c).2 STORE_KEY_PAPERS
  = sc_records
      (run_scan force ["id"; "questions"; "keywords"]
         (clock STORE_KEY_PAPERS) (records c STORE_KEY_PAPERS)).
Proof.
  rewrite refresh_spec. unfold records. cbn [snd db].
  by rewrite lookup_insert_eq.
Qed.

Lemma refresh_records_questions force clock c :
  records (refreshSearchIndices force clock c).2 STORE_KEY_QUESTIONS
  = sc_records
      (run_scan force ["id"; "keywords"] (clock STORE_KEY_QUESTIONS)
         (records c STORE_KEY_QUESTIONS)).
Proof.
  rewrite refresh_spec. unfold records. cbn [snd db].
  rewrite lookup_insert_ne by done. by rewrite lookup_insert_eq.
Qed.

Lemma refresh_load_papers force clock c :
  _load "bm25_papers" (refreshSearchIndices force clock c).2
  = Some (bm25_of
      (run_scan force ["id"; "questions"; "keywords"]
         (clock STORE_KEY_PAPERS) (records c STORE_KEY_PAPERS))).
Proof.
  rewrite refresh_spec. unfold _load. cbn [snd general].
  by rewrite lookup_insert_eq.
Qed.

(** An empty query ranks nothing. *)
Lemma ranking_nil_query key store useTag k1 b threshold c :
  (0 <= threshold)%R →
  (_buildScore key store [] useTag k1 b threshold c).1 = [].
Proof.
  intros Hthr. unfold _buildScore. cbn [fst].
  assert (score_table store [] useTag k1 b threshold c = ∅) as ->.
  { apply map_eq. intros id. rewrite score_table_lookup, lookup_empty.
    destruct (db_get c store id) as [d|]; [|done]. simpl.
    change (scorer store [] useTag k1 b c d) with 0%R.
    destruct (Rgt_dec 0 threshold); [lra|done]. }
  by rewrite map_to_list_empty.
Qed.

End RefreshFacts.

Section TagSpaceFacts.
Context `{Ext : Externals}.

Lemma bm25_of_tag_space st :
  idfTag (bm25_of st) = idf_of (sc_totalDocs st) <$> sc_tagAppeared st
  ∧ averageDocLengthTag (bm25_of st)
    = (IZR (totalLengthTag st)
       / IZR (if sc_totalDocs st =? 0 then 1 else sc_totalDocs st))%R
  ∧ trieTags (bm25_of st) = (buildTrieTree (keys (sc_tagAppeared st))).1
  ∧ trieSizeTags (bm25_of st)
    = (buildTrieTree (keys (sc_tagAppeared st))).2.
Proof.
  unfold bm25_of.
  destruct (buildTrieTree (keys (sc_wordAppeared st))),
           (buildTrieTree (keys (sc_tagAppeared st))). done.
Qed.

Lemma scorer_tag_space store query k1 b c bm d :
  _load ("bm25_" +:+ store) c = Some bm →
  scorer store query true k1 b c d
  = score_of (idfTag bm) (averageDocLengthTag bm) true k1 b
      (expand (loadTrieTree (trieTags bm) (trieSizeTags bm)) query) d.
Proof.
  intros Hload. unfold scorer, expanded_query. by rewrite Hload.
Qed.

End TagSpaceFacts.

(** * The claims *)

Section Claims.
Context `{Ext : Externals}.
Implicit Types (c : controller) (d : doc).

(** C1 (amended).  For an existing record, [_update] computes the patched
    copy ([id] set to the argument, [lastUpdate] set to the clock, every
    other field as [applyPatch] left it, the derived keyword fields
    removed when asked), then re-reads the record inside the write
    transaction and compares its [lastUpdate] with the one of the record
    it patched.  If they differ the call throws [DataModified] and the
    state is the one it found; if they are equal the patched copy is
    stored under [id] and no other record of the store changes.  Of two
    updates that read the same record, the one that writes first commits
    and, provided the [lastUpdate] it writes differs from the one both
    read, the other throws [DataModified]. *)
Theorem update_optimistic_lock store id patchA invA nowA c0 original :
  db_get c0 store id = Some original →
  ∃ modified,
    _update_read store id patchA invA nowA c0 = PlanCommit original modified
    ∧ modified !! "id" = Some (VStr id)
    ∧ modified !! "lastUpdate" = Some (VNum nowA)
    ∧ (∀ k, k ∉ ["id"; "lastUpdate"; "keywords"; "keywordsFrequency";
                 "tagsFrequency"; "keywordsUpdatedTime"] →
            modified !! k = applyPatch original patchA !! k)
    ∧ (∀ c1,
         db_get c1 store id ≫= (.!! "lastUpdate")
           ≠ original !! "lastUpdate" →
         _update_write store id (PlanCommit original modified) c1
         = (Throw DataModified, c1))
    ∧ (∀ c1,
         db_get c1 store id ≫= (.!! "lastUpdate")
           = original !! "lastUpdate" →
         ∃ c2,
           _update_write store id (PlanCommit original modified) c1
           = (Ok id, c2)
           ∧ db_get c2 store id = Some modified
           ∧ ∀ id', id' ≠ id → db_get c2 store id' = db_get c1 store id')
    ∧ (original !! "lastUpdate" ≠ Some (VNum nowA) →
       ∀ patchB invB nowB,
       ∃ c1,
         _update_write store id (PlanCommit original modified) c0
         = (Ok id, c1)
         ∧ _update_write store id
             (_update_read store id patchB invB nowB c0) c1
           = (Throw DataModified, c1)).
Proof.
  intros Hget.
  destruct (update_read_existing store id patchA invA nowA c0 original Hget)
    as (modified & Hplan & Hid & Hlu).
  exists modified. split; [done|]. split; [done|]. split; [done|].
  assert (∀ c1,
    db_get c1 store id ≫= (.!! "lastUpdate") = original !! "lastUpdate" →
    ∃ c2,
      _update_write store id (PlanCommit original modified) c1 = (Ok id, c2)
      ∧ db_get c2 store id = Some modified
      ∧ ∀ id', id' ≠ id → db_get c2 store id' = db_get c1 store id')
    as Hcommit.
  { intros c1 Heq. eexists. split; [by apply update_write_commit|].
    unfold clear_cache, db_get, records; simpl.
    rewrite lookup_insert_eq; simpl. split; [apply lookup_insert_eq|].
    intros id' Hne. by rewrite lookup_insert_ne. }
  split; [|split; [|split; [done|]]].
  - intros k Hk. unfold _update_read in Hplan. rewrite Hget in Hplan.
    injection Hplan as <-.
    assert (k ≠ "id" ∧ k ≠ "lastUpdate" ∧ k ≠ "keywords"
            ∧ k ≠ "keywordsFrequency" ∧ k ≠ "tagsFrequency"
            ∧ k ≠ "keywordsUpdatedTime") as (?&?&?&?&?&?).
    { repeat split; intros ->; apply Hk; set_solver. }
    destruct invA; simpl;
      repeat (rewrite lookup_delete_ne by done);
      by repeat (rewrite lookup_insert_ne by done).
  - intros c1 Hne. by apply update_write_conflict.
  - intros Hfresh patchB invB nowB.
    destruct (Hcommit c0) as (c1 & Hw & Hstored & _).
    { unfold db_get in *. by rewrite Hget. }
    exists c1. split; [done|].
    destruct (update_read_existing store id patchB invB nowB c0 original Hget)
      as (modifiedB & HplanB & _ & _).
    rewrite HplanB. apply update_write_conflict.
    rewrite Hstored; simpl. rewrite Hlu. congruence.
Qed.





(** C6 (amended).  A pass re-indexes a record exactly when [force] is set,
    or the record is not soft-deleted and [keywords] or
    [keywordsUpdatedTime] is absent or [keywordsUpdatedTime < lastUpdate].
    If no live record that the first call re-indexes has a [lastUpdate]
    later than the clock at its visit, a call with [force = false] right
    after it returns 0 and leaves the whole state (records, BM25 caches,
    score cache) as the first call left it. *)
Theorem refresh_idempotent force clock1 clock2 c :
  (∀ store k d lu,
     store ∈ [STORE_KEY_QUESTIONS; STORE_KEY_PAPERS] →
     db_get c store k = Some d →
     needs_reindex force d = true →
     truthy (d !! "deleted") = false →
     d !! "lastUpdate" = Some (VNum lu) →
     lu ≤ clock1 store k) →
  let c1 := (refreshSearchIndices force clock1 c).2 in
  (∀ f object,
     needs_reindex f object = true
     ↔ f = true
       ∨ (truthy (object !! "deleted") = false
          ∧ (object !! "keywords" = None
             ∨ object !! "keywordsUpdatedTime" = None
             ∨ ∃ kut lu,
                 object !! "keywordsUpdatedTime" = Some kut
                 ∧ object !! "lastUpdate" = Some lu
                 ∧ js_lt kut lu = true)))
  ∧ (∀ k,
       db_get c1 STORE_KEY_QUESTIONS k
       = (λ d, if needs_reindex force d
               then reindex ["id"; "keywords"]
                      (clock1 STORE_KEY_QUESTIONS k) d
               else d) <$> db_get c STORE_KEY_QUESTIONS k)
  ∧ (∀ k,
       db_get c1 STORE_KEY_PAPERS k
       = (λ d, if needs_reindex force d
               then reindex ["id"; "questions"; "keywords"]
                      (clock1 STORE_KEY_PAPERS k) d
               else d) <$> db_get c STORE_KEY_PAPERS k)
  ∧ refreshSearchIndices false clock2 c1 = (0, c1).
Proof.
  intros Hclock. cbv zeta.
  split; [intros; apply needs_reindex_spec|].
  unfold refreshSearchIndices.
  set (exQ := ["id"; "keywords"]).
  set (exP := ["id"; "questions"; "keywords"]).
  destruct (buildIndices_result STORE_KEY_QUESTIONS force exQ
              (clock1 STORE_KEY_QUESTIONS) (clock2 STORE_KEY_QUESTIONS) c)
    as (_ & HdbQ & HgenQ & HcacheQ & HfreshQ & HbmQ).
  { intros k d ????. eapply Hclock; eauto. compute_done. }
  destruct (_buildIndices STORE_KEY_QUESTIONS force exQ _ c)
    as [uQ cQ] eqn:HQ.
  cbn [snd] in HdbQ, HgenQ, HcacheQ.
  assert (records cQ STORE_KEY_PAPERS = records c STORE_KEY_PAPERS) as HrecP.
  { unfold records. rewrite HdbQ. by rewrite lookup_insert_ne. }
  destruct (buildIndices_result STORE_KEY_PAPERS force exP
              (clock1 STORE_KEY_PAPERS) (clock2 STORE_KEY_PAPERS) cQ)
    as (_ & HdbP & HgenP & HcacheP & HfreshP & HbmP).
  { intros k d. unfold db_get. rewrite HrecP. intros ????.
    eapply Hclock; eauto. compute_done. }
  destruct (_buildIndices STORE_KEY_PAPERS force exP _ cQ)
    as [uP cP] eqn:HP.
  cbn [snd] in HdbP, HgenP, HcacheP |- *.
  rewrite HrecP in HdbP, HgenP, HfreshP, HbmP.
  set (stQ := run_scan force exQ (clock1 STORE_KEY_QUESTIONS)
                (records c STORE_KEY_QUESTIONS)) in *.
  set (stP := run_scan force exP (clock1 STORE_KEY_PAPERS)
                (records c STORE_KEY_PAPERS)) in *.
  assert (db (clear_cache cP) !! STORE_KEY_QUESTIONS
          = Some (sc_records stQ)) as HQ1.
  { simpl. rewrite HdbP, HdbQ. rewrite lookup_insert_ne by done.
    apply lookup_insert_eq. }
  assert (db (clear_cache cP) !! STORE_KEY_PAPERS
          = Some (sc_records stP)) as HP1.
  { simpl. rewrite HdbP. apply lookup_insert_eq. }
  split; [|split].
  - intros k. unfold db_get. rewrite (records_lookup _ _ _ HQ1).
    subst stQ. by rewrite run_scan_records.
  - intros k. unfold db_get. rewrite (records_lookup _ _ _ HP1).
    subst stP. by rewrite run_scan_records.
  - rewrite (buildIndices_fresh STORE_KEY_QUESTIONS exQ
               (clock2 STORE_KEY_QUESTIONS) (clear_cache cP)).
    + rewrite (buildIndices_fresh STORE_KEY_PAPERS exP
                 (clock2 STORE_KEY_PAPERS) (clear_cache cP)).
      * done.
      * by rewrite (records_lookup _ _ _ HP1).
      * unfold db_get. rewrite (records_lookup _ _ _ HP1). apply HfreshP.
      * rewrite (records_lookup _ _ _ HP1). rewrite <- HbmP.
        simpl. rewrite HgenP. apply lookup_insert_eq.
    + by rewrite (records_lookup _ _ _ HQ1).
    + unfold db_get. rewrite (records_lookup _ _ _ HQ1). apply HfreshQ.
    + rewrite (records_lookup _ _ _ HQ1). rewrite <- HbmQ.
      simpl. rewrite HgenP, HgenQ. rewrite lookup_insert_ne by done.
      apply lookup_insert_eq.
Qed.

(** C7.  On an id that is not stored no operation throws: [_update] stores
    the patch with [id] and [lastUpdate = now] under the id, leaves the
    other records alone and returns the id; [_delete] returns [false] and
    leaves the whole state unchanged; the getters return nothing. *)
Theorem missing_id_never_raises store id patch inv hard now c :
  db_get c store id = None →
  (∃ c',
     _update store id patch inv now c = (Ok id, c')
     ∧ db_get c' store id
       = Some (<["lastUpdate" := VNum now]> (<["id" := VStr id]> patch))
     ∧ ∀ id', id' ≠ id → db_get c' store id' = db_get c store id')
  ∧ _delete store id hard now c = (Ok false, c)
  ∧ (store = STORE_KEY_PAPERS → getQuizPaper id c = None)
  ∧ (store = STORE_KEY_QUESTIONS → getQuestions [id] c = [None]).
Proof.
  intros Hget. split; [|split; [|split]].
  - rewrite update_create by done. eexists. split; [done|].
    unfold db_get, records; simpl. rewrite lookup_insert_eq; simpl.
    split; [apply lookup_insert_eq|].
    intros id' Hne. by rewrite lookup_insert_ne.
  - unfold _delete. by rewrite Hget.
  - intros ->. unfold getQuizPaper. by rewrite Hget.
  - intros ->. unfold getQuestions; simpl. by rewrite Hget.
Qed.

(** C8 (amended).  After an update of an existing record, after a delete
    that returns [true] (soft or hard) and after an index rebuild the
    score cache is empty, so it has no entry for any key. *)
Theorem mutation_clears_score_cache store id patch inv hard now force clock
    c :
  (is_Some (db_get c store id) →
   ∃ c', _update store id patch inv now c = (Ok id, c')
         ∧ cache c' = [] ∧ ∀ key, lru_has (cache c') key = false)
  ∧ (∀ c', _delete store id hard now c = (Ok true, c') →
           cache c' = [] ∧ ∀ key, lru_has (cache c') key = false)
  ∧ cache (refreshSearchIndices force clock c).2 = []
  ∧ ∀ key, lru_has (cache (refreshSearchIndices force clock c).2) key = false.
Proof.
  split; [|split; [|split]].
  - intros Hex.
    destruct (update_existing_cache store id patch inv now c Hex)
      as (c' & Hup & Hc).
    exists c'. rewrite Hc. by repeat split.
  - intros c' Hdel. rewrite (delete_true_cache _ _ _ _ _ _ Hdel).
    by split.
  - apply refresh_cache.
  - intros key. by rewrite refresh_cache.
Qed.

(** C9.  Whenever the write of an update commits, on the create path as
    on the path of an existing record and whatever state the write
    transaction finds, the call returns the [id] argument and the record
    stored under [id] carries that [id], also when the patch carries
    another one. *)
Theorem update_commits_under_id store id patch inv now c0 c1 r c2 :
  _update_write store id (_update_read store id patch inv now c0) c1
  = (Ok r, c2) →
  r = id
  ∧ ∃ d, db_get c2 store id = Some d ∧ d !! "id" = Some (VStr id).
Proof.
  unfold _update_read.
  destruct (db_get c0 store id) as [original|] eqn:Hget.
  - destruct (update_read_existing store id patch inv now c0 original Hget)
      as (modified & Hplan & Hid & _).
    unfold _update_read in Hplan. rewrite Hget in Hplan.
    injection Hplan as Hplan. rewrite Hplan. clear Hplan.
    unfold _update_write. case_decide; [done|].
    unfold db_put. rewrite (key_of_id _ _ Hid).
    intros [= <- <-]. split; [done|]. exists modified.
    unfold db_get, records; simpl. rewrite lookup_insert_eq; simpl.
    by rewrite lookup_insert_eq.
  - unfold _update_write, _import; simpl.
    assert (key_of (<["lastUpdate" := VNum now]> (<["id" := VStr id]> patch))
            = Some id) as Hk.
    { apply key_of_id. rewrite lookup_insert_ne by done.
      apply lookup_insert_eq. }
    rewrite Hk. destruct (records c1 store !! id); [done|].
    intros [= <- <-]. split; [done|]. eexists.
    unfold db_get, records; simpl. rewrite lookup_insert_eq; simpl.
    rewrite lookup_insert_eq. split; [done|].
    rewrite lookup_insert_ne by done. apply lookup_insert_eq.
Qed.

(** C10.  [sanitizeIndices] with tags retained removes exactly [deleted],
    [keywords], [keywordsFrequency], [tagsFrequency] and
    [keywordsUpdatedTime]; every other property reads as in the stored
    record.  What [getQuizPaper], [getQuestions] and [_search] return is
    the stored record sanitized in this way. *)
Theorem sanitize_frame store query keywords useTag count page k1 b
    threshold ids id c :
  (∀ d k,
     sanitizeIndices d true !! k
     = if bool_decide (k ∈ derived_fields) then None else d !! k)
  ∧ getQuizPaper id c
    = (λ d, sanitizeIndices d true) <$> db_get c STORE_KEY_PAPERS id
  ∧ getQuestions ids c
    = (λ id, (λ d, sanitizeIndices d true)
               <$> db_get c STORE_KEY_QUESTIONS id) <$> ids
  ∧ Forall
      (λ r, ∃ id d, db_get c store id = Some d ∧ r = sanitizeIndices d true)
      (result (_search store query keywords useTag count page k1 b
                 threshold c).1).
Proof.
  split; [apply sanitize_lookup|].
  split; [done|]. split; [done|].
  apply search_result_from_store.
Qed.

End Claims.

(** * Further properties *)

(** ** utils/string.ts: letters and numbers *)

Lemma numberToLetters_loop_app fuel num result :
  Text.numberToLetters_loop fuel num result
  = Text.numberToLetters_loop fuel num [] ++ result.
Proof.
  revert num result. induction fuel as [|fuel IH]; intros num result.
  - done.
  - cbn [Text.numberToLetters_loop]. destruct (0 <? num); [|done].
    cbv zeta. rewrite (IH _ (_ :: result)), (IH _ [_]).
    by rewrite <- app_assoc.
Qed.

Lemma numberToLetters_loop_fuel fuel1 fuel2 num result :
  num ≤ Z.of_nat fuel1 → num ≤ Z.of_nat fuel2 →
  Text.numberToLetters_loop fuel1 num result
  = Text.numberToLetters_loop fuel2 num result.
Proof.
  revert fuel2 num result.
  induction fuel1 as [|fuel1 IH]; intros fuel2 num result H1 H2.
  - destruct fuel2 as [|fuel2]; [done|].
    cbn [Text.numberToLetters_loop].
    destruct (Z.ltb_spec 0 num); [lia|done].
  - destruct fuel2 as [|fuel2]; cbn [Text.numberToLetters_loop].
    + destruct (Z.ltb_spec 0 num); [lia|done].
    + destruct (Z.ltb_spec 0 num) as [Hpos|]; [|done]. cbv zeta.
      assert ((num - 1) `div` 26 ≤ num - 1)
        by (apply Z.div_le_upper_bound; lia).
      apply IH; lia.
Qed.

(** The loop, one turn at a time. *)
Lemma numberToLetters_unfold num :
  1 ≤ num →
  Text.numberToLetters num
  = Text.numberToLetters ((num - 1) `div` 26) ++ [65 + (num - 1) `mod` 26].
Proof.
  intros Hnum. unfold Text.numberToLetters at 1.
  destruct (Z.ltb_spec num 1); [lia|].
  destruct (Z.to_nat num) as [|fuel] eqn:Hfuel; [lia|].
  cbn [Text.numberToLetters_loop].
  destruct (Z.ltb_spec 0 num); [|lia]. cbv zeta.
  rewrite numberToLetters_loop_app. f_equal.
  assert ((num - 1) `div` 26 ≤ num - 1)
    by (apply Z.div_le_upper_bound; lia).
  assert (0 ≤ (num - 1) `div` 26) by (apply Z.div_pos; lia).
  unfold Text.numberToLetters.
  destruct (Z.ltb_spec ((num - 1) `div` 26) 1).
  - destruct fuel; [done|]. cbn [Text.numberToLetters_loop].
    destruct (Z.ltb_spec 0 ((num - 1) `div` 26)); [lia|done].
  - apply numberToLetters_loop_fuel; lia.
Qed.

Lemma numberToLetters_nil num : num < 1 → Text.numberToLetters num = [].
Proof.
  intros H. unfold Text.numberToLetters.
  destruct (Z.ltb_spec num 1); [done|lia].
Qed.


Lemma numberToLetters_upper num : Forall Text.is_upper (Text.numberToLetters num).
Proof.
  assert (∀ n : nat, ∀ num, Z.to_nat num ≤ n →
            Forall Text.is_upper (Text.numberToLetters num))%nat as H.
  { clear num. induction n as [|n IH]; intros num Hn.
    - rewrite numberToLetters_nil by lia. constructor.
    - destruct (Z.ltb_spec num 1) as [Hlt|Hge].
      + rewrite numberToLetters_nil by lia. constructor.
      + rewrite numberToLetters_unfold by done.
        assert ((num - 1) `div` 26 ≤ num - 1)
          by (apply Z.div_le_upper_bound; lia).
        apply Forall_app. split; [apply IH; lia|].
        constructor; [|constructor]. unfold Text.is_upper.
        pose proof (Z.mod_pos_bound (num - 1) 26). lia. }
  by apply (H (Z.to_nat num)).
Qed.

Lemma ascii_upper_upper s : Forall Text.is_upper s → Text.ascii_upper <$> s = s.
Proof.
  induction 1 as [|c s Hc _ IH]; [done|].
  rewrite fmap_cons, IH. f_equal. unfold Text.ascii_upper, Text.is_upper in *.
  destruct (Z.leb_spec 97 c); [lia|done].
Qed.

Lemma ascii_upper_letter c : Text.is_letter c → Text.is_upper (Text.ascii_upper c).
Proof.
  unfold Text.is_letter, Text.is_upper, Text.ascii_upper. intros [H|H].
  - destruct (Z.leb_spec 97 c); [lia|]. simpl. lia.
  - destruct (Z.leb_spec 97 c), (Z.leb_spec c 122); simpl; lia.
Qed.

Section Letters.
(** [toUpperCase] is the engine's; what is used of it is what it does to
    the ASCII range. *)
Variable toUpperCase : Text.jsstring → Text.jsstring.
Hypothesis toUpperCase_ascii :
  ∀ s, Forall (λ c, 0 ≤ c < 128) s → toUpperCase s = Text.ascii_upper <$> s.

Lemma toUpperCase_upper s : Forall Text.is_upper s → toUpperCase s = s.
Proof.
  intros Hs. rewrite toUpperCase_ascii.
  - by apply ascii_upper_upper.
  - eapply Forall_impl; [exact Hs|]. unfold Text.is_upper. intros; simpl; lia.
Qed.

Lemma lettersToNumber_snoc s c :
  Forall Text.is_upper (s ++ [c]) →
  Text.lettersToNumber toUpperCase (s ++ [c])
  = Text.lettersToNumber toUpperCase s * 26 + (c - 64).
Proof.
  intros Hs. pose proof Hs as [Hs' _]%Forall_app.
  unfold Text.lettersToNumber.
  rewrite !toUpperCase_upper by done. by rewrite fold_left_app.
Qed.

Lemma lettersToNumber_nonneg s :
  Forall Text.is_upper s → 0 ≤ Text.lettersToNumber toUpperCase s.
Proof.
  induction s as [|c s IH] using rev_ind; intros Hs.
  - unfold Text.lettersToNumber. rewrite toUpperCase_upper by done. done.
  - rewrite lettersToNumber_snoc by done.
    apply Forall_app in Hs as [Hs Hc]. rewrite Forall_singleton in Hc.
    specialize (IH Hs). unfold Text.is_upper in Hc. lia.
Qed.



End Letters.

(** ** utils/string.ts: parseCommaSeparatedArray *)

Lemma trim_start_head s c :
  head (Text.trim_start s) = Some c → Text.is_space c = false.
Proof.
  induction s as [|d s IH]; [done|]. cbn [Text.trim_start].
  destruct (Text.is_space d) eqn:Hd; [done|]. cbn. by intros [= <-].
Qed.

Lemma trim_start_suffix s : Text.trim_start s `suffix_of` s.
Proof.
  induction s as [|d s IH]; [done|]. cbn [Text.trim_start].
  destruct (Text.is_space d); [by apply suffix_cons_r|done].
Qed.

Lemma last_suffix {A} (l k : list A) x :
  l `suffix_of` k → last l = Some x → last k = Some x.
Proof. intros [p ->] Hl. rewrite last_app, Hl. done. Qed.

Lemma trim_start_id s :
  (∀ c, head s = Some c → Text.is_space c = false) → Text.trim_start s = s.
Proof.
  destruct s as [|d s]; [done|]. intros H. cbn [Text.trim_start].
  by rewrite (H d).
Qed.

Lemma head_reverse {A} (l : list A) : head (reverse l) = last l.
Proof.
  induction l as [|x l IH] using rev_ind; [done|].
  by rewrite reverse_app, last_snoc.
Qed.

Lemma last_reverse' {A} (l : list A) : last (reverse l) = head l.
Proof. by rewrite <- head_reverse, reverse_involutive. Qed.

Lemma trim_not_padded s : Text.padded (Text.trim s) = false.
Proof.
  unfold Text.padded, Text.trim. rewrite head_reverse, last_reverse'.
  apply orb_false_iff. split.
  - destruct (last _) as [c|] eqn:Hc; [|done].
    apply (last_suffix _ _ _ (trim_start_suffix _)) in Hc.
    rewrite last_reverse' in Hc. by apply trim_start_head in Hc.
  - destruct (head _) as [c|] eqn:Hc; [|done]. by apply trim_start_head in Hc.
Qed.

Lemma not_padded_trim s : Text.padded s = false → Text.trim s = s.
Proof.
  unfold Text.padded, Text.trim. intros [Hh Hl]%orb_false_iff.
  rewrite (trim_start_id s).
  - rewrite trim_start_id; [by rewrite reverse_involutive|].
    intros c. rewrite head_reverse. intros Hc. by rewrite Hc in Hl.
  - intros c Hc. by rewrite Hc in Hh.
Qed.

Lemma parse_step_plain separators spaces w st :
  Text.ps_escaped st = false → Text.plain separators w →
  fold_left (Text.parse_step separators spaces) w st
  = {| Text.ps_result := Text.ps_result st;
       Text.ps_current := Text.ps_current st ++ w;
       Text.ps_escaped := false |}.
Proof.
  intros Hesc Hw. revert st Hesc.
  induction Hw as [|ch w [Hb Hsep] _ IH]; intros st Hesc.
  - destruct st; cbn in *. by rewrite app_nil_r, Hesc.
  - cbn [fold_left]. rewrite IH.
    + unfold Text.parse_step. rewrite Hesc.
      destruct (Z.eqb_spec ch Text.backslash); [done|].
      rewrite bool_decide_eq_false_2 by done. cbn.
      by rewrite <- app_assoc.
    + unfold Text.parse_step. rewrite Hesc.
      destruct (Z.eqb_spec ch Text.backslash); [done|].
      by rewrite bool_decide_eq_false_2 by done.
Qed.

Lemma parse_step_separator separators spaces st c :
  Text.ps_escaped st = false → c ≠ Text.backslash → c ∈ separators →
  Text.parse_step separators spaces st c
  = {| Text.ps_result := Text.ps_result st ++ [Text.trim (Text.ps_current st)];
       Text.ps_current := []; Text.ps_escaped := false |}.
Proof.
  intros Hesc Hb Hc. unfold Text.parse_step. rewrite Hesc.
  destruct (Z.eqb_spec c Text.backslash); [done|].
  by rewrite bool_decide_eq_true_2.
Qed.

Lemma parse_join_state separators spaces c ws w res :
  c ≠ Text.backslash → c ∈ separators →
  Forall (Text.plain separators) (ws ++ [w]) →
  Forall (λ w, Text.trim w = w) ws →
  fold_left (Text.parse_step separators spaces) (Text.join c (ws ++ [w]))
    {| Text.ps_result := res; Text.ps_current := [];
       Text.ps_escaped := false |}
  = {| Text.ps_result := res ++ ws; Text.ps_current := w;
       Text.ps_escaped := false |}.
Proof.
  intros Hb Hc. revert res.
  induction ws as [|w0 ws IH]; intros res Hplain Htrim.
  - cbn [app Text.join]. rewrite parse_step_plain; cbn; [|done|].
    + by rewrite app_nil_r.
    + cbn in Hplain. by rewrite Forall_singleton in Hplain.
  - assert (Text.join c ((w0 :: ws) ++ [w])
            = w0 ++ c :: Text.join c (ws ++ [w])) as ->.
    { destruct ws; reflexivity. }
    apply Forall_cons in Hplain as [Hw0 Hplain].
    apply Forall_cons in Htrim as [Ht0 Htrim].
    change (Forall (Text.plain separators) (ws ++ [w])) in Hplain.
    rewrite fold_left_app, (parse_step_plain _ _ w0) by done.
    cbn [fold_left]. rewrite parse_step_separator by done.
    cbn [Text.ps_result Text.ps_current app]. rewrite Ht0, IH by done.
    by rewrite <- app_assoc.
Qed.

Lemma endsWith_snoc input c d :
  Text.endsWith (input ++ [c]) [d] = bool_decide (c = d).
Proof.
  unfold Text.endsWith. rewrite length_app. cbn [length].
  replace (length input + 1 - 1)%nat with (length input) by lia.
  rewrite drop_app_length. apply bool_decide_ext.
  split; [by intros [[= ->] _]|intros ->; split; [done|lia]].
Qed.

Lemma endsWith_nil search : search ≠ [] → Text.endsWith [] search = false.
Proof.
  intros H. unfold Text.endsWith. apply bool_decide_eq_false_2.
  intros [_ Hlen]. destruct search; [done|]. cbn in Hlen. lia.
Qed.

Lemma last_separator_nonempty separators :
  Text.last_separator separators ≠ [].
Proof. unfold Text.last_separator. by destruct (last separators). Qed.

(** X3.  Entries that hold neither a separator nor a backslash and neither
    start nor end with white space, joined by one separator, are parsed
    back entry by entry, provided the last entry is not empty.  The empty
    input gives no entry. *)
Theorem parse_join_round_trip separators spaces c ws :
  c ≠ Text.backslash → c ∈ separators →
  Forall (Text.plain separators) ws →
  Forall (λ w, Text.padded w = false) ws →
  last ws ≠ Some [] →
  Text.parseCommaSeparatedArray (Text.join c ws) separators spaces = ws.
Proof.
  intros Hb Hc Hplain Hpad Hlast.
  destruct ws as [|w ws _] using rev_ind.
  - unfold Text.parseCommaSeparatedArray. cbn.
    by rewrite endsWith_nil by apply last_separator_nonempty.
  - unfold Text.parseCommaSeparatedArray.
    apply Forall_app in Hpad as [Hpad Hw]. rewrite Forall_singleton in Hw.
    rewrite parse_join_state; [|done..|].
    + cbn [Text.ps_current Text.ps_result app].
      rewrite last_snoc in Hlast.
      destruct w as [|ch w]; [done|]. cbn [length orb Z.ltb].
      replace (0 <? Z.of_nat (S (length w))) with true
        by (symmetry; apply Z.ltb_lt; lia).
      cbn [orb]. by rewrite not_padded_trim.
    + eapply Forall_impl; [exact Hpad|]. intros; by apply not_padded_trim.
Qed.

(** X4.  A separator after the last entry adds an empty last entry only if
    it is the last character of [separators] (of the defaults, the
    full-width comma); after any other separator nothing is added. *)
Theorem parse_trailing_separator separators spaces c ws :
  c ≠ Text.backslash → c ∈ separators →
  Forall (Text.plain separators) ws →
  Forall (λ w, Text.padded w = false) ws →
  ws ≠ [] →
  Text.parseCommaSeparatedArray (Text.join c ws ++ [c]) separators spaces
  = if bool_decide (last separators = Some c) then ws ++ [[]] else ws.
Proof.
  intros Hb Hc Hplain Hpad Hne.
  destruct ws as [|w ws _] using rev_ind; [done|].
  unfold Text.parseCommaSeparatedArray. rewrite fold_left_app.
  apply Forall_app in Hpad as [Hpad Hw]. rewrite Forall_singleton in Hw.
  rewrite parse_join_state; [|done..|].
  - cbn [fold_left]. rewrite parse_step_separator by done.
    cbn [Text.ps_current Text.ps_result app length orb]. cbn [Z.of_nat Z.ltb].
    rewrite not_padded_trim by done.
    unfold Text.last_separator.
    destruct (last separators) as [d|] eqn:Hd.
    + rewrite endsWith_snoc.
      destruct (decide (c = d)) as [->|Hcd].
      * rewrite !bool_decide_eq_true_2 by done. done.
      * rewrite !bool_decide_eq_false_2 by congruence. done.
    + apply last_None in Hd. subst. by apply elem_of_nil in Hc.
  - eapply Forall_impl; [exact Hpad|]. intros; by apply not_padded_trim.
Qed.

Lemma parse_step_result_trimmed separators spaces input st :
  Forall (λ e, Text.padded e = false) (Text.ps_result st) →
  Forall (λ e, Text.padded e = false)
    (Text.ps_result (fold_left (Text.parse_step separators spaces) input st)).
Proof.
  revert st. induction input as [|ch input IH]; intros st Hst; [done|].
  cbn [fold_left]. apply IH. unfold Text.parse_step.
  repeat case_match; cbn; try done.
  apply Forall_app. split; [done|].
  apply Forall_singleton, trim_not_padded.
Qed.

(** X5.  No entry that [parseCommaSeparatedArray] returns starts or ends
    with white space, escaped or not: trimming it again leaves it as it
    is. *)
Theorem parse_entries_trimmed input separators spaces :
  Forall (λ e, Text.padded e = false ∧ Text.trim e = e)
    (Text.parseCommaSeparatedArray input separators spaces).
Proof.
  eapply Forall_impl; [|intros e He; split; [exact He|by apply not_padded_trim]].
  unfold Text.parseCommaSeparatedArray. cbv zeta.
  pose proof (parse_step_result_trimmed separators spaces input
    {| Text.ps_result := []; Text.ps_current := [];
       Text.ps_escaped := false |} (Forall_nil_2 _)) as H.
  case_match; [|done].
  apply Forall_app. split; [done|]. apply Forall_singleton, trim_not_padded.
Qed.

(** X6.  A backslash takes the next character into the entry without
    splitting: a separator, a space or a backslash is kept without the
    backslash, any other character with it. *)
Theorem parse_escape separators spaces w1 char w2 :
  Text.plain separators w1 → Text.plain separators w2 →
  Text.parseCommaSeparatedArray (w1 ++ Text.backslash :: char :: w2)
    separators spaces
  = [Text.trim (w1 ++ Text.unescaped separators spaces char ++ w2)].
Proof.
  intros H1 H2. unfold Text.parseCommaSeparatedArray.
  rewrite fold_left_app, (parse_step_plain _ _ w1) by done.
  cbn [fold_left Text.ps_result Text.ps_current app].
  set (st := Text.parse_step _ _ (Text.parse_step _ _ _ _) _).
  assert (st = {| Text.ps_result := []; 
                  Text.ps_current :=
                    w1 ++ Text.unescaped separators spaces char;
                  Text.ps_escaped := false |}) as ->.
  { subst st. unfold Text.parse_step at 2. cbn.
    unfold Text.parse_step. cbn. unfold Text.unescaped.
    repeat case_match; done. }
  rewrite parse_step_plain by done.
  cbn [Text.ps_result Text.ps_current app].
  rewrite <- app_assoc.
  replace (0 <? _) with true; [done|].
  symmetry. apply Z.ltb_lt. rewrite !length_app.
  unfold Text.unescaped. repeat case_match; cbn; lia.
Qed.

(** ** Further properties of the document store *)

Lemma omap_key_of_cons q items k :
  key_of q = Some k → omap key_of (q :: items) = k :: omap key_of items.
Proof. intros Hk. cbn [omap list_omap]. by rewrite Hk. Qed.

Lemma omap_key_of_cons_None q items :
  key_of q = None → omap key_of (q :: items) = omap key_of items.
Proof. intros Hk. cbn [omap list_omap]. by rewrite Hk. Qed.

Lemma add_all_spec items (rs : gmap string doc) :
  let ok :=
    Forall (λ q, is_Some (key_of q)) items
    ∧ NoDup (omap key_of items)
    ∧ ∀ k, k ∈ omap key_of items → rs !! k = None in
  match add_all items rs with
  | Ok rs' =>
      ok
      ∧ (∀ q k, q ∈ items → key_of q = Some k → rs' !! k = Some q)
      ∧ (∀ k, k ∉ omap key_of items → rs' !! k = rs !! k)
  | Throw _ => ¬ ok
  end.
Proof.
  revert rs. induction items as [|q items IH]; intros rs; cbv zeta.
  - cbn [add_all]. split; [|split].
    + split; [constructor|]. split; [constructor|].
      by intros k ?%elem_of_nil.
    + by intros q k ?%elem_of_nil.
    + done.
  - cbn [add_all]. destruct (key_of q) as [k|] eqn:Hk.
    + rewrite (omap_key_of_cons _ _ _ Hk).
      destruct (rs !! k) as [d|] eqn:Hrs.
      * intros (_ & _ & Hfree). specialize (Hfree k).
        rewrite Hrs in Hfree. discriminate Hfree. apply elem_of_cons. by left.
      * specialize (IH (<[k := q]> rs)). cbv zeta in IH.
        destruct (add_all items (<[k := q]> rs)) as [rs'|e].
        -- destruct IH as ((Hall & Hnd & Hfree) & Hin & Hout).
           assert (k ∉ omap key_of items) as Hfresh.
           { intros Hel. specialize (Hfree k Hel).
             by rewrite lookup_insert_eq in Hfree. }
           split; [split; [|split]|split].
           ++ constructor; [by rewrite Hk|done].
           ++ by constructor.
           ++ intros k' [->|Hel]%elem_of_cons; [done|].
              specialize (Hfree k' Hel).
              rewrite lookup_insert_ne in Hfree; [done|]. by intros ->.
           ++ intros q' k' [->|Hel]%elem_of_cons Hk'.
              ** assert (k' = k) as -> by congruence.
                 rewrite Hout by done. apply lookup_insert_eq.
              ** by apply Hin.
           ++ intros k' Hnot. rewrite Hout.
              ** apply lookup_insert_ne. intros ->. apply Hnot.
                 apply elem_of_cons. by left.
              ** intros ?. apply Hnot. apply elem_of_cons. by right.
        -- intros (Hall & Hnd & Hfree). apply IH.
           apply Forall_cons in Hall as [_ Hall].
           apply NoDup_cons in Hnd as [Hfresh Hnd].
           split; [done|]. split; [done|].
           intros k' Hel. rewrite lookup_insert_ne by (by intros ->).
           apply Hfree. apply elem_of_cons. by right.
    + intros (Hall & _). apply Forall_cons in Hall as [[k' Hk'] _].
      congruence.
Qed.

Section StoreProperties.
Context `{Ext : Externals}.
Implicit Types (c : controller) (d : doc).

Lemma db_get_set_records c store rs store' k :
  db_get (set_records c store rs) store' k
  = if decide (store = store') then rs !! k else db_get c store' k.
Proof. unfold db_get. rewrite records_set_records. by case_decide. Qed.

Lemma db_get_clear_cache c store k :
  db_get (clear_cache c) store k = db_get c store k.
Proof. done. Qed.

Lemma import_accepted store items c :
  importable store items c →
  ∃ c',
    _import store items c = (Ok (omap key_of items), c')
    ∧ (∀ q k, q ∈ items → key_of q = Some k → db_get c' store k = Some q)
    ∧ (∀ k, k ∉ omap key_of items → db_get c' store k = db_get c store k)
    ∧ (∀ store' k, store' ≠ store → db_get c' store' k = db_get c store' k)
    ∧ general c' = general c
    ∧ cache c' = cache c.
Proof.
  unfold importable, _import, db_get. intros Hok.
  pose proof (add_all_spec items (records c store)) as Hspec.
  cbv zeta in Hspec.
  destruct (add_all items (records c store)) as [rs'|e]; [|done].
  destruct Hspec as (_ & Hin & Hout).
  eexists. split; [done|].
  split; [|split; [|split; [|done]]].
  - intros q k Hq Hk. rewrite records_set_records, decide_True by done.
    by apply Hin.
  - intros k Hk. rewrite records_set_records, decide_True by done.
    by apply Hout.
  - intros store' k Hne. by rewrite records_set_records, decide_False.
Qed.

Lemma import_refused store items c :
  ¬ importable store items c → ∃ e, _import store items c = (Throw e, c).
Proof.
  unfold importable, _import, db_get. intros Hno.
  pose proof (add_all_spec items (records c store)) as Hspec.
  cbv zeta in Hspec.
  destruct (add_all items (records c store)) as [rs'|e]; [|by exists e].
  by destruct Hspec as (Hok & _).
Qed.


Lemma keyed_set_records c store (rs : gmap string doc) :
  keyed c → (∀ k d, rs !! k = Some d → key_of d = Some k) →
  keyed (set_records c store rs).
Proof.
  intros Hc Hrs store' k d. rewrite db_get_set_records.
  case_decide; [apply Hrs|apply Hc].
Qed.

Lemma keyed_db c c' : db c' = db c → keyed c → keyed c'.
Proof.
  intros Hdb Hc store k d. unfold db_get, records. rewrite Hdb. apply Hc.
Qed.

Lemma keyed_insert c store k d :
  keyed c → key_of d = Some k →
  keyed (set_records c store (<[k := d]> (records c store))).
Proof.
  intros Hc Hk. apply keyed_set_records; [done|].
  intros k' d'. rewrite lookup_insert. case_decide as Hkk.
  - intros [= <-]. by subst.
  - apply Hc.
Qed.

Lemma keyed_import store items c : keyed c → keyed (_import store items c).2.
Proof.
  intros Hc. unfold _import.
  pose proof (add_all_spec items (records c store)) as Hspec.
  cbv zeta in Hspec.
  destruct (add_all items (records c store)) as [rs'|e]; [|done].
  destruct Hspec as ((Hall & Hnd & Hfree) & Hin & Hout). cbn [snd].
  apply keyed_set_records; [done|]. intros k d Hk.
  destruct (decide (k ∈ omap key_of items)) as [Hel|Hel].
  - apply list_elem_of_omap in Hel as (q & Hq & Hkq).
    rewrite (Hin q k Hq Hkq) in Hk. by injection Hk as <-.
  - rewrite Hout in Hk by done. by apply (Hc store).
Qed.

Lemma key_of_insert_ne d f v : f ≠ "id" → key_of (<[f := v]> d) = key_of d.
Proof. intros Hf. unfold key_of. by rewrite lookup_insert_ne. Qed.

Lemma key_of_delete_ne d f : f ≠ "id" → key_of (delete f d) = key_of d.
Proof. intros Hf. unfold key_of. by rewrite lookup_delete_ne. Qed.

Lemma key_of_insert_id d id : key_of (<["id" := VStr id]> d) = Some id.
Proof. unfold key_of. by rewrite lookup_insert_eq. Qed.

Lemma update_read_key store id patch inv now c :
  match _update_read store id patch inv now c with
  | PlanCreate record => key_of record = Some id
  | PlanCommit _ modified => key_of modified = Some id
  end.
Proof.
  unfold _update_read. destruct (db_get c store id) as [original|].
  - destruct inv; rewrite ?key_of_delete_ne by done;
      rewrite key_of_insert_ne by done; apply key_of_insert_id.
  - rewrite key_of_insert_ne by done. apply key_of_insert_id.
Qed.

Lemma keyed_update_write store id patch inv now c0 c :
  keyed c →
  keyed (_update_write store id (_update_read store id patch inv now c0) c).2.
Proof.
  intros Hc. pose proof (update_read_key store id patch inv now c0) as Hk.
  destruct (_update_read store id patch inv now c0) as [r|original modified];
    unfold _update_write.
  - pose proof (keyed_import store [r] c Hc) as Hi.
    by destruct (_import store [r] c) as [[ids|e] c'].
  - case_decide; [done|]. unfold db_put. rewrite Hk. cbn [snd].
    apply (keyed_db (set_records c store (<[id := modified]> (records c store))));
      [done|]. by apply keyed_insert.
Qed.

Lemma keyed_delete store id hard now c :
  keyed c → keyed (_delete store id hard now c).2.
Proof.
  intros Hc. unfold _delete.
  destruct (db_get c store id) as [original|] eqn:Hget; [|done].
  destruct hard; cbn [negb].
  - cbn [snd]. unfold db_delete.
    apply (keyed_db (set_records c store (delete id (records c store))));
      [done|].
    apply keyed_set_records; [done|]. intros k d Hk.
    apply lookup_delete_Some in Hk as [_ Hk]. by apply (Hc store).
  - unfold db_put. rewrite !key_of_insert_ne by done.
    rewrite (Hc _ _ _ Hget). cbn [snd].
    eapply keyed_db; [|apply keyed_insert; [exact Hc|]]; [done|].
    rewrite !key_of_insert_ne by done. by apply (Hc store).
Qed.

Lemma key_of_visited force excludedKeys now d :
  key_of (visited force excludedKeys now d) = key_of d.
Proof.
  unfold visited. destruct (needs_reindex force d); [|done].
  unfold key_of. by rewrite reindex_lookup by compute_done.
Qed.

Lemma keyed_buildIndices store force excludedKeys clock c :
  keyed c → keyed (_buildIndices store force excludedKeys clock c).2.
Proof.
  intros Hc. unfold _buildIndices. cbn [snd].
  eapply keyed_db; [|apply keyed_set_records; [exact Hc|]]; [done|].
  intros k d. rewrite run_scan_records.
  intros (d0 & Hd0 & ->)%fmap_Some. rewrite key_of_visited.
  by apply (Hc store).
Qed.

(** X8.  Every stored record carries its key in [id], and [_import],
    [_update] (also when other calls run between its read and its write),
    [_delete], [_buildIndices] and [refreshSearchIndices] keep it so. *)
Theorem stored_records_carry_their_key c :
  keyed c →
  (∀ store items, keyed (_import store items c).2)
  ∧ (∀ store id patch inv now c0,
       keyed (_update_write store id
                (_update_read store id patch inv now c0) c).2)
  ∧ (∀ store id patch inv now, keyed (_update store id patch inv now c).2)
  ∧ (∀ store id hard now, keyed (_delete store id hard now c).2)
  ∧ (∀ store force excludedKeys clock,
       keyed (_buildIndices store force excludedKeys clock c).2)
  ∧ (∀ force clock, keyed (refreshSearchIndices force clock c).2).
Proof.
  intros Hc. repeat split.
  - intros. by apply keyed_import.
  - intros. by apply keyed_update_write.
  - intros. unfold _update. by apply keyed_update_write.
  - intros. by apply keyed_delete.
  - intros. by apply keyed_buildIndices.
  - intros force clock. unfold refreshSearchIndices.
    pose proof (keyed_buildIndices STORE_KEY_QUESTIONS force
                  ["id"; "keywords"] (clock STORE_KEY_QUESTIONS) c Hc) as H1.
    destruct (_buildIndices STORE_KEY_QUESTIONS _ _ _ c) as [u1 c1].
    pose proof (keyed_buildIndices STORE_KEY_PAPERS force
                  ["id"; "questions"; "keywords"] (clock STORE_KEY_PAPERS)
                  c1 H1) as H2.
    destruct (_buildIndices STORE_KEY_PAPERS _ _ _ c1) as [u2 c2].
    cbn [snd] in *. by apply (keyed_db c2).
Qed.

(** X9.  A hard delete (as [deleteQuestion] and [deleteQuizPaper] ask for)
    of a stored record returns [true] and removes exactly that record:
    reading it gives nothing, every other record and the BM25 caches are
    as before, and deleting it again returns [false] and changes
    nothing. *)
Theorem hard_delete_removes store id now c :
  is_Some (db_get c store id) →
  ∃ c',
    _delete store id true now c = (Ok true, c')
    ∧ db_get c' store id = None
    ∧ (∀ store' id', (store', id') ≠ (store, id) →
         db_get c' store' id' = db_get c store' id')
    ∧ general c' = general c
    ∧ ∀ now', _delete store id true now' c' = (Ok false, c').
Proof.
  intros [original Hget]. unfold _delete at 1. rewrite Hget. cbn [negb].
  eexists. split; [done|].
  assert (db_get (clear_cache (db_delete store id c)) store id = None) as Hn.
  { unfold db_delete. rewrite db_get_clear_cache, db_get_set_records.
    rewrite decide_True by done. apply lookup_delete_eq. }
  split; [done|]. split; [|split; [done|]].
  - intros store' id' Hne. unfold db_delete.
    rewrite db_get_clear_cache, db_get_set_records.
    case_decide as Hs; [|done]. subst store'.
    unfold db_get. rewrite lookup_delete_ne; [done|]. congruence.
  - intros now'. unfold _delete. by rewrite Hn.
Qed.

Lemma needs_reindex_deleted d :
  truthy (d !! "deleted") = true → needs_reindex false d = false.
Proof. intros Hd. unfold needs_reindex. by rewrite Hd. Qed.

Lemma db_get_buildIndices store force excludedKeys clock c store' k :
  db_get (_buildIndices store force excludedKeys clock c).2 store' k
  = if decide (store = store')
    then visited force excludedKeys (clock k) <$> db_get c store k
    else db_get c store' k.
Proof.
  unfold _buildIndices. cbn [snd].
  change (db_get (_dump ?key ?v ?c0) store' k) with (db_get c0 store' k).
  rewrite db_get_set_records. case_decide; [|done].
  apply run_scan_records.
Qed.

Lemma buildIndices_updated store force excludedKeys clock c k :
  k ∈ (_buildIndices store force excludedKeys clock c).1
  ↔ ∃ d, db_get c store k = Some d ∧ needs_reindex force d = true.
Proof.
  unfold _buildIndices. cbn [fst]. rewrite run_scan_updated.
  rewrite list_elem_of_fmap. split.
  - intros ([k' d] & -> & [Hneeds Hin%elem_of_map_to_list]%list_elem_of_filter).
    by exists d.
  - intros (d & Hget & Hneeds). exists (k, d). split; [done|].
    apply list_elem_of_filter. split; [done|]. by apply elem_of_map_to_list.
Qed.

(** X10.  A soft delete keeps the record under its id, with [deleted = true]
    and [lastUpdate = now].  What the getters show of it is what they
    showed before, with the new [lastUpdate].  A rebuild without [force]
    right after neither lists it as updated nor changes it. *)
Theorem soft_delete_keeps_record store id now c d :
  db_get c store id = Some d →
  key_of d = Some id →
  let d' := <["lastUpdate" := VNum now]> (<["deleted" := VBool true]> d) in
  ∃ c',
    _delete store id false now c = (Ok true, c')
    ∧ db_get c' store id = Some d'
    ∧ (∀ store' id', (store', id') ≠ (store, id) →
         db_get c' store' id' = db_get c store' id')
    ∧ sanitizeIndices d' true
      = <["lastUpdate" := VNum now]> (sanitizeIndices d true)
    ∧ ∀ excludedKeys clock,
        let r := _buildIndices store false excludedKeys clock c' in
        (id ∉ r.1) ∧ db_get r.2 store id = Some d'.
Proof.
  intros Hget Hkey d'. unfold _delete. rewrite Hget. cbn [negb].
  unfold db_put. fold d'.
  assert (key_of d' = Some id) as ->.
  { subst d'. by rewrite !key_of_insert_ne. }
  eexists. split; [done|].
  assert (db_get
            (clear_cache (set_records c store (<[id := d']> (records c store))))
            store id = Some d') as Hget'.
  { rewrite db_get_clear_cache, db_get_set_records, decide_True by done.
    apply lookup_insert_eq. }
  assert (needs_reindex false d' = false) as Hfresh.
  { apply needs_reindex_deleted. subst d'.
    rewrite lookup_insert_ne by done. by rewrite lookup_insert_eq. }
  split; [done|]. split; [|split].
  - intros store' id' Hne.
    rewrite db_get_clear_cache, db_get_set_records.
    case_decide as Hs; [|done]. subst store'.
    unfold db_get. rewrite lookup_insert_ne; [done|]. congruence.
  - apply map_eq. intros k. rewrite sanitize_lookup. subst d'.
    destruct (decide (k = "lastUpdate")) as [->|Hk].
    + rewrite bool_decide_eq_false_2 by (unfold derived_fields; set_solver).
      by rewrite !lookup_insert_eq.
    + rewrite !(lookup_insert_ne _ "lastUpdate") by done.
      rewrite sanitize_lookup. case_bool_decide as Hder; [done|].
      rewrite lookup_insert_ne; [done|].
      intros <-. apply Hder. unfold derived_fields. set_solver.
  - intros excludedKeys clock. cbv zeta. split.
    + rewrite buildIndices_updated. intros (d0 & Hd0 & Hneeds).
      rewrite Hget' in Hd0. injection Hd0 as <-. congruence.
    + rewrite db_get_buildIndices, decide_True, Hget' by done. cbn.
      unfold visited. by rewrite Hfresh.
Qed.

Lemma sanitize_visited force excludedKeys now d :
  sanitizeIndices (visited force excludedKeys now d) true
  = sanitizeIndices d true.
Proof.
  unfold visited. destruct (needs_reindex force d); [|done].
  apply map_eq. intros k. rewrite !sanitize_lookup.
  case_bool_decide as Hder; [done|].
  apply reindex_lookup. intros Hk. apply Hder.
  unfold derived_fields. set_solver.
Qed.

Lemma db_get_refresh force clock c store k :
  db_get (refreshSearchIndices force clock c).2 store k
  = if decide (store = STORE_KEY_PAPERS) then
      visited force ["id"; "questions"; "keywords"]
        (clock STORE_KEY_PAPERS k) <$> db_get c store k
    else if decide (store = STORE_KEY_QUESTIONS) then
      visited force ["id"; "keywords"]
        (clock STORE_KEY_QUESTIONS k) <$> db_get c store k
    else db_get c store k.
Proof.
  unfold db_get.
  case_decide as HP; [subst; rewrite refresh_records_papers;
                      apply run_scan_records|].
  case_decide as HQ; [subst; rewrite refresh_records_questions;
                      apply run_scan_records|].
  rewrite refresh_spec. unfold records. cbn [snd db].
  by rewrite !lookup_insert_ne by done.
Qed.

(** X11.  An index rebuild shows through no getter: [getQuizPaper] and
    [getQuestions] return after [refreshSearchIndices] what they returned
    before, in every store the sanitized records are the same, and every
    property other than [keywords], [keywordsFrequency], [tagsFrequency]
    and [keywordsUpdatedTime] is as it was. *)
Theorem rebuild_invisible_to_getters force clock c :
  let c1 := (refreshSearchIndices force clock c).2 in
  (∀ id, getQuizPaper id c1 = getQuizPaper id c)
  ∧ (∀ ids, getQuestions ids c1 = getQuestions ids c)
  ∧ (∀ store id,
       (λ d, sanitizeIndices d true) <$> db_get c1 store id
       = (λ d, sanitizeIndices d true) <$> db_get c store id)
  ∧ (∀ store id field,
       field ∉ ["keywordsUpdatedTime"; "keywordsFrequency"; "keywords";
                "tagsFrequency"] →
       db_get c1 store id ≫= (.!! field) = db_get c store id ≫= (.!! field)).
Proof.
  cbv zeta.
  assert (∀ store id,
    (λ d, sanitizeIndices d true)
      <$> db_get (refreshSearchIndices force clock c).2 store id
    = (λ d, sanitizeIndices d true) <$> db_get c store id) as Hview.
  { intros store id. rewrite db_get_refresh.
    repeat case_decide; [| |done];
      (destruct (db_get c store id) as [d|]; [|done]);
      cbn [fmap option_fmap option_map]; by rewrite sanitize_visited. }
  split; [|split; [|split]].
  - intros id. apply Hview.
  - intros ids. unfold getQuestions. apply list_fmap_ext.
    intros _ id _. apply Hview.
  - done.
  - intros store id field Hfield. rewrite db_get_refresh.
    repeat case_decide; [| |done];
      (destruct (db_get c store id) as [d|]; [|done]);
      cbn [fmap option_fmap option_map mbind option_bind]; unfold visited;
      (destruct (needs_reindex force d); [|done]);
      by apply reindex_lookup.
Qed.

Lemma updated_length force excludedKeys clock (rs : gmap string doc) :
  length (updated (run_scan force excludedKeys clock rs))
  = length (filter (λ d, needs_reindex force d = true) (map_to_list rs).*2).
Proof.
  rewrite run_scan_updated, length_fmap. symmetry.
  by apply length_filter_fmap.
Qed.

Lemma filter_all {A} (P : A → Prop) `{∀ x, Decision (P x)} (l : list A) :
  Forall P l → filter P l = l.
Proof.
  induction 1 as [|x l Hx _ IH]; [done|].
  by rewrite filter_cons, decide_True, IH.
Qed.

(** X12.  [refreshSearchIndices] returns the number of stored questions and
    papers that needed re-indexing; with [force] this is the number of all
    stored questions and papers; and it returns 0 exactly when no stored
    question or paper needed re-indexing. *)
Theorem refresh_counts_stale_records force clock c :
  let stale store :=
    filter (λ d, needs_reindex force d = true) (_export store c) in
  (refreshSearchIndices force clock c).1
  = Z.of_nat (length (stale STORE_KEY_QUESTIONS))
    + Z.of_nat (length (stale STORE_KEY_PAPERS))
  ∧ (force = true →
     (refreshSearchIndices force clock c).1
     = Z.of_nat (size (records c STORE_KEY_QUESTIONS))
       + Z.of_nat (size (records c STORE_KEY_PAPERS)))
  ∧ ((refreshSearchIndices force clock c).1 = 0 ↔
     ∀ store id d,
       store ∈ [STORE_KEY_QUESTIONS; STORE_KEY_PAPERS] →
       db_get c store id = Some d → needs_reindex force d = false).
Proof.
  cbv zeta. rewrite refresh_count, !updated_length. unfold _export.
  split; [done|]. split.
  - intros ->. rewrite !filter_all, !length_fmap, !length_map_to_list; [done|..];
      by apply Forall_forall.
  - split.
    + intros Hzero store id d Hstore Hget.
      destruct (needs_reindex force d) eqn:Hneeds; [exfalso|done].
      assert (d ∈ filter (λ d, needs_reindex force d = true)
                    (map_to_list (records c store)).*2) as Hin.
      { apply list_elem_of_filter. split; [done|].
        apply list_elem_of_fmap. exists (id, d). split; [done|].
        by apply elem_of_map_to_list. }
      apply elem_of_cons in Hstore as [->|Hstore];
        [|apply list_elem_of_singleton in Hstore as ->];
        destruct (filter _ _) as [|? ?] eqn:Hf in Hin;
        try (by apply elem_of_nil in Hin);
        rewrite Hf in Hzero; cbn [length] in Hzero; lia.
    + intros Hfresh.
      rewrite !filter_none; [done|..]; apply Forall_forall;
        intros d ([id d'] & -> & Hin%elem_of_map_to_list)%list_elem_of_fmap;
        cbn [snd]; [rewrite (Hfresh STORE_KEY_PAPERS id d')
                   |rewrite (Hfresh STORE_KEY_QUESTIONS id d')];
        try done; set_solver.
Qed.

(** X13.  After a committed update at time [now] the stored record has
    [lastUpdate = now] and, if the keyword cache was invalidated, no
    [keywords].  The next rebuild without [force] re-indexes it exactly
    when it is not soft-deleted and its [keywords] or
    [keywordsUpdatedTime] is absent or its [keywordsUpdatedTime] is
    earlier than [now]: an update in the very millisecond of the last
    indexing is not picked up. *)
Theorem committed_update_awaits_reindex store id patch inv now c :
  is_Some (db_get c store id) →
  ∃ c' d',
    _update store id patch inv now c = (Ok id, c')
    ∧ db_get c' store id = Some d'
    ∧ d' !! "lastUpdate" = Some (VNum now)
    ∧ (inv = true → d' !! "keywords" = None)
    ∧ ∀ excludedKeys clock,
        id ∈ (_buildIndices store false excludedKeys clock c').1
        ↔ truthy (d' !! "deleted") = false
          ∧ (d' !! "keywords" = None
             ∨ d' !! "keywordsUpdatedTime" = None
             ∨ ∃ t, d' !! "keywordsUpdatedTime" = Some (VNum t) ∧ t < now).
Proof.
  intros [original Hget].
  destruct (update_read_existing store id patch inv now c original Hget)
    as (modified & Hplan & Hid & Hlu).
  assert (inv = true → modified !! "keywords" = None) as Hkw.
  { intros ->. unfold _update_read in Hplan. rewrite Hget in Hplan.
    injection Hplan as <-. do 3 (rewrite lookup_delete_ne by done).
    apply lookup_delete_eq. }
  unfold _update. rewrite Hplan.
  rewrite (update_write_commit store id original modified c Hid)
    by (unfold db_get in *; by rewrite Hget).
  assert (db_get
            (clear_cache
               (set_records c store (<[id := modified]> (records c store))))
            store id = Some modified) as Hget'.
  { rewrite db_get_clear_cache, db_get_set_records, decide_True by done.
    apply lookup_insert_eq. }
  eexists. exists modified. split; [done|]. split; [done|]. split; [done|].
  split; [done|]. intros excludedKeys clock.
  rewrite buildIndices_updated, Hget'. split.
  - intros (d & [= <-] & Hneeds).
    apply needs_reindex_spec in Hneeds as [?|(Hlive & Hstale)]; [done|].
    split; [done|].
    destruct Hstale as [?|[?|(kut & lu & Hkut & Hlu' & Hlt)]]; [by left|by right; left|].
    right; right. rewrite Hlu in Hlu'. injection Hlu' as <-.
    destruct kut as [| t | | |]; try done. exists t. split; [done|].
    by apply Z.ltb_lt.
  - intros (Hlive & Hstale). exists modified. split; [done|].
    apply needs_reindex_spec. right. split; [done|].
    destruct Hstale as [?|[?|(t & Hkut & Hlt)]]; [by left|by right; left|].
    right; right. exists (VNum t), (VNum now). split; [done|]. split; [done|].
    by apply Z.ltb_lt.
Qed.

Lemma omap_key_of_snd (l : list (string * doc)) :
  Forall (λ kv, key_of kv.2 = Some kv.1) l → omap key_of l.*2 = l.*1.
Proof.
  induction 1 as [|[k d] l Hk _ IH]; [done|].
  rewrite !fmap_cons. cbn [fst snd] in *.
  by rewrite (omap_key_of_cons _ _ _ Hk), IH.
Qed.

End StoreProperties.

(** ** Sets kept as lists *)

Lemma set_add_elem x y (s : list string) : x ∈ set_add y s ↔ x ∈ s ∨ x = y.
Proof.
  unfold set_add. case_decide as Hy.
  - split; [by left|]. by intros [?| ->].
  - rewrite elem_of_app, list_elem_of_singleton. done.
Qed.

Lemma set_add_NoDup y (s : list string) : NoDup s → NoDup (set_add y s).
Proof.
  intros Hs. unfold set_add. case_decide as Hy; [done|].
  apply NoDup_app. split; [done|]. split; [|apply NoDup_singleton].
  intros x Hx ->%list_elem_of_singleton. done.
Qed.

Lemma fold_set_add_elem (l s : list string) x :
  x ∈ fold_left (λ s q, set_add q s) l s ↔ x ∈ s ∨ x ∈ l.
Proof.
  revert s. induction l as [|y l IH]; intros s; cbn [fold_left].
  - split; [by left|]. by intros [?|?%elem_of_nil].
  - rewrite IH, set_add_elem, elem_of_cons. tauto.
Qed.

Lemma fold_set_add_NoDup (l s : list string) :
  NoDup s → NoDup (fold_left (λ s q, set_add q s) l s).
Proof.
  revert s. induction l as [|y l IH]; intros s Hs; cbn [fold_left]; [done|].
  by apply IH, set_add_NoDup.
Qed.

Lemma fold_union_elem {A} (g : A → list string) (l : list A)
    (s : list string) x :
  x ∈ fold_left (λ linked a, fold_left (λ s q, set_add q s) (g a) linked) l s
  ↔ x ∈ s ∨ ∃ a, a ∈ l ∧ x ∈ g a.
Proof.
  revert s. induction l as [|a l IH]; intros s; cbn [fold_left].
  - split; [by left|]. by intros [?|(a & ?%elem_of_nil & _)].
  - rewrite IH, fold_set_add_elem. split.
    + intros [[?|?]|(a' & ? & ?)]; [by left|right..].
      * exists a. split; [by left|done].
      * exists a'. split; [by right|done].
    + intros [?|(a' & [->|?]%elem_of_cons & ?)]; [by left; left|by left; right|].
      right. by exists a'.
Qed.

Lemma fold_union_NoDup {A} (g : A → list string) (l : list A)
    (s : list string) :
  NoDup s →
  NoDup (fold_left (λ linked a, fold_left (λ s q, set_add q s) (g a) linked)
           l s).
Proof.
  revert s. induction l as [|a l IH]; intros s Hs; cbn [fold_left]; [done|].
  by apply IH, fold_set_add_NoDup.
Qed.

Lemma fold_unless_filter (P : string → Prop) `{∀ x, Decision (P x)}
    (l s : list string) :
  NoDup (s ++ l) →
  fold_left (λ s id, if decide (P id) then s else set_add id s) l s
  = s ++ filter (λ id, ¬ P id) l.
Proof.
  revert s. induction l as [|y l IH]; intros s Hnd; cbn [fold_left].
  - by rewrite app_nil_r.
  - rewrite filter_cons. destruct (decide (P y)) as [Hy|Hy].
    + rewrite decide_False by tauto. apply IH.
      apply NoDup_app in Hnd as (Hs & Hdisj & Hl%NoDup_cons).
      apply NoDup_app. split; [done|]. split; [|tauto].
      intros x Hx Hxl. apply (Hdisj x Hx). by right.
    + rewrite decide_True by done.
      assert (y ∉ s) as Hys.
      { apply NoDup_app in Hnd as (_ & Hdisj & _).
        intros Hin. apply (Hdisj y Hin). by left. }
      unfold set_add. rewrite decide_False by done.
      rewrite IH; [by rewrite <- app_assoc|].
      by rewrite <- app_assoc.
Qed.

Lemma filter_length_complement {A} (P : A → Prop) `{∀ x, Decision (P x)}
    (l : list A) :
  (length (filter P l) + length (filter (λ x, ¬ P x) l) = length l)%nat.
Proof.
  induction l as [|x l IH]; [done|]. rewrite !filter_cons.
  destruct (decide (P x)).
  - rewrite decide_False by tauto. cbn [length]. lia.
  - rewrite decide_True by done. cbn [length]. lia.
Qed.

Section Unlinked.
Context `{Ext : Externals}.
Context (answered : doc → list string).
Implicit Types (c : controller) (d : doc).

Lemma linkedQuestions_elem c id :
  id ∈ linkedQuestions answered c
  ↔ (∃ paper, paper ∈ _export STORE_KEY_PAPERS c
              ∧ id ∈ strs (paper !! "questions"))
    ∨ (∃ result, result ∈ _export STORE_KEY_RESULTS c
                 ∧ id ∈ answered result).
Proof.
  unfold linkedQuestions. cbv zeta.
  rewrite (fold_union_elem answered), (fold_union_elem (λ paper, strs (paper !! "questions"))).
  split.
  - intros [[?%elem_of_nil|?]|?]; [done|by left|by right].
  - intros [?|?]; [left; by right|by right].
Qed.

Lemma delete_each_spec (l : list string) (n : Z) c :
  let r :=
    fold_left
      (λ '(count, c) id, (count + 1, db_delete STORE_KEY_QUESTIONS id c))
      l (n, c) in
  r.1 = n + Z.of_nat (length l)
  ∧ (∀ store k,
       db_get r.2 store k
       = if decide (store = STORE_KEY_QUESTIONS ∧ k ∈ l) then None
         else db_get c store k)
  ∧ general r.2 = general c
  ∧ cache r.2 = cache c.
Proof.
  revert n c. induction l as [|id l IH]; intros n c; cbv zeta.
  - cbn [fold_left fst snd length]. split; [lia|]. split; [|done].
    intros store k. rewrite decide_False; [done|].
    by intros [_ ?%elem_of_nil].
  - cbn [fold_left]. destruct (IH (n + 1) (db_delete STORE_KEY_QUESTIONS id c))
      as (H1 & H2 & H3 & H4).
    split; [rewrite H1; cbn [length]; lia|]. split; [|by rewrite H3, H4].
    intros store k. rewrite H2. unfold db_delete.
    rewrite db_get_set_records.
    destruct (decide (k = id)) as [->|Hne].
    + repeat case_decide; destruct_and?; subst; try done;
        try apply lookup_delete_eq; exfalso; set_solver.
    + repeat case_decide; destruct_and?; subst; try done;
        try (by rewrite lookup_delete_ne); exfalso; set_solver.
Qed.

Lemma deleteUnlinked_unfold c :
  deleteUnlinked answered c
  = fold_left
      (λ '(count, c) id, (count + 1, db_delete STORE_KEY_QUESTIONS id c))
      (filter (λ id, id ∉ linkedQuestions answered c)
         (keys (records c STORE_KEY_QUESTIONS)))
      (0, c).
Proof.
  unfold deleteUnlinked. cbv zeta.
  rewrite (fold_unless_filter (λ id, id ∈ linkedQuestions answered c))
    by apply keys_NoDup.
  done.
Qed.

Lemma records_ext c c' store :
  (∀ k, db_get c' store k = db_get c store k) →
  records c' store = records c store.
Proof. intros H. apply map_eq. intros k. apply H. Qed.

(** X14.  [deleteUnlinked] removes exactly the questions that no stored
    paper lists in [questions] and no stored result answers.  It returns
    the number of records removed, leaves the linked questions, the other
    stores, the BM25 caches and the score cache as they were, and a second
    call right after returns 0 and changes nothing. *)
Theorem deleteUnlinked_removes_unlinked c :
  let r := deleteUnlinked answered c in
  let linked id :=
    (∃ paper, paper ∈ _export STORE_KEY_PAPERS c
              ∧ id ∈ strs (paper !! "questions"))
    ∨ (∃ result, result ∈ _export STORE_KEY_RESULTS c
                 ∧ id ∈ answered result) in
  (∀ id, linked id →
     db_get r.2 STORE_KEY_QUESTIONS id = db_get c STORE_KEY_QUESTIONS id)
  ∧ (∀ id, ¬ linked id → db_get r.2 STORE_KEY_QUESTIONS id = None)
  ∧ (∀ store id, store ≠ STORE_KEY_QUESTIONS →
       db_get r.2 store id = db_get c store id)
  ∧ r.1 = Z.of_nat (size (records c STORE_KEY_QUESTIONS))
          - Z.of_nat (size (records r.2 STORE_KEY_QUESTIONS))
  ∧ general r.2 = general c
  ∧ cache r.2 = cache c
  ∧ deleteUnlinked answered r.2 = (0, r.2).
Proof.
  cbv zeta. rewrite deleteUnlinked_unfold.
  set (gone := filter (λ id, id ∉ linkedQuestions answered c)
                 (keys (records c STORE_KEY_QUESTIONS))).
  destruct (delete_each_spec gone 0 c) as (Hcount & Hget & Hgen & Hcache).
  cbv zeta in Hcount, Hget, Hgen, Hcache.
  set (r := fold_left _ gone (0, c)) in *.
  assert (∀ id, id ∈ gone
                ↔ (id ∉ linkedQuestions answered c)
                  ∧ is_Some (db_get c STORE_KEY_QUESTIONS id)) as Hgone.
  { intros id. subst gone. rewrite list_elem_of_filter, elem_of_keys. done. }
  assert (∀ store, store ≠ STORE_KEY_QUESTIONS →
            records r.2 store = records c store) as Hother.
  { intros store Hs. apply records_ext. intros k. rewrite Hget.
    rewrite decide_False; [done|]. tauto. }
  split; [|split; [|split; [|split; [|split; [done|split; [done|]]]]]].
  - intros id Hlinked. rewrite Hget. rewrite decide_False; [done|].
    intros [_ [Hnot _]%Hgone]. apply Hnot. by apply linkedQuestions_elem.
  - intros id Hnot. rewrite Hget.
    destruct (db_get c STORE_KEY_QUESTIONS id) as [d|] eqn:Hd;
      [|by case_decide].
    rewrite decide_True; [done|]. split; [done|]. apply Hgone.
    split; [|by rewrite Hd]. by rewrite linkedQuestions_elem.
  - intros store id Hs. rewrite Hget. rewrite decide_False; [done|]. tauto.
  - rewrite Hcount.
    assert (keys (records r.2 STORE_KEY_QUESTIONS)
            ≡ₚ filter (λ id, id ∈ linkedQuestions answered c)
                 (keys (records c STORE_KEY_QUESTIONS))) as Hperm.
    { apply NoDup_Permutation;
        [apply keys_NoDup|apply NoDup_filter, keys_NoDup|].
      intros id. rewrite list_elem_of_filter, !elem_of_keys.
      pose proof (Hget STORE_KEY_QUESTIONS id) as Hk.
      unfold db_get in Hk at 1. rewrite Hk.
      fold (db_get c STORE_KEY_QUESTIONS id).
      case_decide as Hdec.
      - split; [by intros []%is_Some_None|].
        intros [Hl _]. destruct Hdec as [_ [Hnot _]%Hgone]. done.
      - split; [|tauto]. intros Hsome. split; [|done].
        destruct (decide (id ∈ linkedQuestions answered c)); [done|].
        exfalso. apply Hdec. split; [done|]. by apply Hgone. }
    rewrite <- !length_map_to_list.
    rewrite <- !(length_fmap fst (map_to_list _)).
    fold (keys (records r.2 STORE_KEY_QUESTIONS)).
    fold (keys (records c STORE_KEY_QUESTIONS)).
    rewrite Hperm.
    pose proof (filter_length_complement
      (λ id, id ∈ linkedQuestions answered c)
      (keys (records c STORE_KEY_QUESTIONS))) as Hlen.
    subst gone. lia.
  - rewrite deleteUnlinked_unfold.
    assert (linkedQuestions answered r.2 = linkedQuestions answered c) as ->.
    { unfold linkedQuestions, _export. by rewrite !Hother by done. }
    rewrite filter_none; [done|]. apply Forall_forall.
    intros id [d Hd]%elem_of_keys Hnot. apply Hnot. clear Hnot.
    change (db_get r.2 STORE_KEY_QUESTIONS id = Some d) in Hd.
    rewrite Hget in Hd. case_decide as Hdec; [done|].
    destruct (decide (id ∈ linkedQuestions answered c)); [done|].
    exfalso. apply Hdec. split; [done|]. apply Hgone. by rewrite Hd.
Qed.

End Unlinked.

(** ** Further properties of the query engine *)

Lemma insert_desc_sorted x l :
  StronglySorted (λ a b : string * R, (b.2 <= a.2)%R) l →
  StronglySorted (λ a b : string * R, (b.2 <= a.2)%R) (insert_desc x l).
Proof.
  induction 1 as [|y l Hl IH Hy]; cbn [insert_desc].
  - repeat constructor.
  - destruct (Rlt_dec x.2 y.2) as [Hlt|Hge].
    + constructor; [done|]. rewrite insert_desc_perm.
      constructor; [lra|done].
    + constructor; [by constructor|].
      constructor; [lra|].
      eapply Forall_impl; [exact Hy|]. intros z Hz. cbn in Hz. lra.
Qed.

Lemma sort_desc_sorted l :
  StronglySorted (λ a b : string * R, (b.2 <= a.2)%R) (sort_desc l).
Proof.
  induction l as [|x l IH]; cbn [sort_desc foldr]; [constructor|].
  by apply insert_desc_sorted.
Qed.

Lemma expand_from_elem (f : string → list string) (query s : list string) t :
  t ∈ fold_left
        (λ expandedQuery qi,
           fold_left (λ s qj, set_add qj s) (f qi) (set_add qi expandedQuery))
        query s
  ↔ t ∈ s ∨ t ∈ query ∨ ∃ qi, qi ∈ query ∧ t ∈ f qi.
Proof.
  revert s. induction query as [|q query IH]; intros s; cbn [fold_left].
  - split; [by left|]. intros [?|[?%elem_of_nil|(? & ?%elem_of_nil & _)]]; done.
  - rewrite IH, fold_set_add_elem, set_add_elem. split.
    + intros [[[?| ->]|?]|[?|(qi & ? & ?)]].
      * by left.
      * right; left. by left.
      * right; right. exists q. split; [by left|done].
      * right; left. by right.
      * right; right. exists qi. split; [by right|done].
    + intros [?|[[->|?]%elem_of_cons|(qi & [->|?]%elem_of_cons & ?)]].
      * by left; left; left.
      * by left; left; right.
      * by right; left.
      * by left; right.
      * right; right. by exists qi.
Qed.

Lemma expand_from_NoDup (f : string → list string) (query s : list string) :
  NoDup s →
  NoDup (fold_left
           (λ expandedQuery qi,
              fold_left (λ s qj, set_add qj s) (f qi)
                (set_add qi expandedQuery))
           query s).
Proof.
  revert s. induction query as [|q query IH]; intros s Hs; cbn [fold_left];
    [done|].
  by apply IH, fold_set_add_NoDup, set_add_NoDup.
Qed.

Lemma set_add_absorbed y (s : list string) : y ∈ s → set_add y s = s.
Proof. intros Hy. unfold set_add. by rewrite decide_True. Qed.

Lemma fold_set_add_absorbed (l s : list string) :
  (∀ x, x ∈ l → x ∈ s) → fold_left (λ s q, set_add q s) l s = s.
Proof.
  induction l as [|y l IH]; intros Hl; cbn [fold_left]; [done|].
  rewrite set_add_absorbed by (apply Hl; by left).
  apply IH. intros x Hx. apply Hl. by right.
Qed.

Lemma expand_from_absorbed (f : string → list string)
    (query s : list string) :
  (∀ q, q ∈ query → q ∈ s ∧ ∀ t, t ∈ f q → t ∈ s) →
  fold_left
    (λ expandedQuery qi,
       fold_left (λ s qj, set_add qj s) (f qi) (set_add qi expandedQuery))
    query s
  = s.
Proof.
  induction query as [|q query IH]; intros Hq; cbn [fold_left]; [done|].
  destruct (Hq q) as [Hqs Hfs]; [by left|].
  rewrite set_add_absorbed by done.
  rewrite fold_set_add_absorbed by done.
  apply IH. intros q' Hq'. apply Hq. by right.
Qed.

(** X15.  The expanded query holds each term once: the query terms and the
    trie hits of the query terms, nothing else.  Terms repeated in the
    query do not change it. *)
Theorem expand_each_term_once (f : string → list string)
    (query more : list string) :
  NoDup (expand f query)
  ∧ (∀ t, t ∈ expand f query ↔ t ∈ query ∨ ∃ qi, qi ∈ query ∧ t ∈ f qi)
  ∧ ((∀ q, q ∈ more → q ∈ query) →
     expand f (query ++ more) = expand f query).
Proof.
  unfold expand. split; [|split].
  - apply expand_from_NoDup. constructor.
  - intros t. rewrite expand_from_elem. split; [|tauto].
    by intros [?%elem_of_nil|?].
  - intros Hmore. rewrite fold_left_app. apply expand_from_absorbed.
    intros q Hq. split.
    + apply expand_from_elem. right; left. by apply Hmore.
    + intros t Ht. apply expand_from_elem. right; right.
      exists q. split; [by apply Hmore|done].
Qed.

Lemma fold_sum_zero (f : string → R) (l : list string) (a : R) :
  (∀ qi, qi ∈ l → f qi = 0%R) →
  fold_left (λ score qi, (score + f qi)%R) l a = a.
Proof.
  revert a. induction l as [|q l IH]; intros a Hl; cbn [fold_left]; [done|].
  rewrite IH by (intros; apply Hl; by right).
  rewrite (Hl q) by (by left). lra.
Qed.

Lemma some_term_counts (f : string → R) (l : list string) :
  fold_left (λ score qi, (score + f qi)%R) l 0%R ≠ 0%R →
  ∃ qi, qi ∈ l ∧ f qi ≠ 0%R.
Proof.
  intros Hne.
  destruct (decide (Exists (λ qi, f qi ≠ 0%R) l)) as [Hex|Hno].
  - apply Exists_exists in Hex. done.
  - exfalso. apply Hne. apply fold_sum_zero. intros qi Hqi.
    destruct (decide (f qi = 0%R)) as [|Hf]; [done|].
    exfalso. apply Hno. apply Exists_exists. by exists qi.
Qed.

Lemma localTerm_nonzero (_idf : gmap string R) (freq : gmap string Z)
    (k1 b dl l : R) (qi : string) :
  localTerm _idf freq k1 b dl l qi ≠ 0%R →
  default 0 (freq !! qi) ≠ 0 ∧ default 0%R (_idf !! qi) ≠ 0%R.
Proof.
  unfold localTerm. intros Hne. split.
  - intros Hz. apply Hne. rewrite Hz. unfold Rdiv. ring.
  - intros Hz. apply Hne. rewrite Hz. unfold Rdiv. ring.
Qed.

Section Engine.
Context `{Ext : Externals}.
Implicit Types (c : controller) (d : doc).

(** X16.  The ranked list of [_buildScore] is in descending order of
    score, every score exceeds the threshold, no id is listed twice, and
    the list is what the cache then holds under the key. *)
Theorem ranking_descending key store query useTag k1 b threshold c :
  let ranked := (_buildScore key store query useTag k1 b threshold c).1 in
  StronglySorted (λ a b : string * R, (b.2 <= a.2)%R) ranked
  ∧ Forall (λ e, (e.2 > threshold)%R) ranked
  ∧ NoDup ranked.*1
  ∧ lru_lookup key (cache (_buildScore key store query useTag k1 b
                             threshold c).2) = Some ranked.
Proof.
  cbv zeta. split; [apply sort_desc_sorted|]. split; [|split].
  - apply Forall_forall. intros [id s] Hin.
    apply (buildScore_ranking key store query useTag k1 b threshold c) in Hin
      as (d & _ & _ & Hgt). done.
  - apply (buildScore_ranking key store query useTag k1 b threshold c).
  - unfold _buildScore. cbn [fst snd cache]. apply lru_lookup_set.
Qed.


Lemma length_omap_le {A B} (f : A → option B) (l : list A) :
  (length (omap f l) ≤ length l)%nat.
Proof.
  induction l as [|x l IH]; [done|]. cbn [omap list_omap].
  fold (@omap list _ A B). destruct (f x); cbn [length]; lia.
Qed.

(** X18.  A page holds at most [size = max(count ?? 1, 1)] records;
    [totalPages] is not negative; if no record has the empty id, a page
    index at or beyond [totalPages] gives an empty page; and a search
    answers as the search with the clamped count and page does. *)
Theorem search_page_bounds store query keywords useTag count page k1 b
    threshold c :
  let r := (_search store query keywords useTag count page k1 b threshold c).1 in
  let size := Z.max (default 1 count) 1 in
  let index := Z.max (default 0 page) 0 in
  Z.of_nat (length (result r)) ≤ size
  ∧ 0 ≤ totalPages r
  ∧ (db_get c store "" = None → totalPages r ≤ index → result r = [])
  ∧ r = (_search store query keywords useTag (Some size) (Some index) k1 b
           threshold c).1.
Proof.
  cbv zeta.
  destruct (search_spec store query keywords useTag count page k1 b
              threshold c) as (_ & _ & _ & Hres & Htp).
  set (ranked := served store keywords useTag k1 b threshold c) in *.
  set (size := Z.max (default 1 count) 1) in *.
  set (index := Z.max (default 0 page) 0) in *.
  assert (0 < size) as Hsize by (subst size; lia).
  assert (0 ≤ index) as Hindex by (subst index; lia).
  pose proof (ceil_div_spec (Z.of_nat (length ranked)) size Hsize) as Hceil.
  split; [|split; [|split]].
  - rewrite Hres. pose proof (length_omap_le (fetch store (Some ranked) c)
      (seq (Z.to_nat (index * size)) (Z.to_nat size))) as Hle.
    rewrite length_seq in Hle. lia.
  - rewrite Htp. nia.
  - intros Hempty Hlast. rewrite Hres, fetch_slice by done.
    rewrite drop_ge; [by rewrite take_nil|]. rewrite Htp in Hlast. nia.
  - unfold _search.
    replace (Z.max (default 1 (Some size)) 1) with size
      by (cbn; subst size; lia).
    replace (Z.max (default 0 (Some index)) 0) with index
      by (cbn; subst index; lia).
    destruct (lru_has _ _); [destruct (lru_get _ _)|destruct (_buildScore _ _ _ _ _ _ _ _)];
      reflexivity.
Qed.

End Engine.

Lemma append_cons c (s t : string) : String c s +:+ t = String c (s +:+ t).
Proof. reflexivity. Qed.

Lemma append_snoc_assoc (cur rest : string) a :
  (cur +:+ String a "") +:+ rest = cur +:+ String a rest.
Proof.
  induction cur as [|c cur IH]; [done|]. rewrite !append_cons. by rewrite IH.
Qed.

Lemma append_empty_r (s : string) : s +:+ "" = s.
Proof. induction s as [|c s IH]; [done|]. rewrite append_cons. by rewrite IH. Qed.

Lemma spaceless_snoc cur a :
  spaceless (cur +:+ String a "")
  = spaceless cur && negb (Ascii.eqb a Ascii.Space).
Proof.
  induction cur as [|c cur IH].
  - change ("" +:+ String a "") with (String a ""). cbn [spaceless].
    by rewrite andb_true_r.
  - rewrite append_cons. cbn [spaceless]. rewrite IH. by rewrite andb_assoc.
Qed.

Lemma split_spaces_spaceless query cur :
  spaceless cur = true →
  Forall (λ t, spaceless t = true) (split_spaces query cur).
Proof.
  revert cur. induction query as [|a rest IH]; intros cur Hcur;
    cbn [split_spaces].
  - by constructor.
  - destruct (Ascii.eqb a Ascii.Space) eqn:Ha.
    + constructor; [done|]. by apply IH.
    + apply IH. by rewrite spaceless_snoc, Hcur, Ha.
Qed.

Lemma split_spaces_whole query cur :
  spaceless query = true → split_spaces query cur = [cur +:+ query].
Proof.
  revert cur. induction query as [|a rest IH]; intros cur Hq;
    cbn [split_spaces].
  - by rewrite append_empty_r.
  - cbn [spaceless] in Hq. apply andb_true_iff in Hq as [Ha Hrest].
    apply negb_true_iff in Ha. rewrite Ha, IH by done.
    by rewrite append_snoc_assoc.
Qed.

(** X19.  The query terms of a tag search start with the whole query;
    every further term is a non-empty word without spaces; for a query
    without spaces the whole query is the only term. *)
Theorem tag_query_terms query :
  head (tag_query query) = Some query
  ∧ Forall (λ t, t ≠ "" ∧ spaceless t = true) (tail (tag_query query))
  ∧ (spaceless query = true → tag_query query = [query]).
Proof.
  unfold tag_query. cbv zeta.
  set (queryKeywords := filter (λ x, x ≠ "") (split_spaces query "")).
  assert (Forall (λ t, t ≠ "" ∧ spaceless t = true) queryKeywords) as Hall.
  { apply Forall_forall. intros t [Hne Hin]%list_elem_of_filter.
    split; [done|].
    pose proof (split_spaces_spaceless query "" eq_refl) as Hsp.
    rewrite Forall_forall in Hsp. by apply Hsp. }
  split; [|split].
  - case_decide as Hhead; [done|].
    destruct (decide (head queryKeywords = Some query)); done.
  - case_decide as Hhead; [done|].
    destruct queryKeywords as [|t l]; [done|].
    by apply Forall_cons in Hall as [_ Hall].
  - intros Hq. subst queryKeywords.
    rewrite (split_spaces_whole query "" Hq).
    change ("" +:+ query) with query.
    rewrite filter_cons, filter_nil.
    destruct (decide (query ≠ "")) as [Hne|He].
    + by rewrite decide_False by (by intros ?).
    + rewrite decide_True by done.
      destruct (decide (query = "")) as [->|]; done.
Qed.

(** ** The listings by paper *)

Section ListingFacts.
Context `{Ext : Externals}.

(** X20.  The schema creates the index [paperId] on the records and
    results stores, and the listings ask for [paperID]: [listQuizRecords]
    and [listQuizResults] for a given, non-empty paper id find no such
    index and are refused, whatever is stored.  Without a paper id, or
    with the empty one, they list the whole store. *)
Theorem listing_by_paper_is_refused quizPaperID c :
  quizPaperID ≠ "" →
  Schema.listQuizRecords (Some quizPaperID) c = None
  ∧ Schema.listQuizResults (Some quizPaperID) c = None
  ∧ Schema.getAllFromIndex STORE_KEY_RECORDS "paperId" quizPaperID c
    = Some (filter (λ d, d !! "paperId" = Some (VStr quizPaperID))
              (_export STORE_KEY_RECORDS c))
  ∧ Schema.getAllFromIndex STORE_KEY_RESULTS "paperId" quizPaperID c
    = Some (filter (λ d, d !! "paperId" = Some (VStr quizPaperID))
              (_export STORE_KEY_RESULTS c))
  ∧ Schema.listQuizRecords None c = Some (_export STORE_KEY_RECORDS c)
  ∧ Schema.listQuizRecords (Some "") c = Some (_export STORE_KEY_RECORDS c).
Proof.
  intros Hid.
  assert (truthy (VStr <$> Some quizPaperID) = true) as Htruthy.
  { cbn. apply negb_true_iff. by apply String.eqb_neq. }
  unfold Schema.listQuizRecords, Schema.listQuizResults.
  rewrite Htruthy. cbn [negb].
  unfold Schema.getAllFromIndex.
  assert (list_find (λ index : string * string, index.1 = "paperID")
            (default [] (Schema.opened !! STORE_KEY_RECORDS)) = None) as ->
    by (vm_compute; reflexivity).
  assert (list_find (λ index : string * string, index.1 = "paperID")
            (default [] (Schema.opened !! STORE_KEY_RESULTS)) = None) as ->
    by (vm_compute; reflexivity).
  assert (list_find (λ index : string * string, index.1 = "paperId")
            (default [] (Schema.opened !! STORE_KEY_RECORDS))
          = Some (2%nat, ("paperId", "paperId"))) as ->
    by (vm_compute; reflexivity).
  assert (list_find (λ index : string * string, index.1 = "paperId")
            (default [] (Schema.opened !! STORE_KEY_RESULTS))
          = Some (2%nat, ("paperId", "paperId"))) as ->
    by (vm_compute; reflexivity).
  done.
Qed.

End ListingFacts.

(** ** Quiz records *)

Section QuizFacts.
Context {Answers : Type}.
Implicit Types (store : gmap string (Quiz.QuizRecord Answers)).

Lemma updateQuiz_existing id record options now store old :
  store !! id = Some old →
  Quiz.qr_id _ old = id →
  ∃ new,
    Quiz.updateQuiz Answers id record options now store
    = (inr new, <[id := new]> store)
    ∧ Quiz.qr_id _ new = id
    ∧ Quiz.qr_updateTime _ new = default now (options ≫= Quiz.timestamp)
    ∧ Quiz.qr_timeUsed _ new
      = (if negb (default false (options ≫= Quiz.ignoreTimeUsed))
         then Quiz.qr_timeUsed _ old
              + (Quiz.qr_updateTime _ new - Quiz.qr_updateTime _ old)
         else default (Quiz.qr_timeUsed _ old) (Quiz.p_timeUsed _ record))
    ∧ Quiz.qr_answers _ new
      = default ∅ (Quiz.p_answers _ record) ∪ Quiz.qr_answers _ old.
Proof.
  intros Hold Hid. unfold Quiz.updateQuiz. rewrite Hold. cbv zeta.
  eexists. split; [cbn [Quiz.qr_id]; by rewrite Hid|]. done.
Qed.

(** X21.  [updateQuiz] keeps the record under its id whatever the patch
    says, and its time accounting telescopes: after any series of updates
    of a record (none with [ignoreTimeUsed]), [updateTime] is the clock of
    the last one and [timeUsed] has grown by the time from the first
    [updateTime] to the last, whatever [timeUsed] and [updateTime] the
    patches carry.  No answered question loses its answer and no other
    record changes. *)
Theorem quiz_time_telescopes id calls store old :
  store !! id = Some old →
  Quiz.qr_id _ old = id →
  let final := Quiz.updateQuiz_each Answers id calls store in
  ∃ new,
    final !! id = Some new
    ∧ Quiz.qr_id _ new = id
    ∧ Quiz.qr_updateTime _ new
      = default (Quiz.qr_updateTime _ old) (last calls.*2)
    ∧ Quiz.qr_timeUsed _ new
      = Quiz.qr_timeUsed _ old
        + (Quiz.qr_updateTime _ new - Quiz.qr_updateTime _ old)
    ∧ (∀ q, is_Some (Quiz.qr_answers _ old !! q) →
            is_Some (Quiz.qr_answers _ new !! q))
    ∧ ∀ id', id' ≠ id → final !! id' = store !! id'.
Proof.
  revert store old. induction calls as [|[record now] calls IH];
    intros store old Hold Hid; cbv zeta.
  - exists old. cbn. split; [done|]. split; [done|]. split; [done|].
    split; [lia|]. done.
  - unfold Quiz.updateQuiz_each. cbn [fold_left fst snd].
    destruct (updateQuiz_existing id record None now store old Hold Hid)
      as (mid & -> & Hmid & Htime & Hused & Hans). cbn [snd].
    destruct (IH (<[id := mid]> store) mid) as
      (new & Hnew & Hnid & Hntime & Hnused & Hnans & Hframe);
      [apply lookup_insert_eq|done|].
    exists new. cbn in Htime, Hused.
    split; [exact Hnew|]. split; [done|]. split; [|split; [|split]].
    + rewrite Hntime, fmap_cons. cbn [snd].
      destruct (calls.*2) as [|t l] eqn:Hc; [exact Htime|].
      rewrite last_cons_cons.
      destruct (last (t :: l)) as [x|] eqn:Hl; [done|].
      by apply last_None in Hl.
    + rewrite Hnused, Hused, Htime. lia.
    + intros q Hq. apply Hnans. rewrite Hans.
      destruct Hq as [a Ha].
      destruct (default ∅ (Quiz.p_answers Answers record) !! q)
        as [a'|] eqn:Hp.
      * exists a'. by apply lookup_union_Some_l.
      * exists a. rewrite lookup_union_r; done.
    + intros id' Hne. unfold Quiz.updateQuiz_each in Hframe.
      rewrite Hframe by done. by rewrite lookup_insert_ne.
Qed.

End QuizFacts.

(** ** The pagination control *)

Lemma numbers_buttons (raw : Z) (l : list Z) :
  Pagination.numbers ((λ i, Pagination._btn i (raw =? i)) <$> l) = l.
Proof.
  induction l as [|i l IH]; [done|].
  rewrite fmap_cons. unfold Pagination.numbers in *. cbn [omap list_omap].
  fold (@omap list _ Pagination.item Z). by rewrite IH.
Qed.

Lemma numbers_app (a b : list Pagination.item) :
  Pagination.numbers (a ++ b) = Pagination.numbers a ++ Pagination.numbers b.
Proof. apply omap_app. Qed.

Lemma selected_app (a b : list Pagination.item) :
  Pagination.selected_pages (a ++ b)
  = Pagination.selected_pages a ++ Pagination.selected_pages b.
Proof. apply omap_app. Qed.

Lemma numbers_btn i s (l : list Pagination.item) :
  Pagination.numbers (Pagination._btn i s :: l) = i :: Pagination.numbers l.
Proof. reflexivity. Qed.

Lemma numbers_dots (l : list Pagination.item) :
  Pagination.numbers (Pagination.Dots :: l) = Pagination.numbers l.
Proof. reflexivity. Qed.

Lemma selected_btn i s (l : list Pagination.item) :
  Pagination.selected_pages (Pagination._btn i s :: l)
  = (if s then [i] else []) ++ Pagination.selected_pages l.
Proof. by destruct s. Qed.

Lemma selected_dots (l : list Pagination.item) :
  Pagination.selected_pages (Pagination.Dots :: l)
  = Pagination.selected_pages l.
Proof. reflexivity. Qed.

Lemma selected_buttons_none (raw : Z) (l : list Z) :
  raw ∉ l →
  Pagination.selected_pages ((λ i, Pagination._btn i (raw =? i)) <$> l) = [].
Proof.
  induction l as [|i l IH]; intros Hnot; [done|].
  rewrite fmap_cons. unfold Pagination.selected_pages in *.
  cbn [omap list_omap Pagination._btn].
  fold (@omap list _ Pagination.item Z).
  destruct (Z.eqb_spec raw i) as [->|Hne].
  - exfalso. apply Hnot. by left.
  - apply IH. intros ?. apply Hnot. by right.
Qed.

Lemma selected_buttons_window (raw m n : Z) :
  m ≤ raw < m + n →
  Pagination.selected_pages
    ((λ i, Pagination._btn i (raw =? i)) <$> seqZ m n) = [raw].
Proof.
  intros Hin.
  replace n with ((raw - m) + (1 + (m + n - raw - 1))) by lia.
  rewrite seqZ_app by lia. rewrite (seqZ_app _ 1) by lia.
  rewrite !fmap_app. unfold Pagination.selected_pages.
  rewrite !omap_app.
  fold (Pagination.selected_pages
          ((λ i, Pagination._btn i (raw =? i)) <$> seqZ m (raw - m))).
  replace (m + (raw - m)) with raw by lia.
  fold (Pagination.selected_pages
          ((λ i, Pagination._btn i (raw =? i))
             <$> seqZ (raw + 1) (m + n - raw - 1))).
  rewrite (selected_buttons_none raw (seqZ m (raw - m)))
    by (rewrite elem_of_seqZ; lia).
  rewrite (seqZ_cons raw 1), seqZ_nil by lia.
  cbn [fmap list_fmap omap list_omap Pagination._btn app].
  rewrite Z.eqb_refl.
  by rewrite selected_buttons_none by (rewrite elem_of_seqZ; lia).
Qed.

Lemma seqZ_sorted (m n : Z) : StronglySorted Z.lt (seqZ m n).
Proof.
  destruct (Z.le_gt_cases n 0) as [Hn|Hn]; [rewrite seqZ_nil by done; constructor|].
  rewrite <- (Z2Nat.id n) by lia. generalize (Z.to_nat n) as k. clear.
  intros k. revert m. induction k as [|k IH]; intros m.
  - rewrite seqZ_nil by lia. constructor.
  - rewrite seqZ_cons by lia. constructor.
    + replace (Z.pred (Z.of_nat (S k))) with (Z.of_nat k) by lia. apply IH.
    + apply Forall_forall. intros i Hi%elem_of_seqZ. lia.
Qed.

(** X22.  With at least one page, [handlePageChange] calls [setPage] only
    with a page between 1 and [totalPages] that differs from the current
    one (the requested page itself when that is in range), and does not
    call it when the clamped page is the current page.  With no page
    ([totalPages < 1]) it asks for page [totalPages], whatever page was
    requested. *)
Theorem page_change_stays_in_range currentPageRaw totalPages page :
  (1 ≤ totalPages →
   match Pagination.handlePageChange currentPageRaw totalPages page with
   | Some p =>
       1 ≤ p ≤ totalPages ∧ p ≠ currentPageRaw
       ∧ (1 ≤ page ≤ totalPages → p = page)
   | None => 1 ≤ currentPageRaw ≤ totalPages
   end)
  ∧ (totalPages < 1 →
     Pagination.handlePageChange currentPageRaw totalPages page
     = if decide (totalPages ≠ currentPageRaw) then Some totalPages
       else None).
Proof.
  unfold Pagination.handlePageChange. cbv zeta. split.
  - intros Htotal. destruct (Z.ltb_spec page 1).
    + destruct (Z.ltb_spec totalPages 1); [lia|]. case_decide; lia.
    + destruct (Z.ltb_spec totalPages page); case_decide; lia.
  - intros Htotal. destruct (Z.ltb_spec page 1).
    + destruct (Z.ltb_spec totalPages 1); [done|lia].
    + destruct (Z.ltb_spec totalPages page); [done|lia].
Qed.

(** X23.  For a current page between 1 and [totalPages], the buttons show
    strictly increasing page numbers from 1 to [totalPages], the current
    page among them, and exactly the current page is shown as
    selected. *)
Theorem page_numbers_in_order currentPageRaw totalPages _nearPages :
  1 ≤ currentPageRaw ≤ totalPages →
  let pages :=
    Pagination.renderPageNumbers currentPageRaw totalPages _nearPages in
  StronglySorted Z.lt (Pagination.numbers pages)
  ∧ head (Pagination.numbers pages) = Some 1
  ∧ last (Pagination.numbers pages) = Some totalPages
  ∧ currentPageRaw ∈ Pagination.numbers pages
  ∧ Pagination.selected_pages pages = [currentPageRaw].
Proof.
  intros Hrange. cbv zeta. unfold Pagination.renderPageNumbers.
  assert (Pagination.clamp currentPageRaw totalPages = (currentPageRaw, 0))
    as ->.
  { unfold Pagination.clamp.
    destruct (Z.ltb_spec currentPageRaw 1); [lia|].
    destruct (Z.ltb_spec totalPages currentPageRaw); [lia|done]. }
  assert (0 ≤ Pagination.nearPages _nearPages) as Hnear
    by (unfold Pagination.nearPages; lia).
  set (near := Pagination.nearPages _nearPages) in *.
  cbv zeta. cbn [Z.eqb app].
  destruct (Z.ltb_spec 0 (currentPageRaw - near - 1)) as [Hs|Hs];
    destruct (Z.ltb_spec 0 (totalPages - (currentPageRaw + near))) as [He|He];
    cbn [app];
    repeat rewrite ?numbers_btn, ?numbers_dots, ?selected_btn, ?selected_dots,
      ?numbers_app, ?selected_app, ?numbers_buttons;
    rewrite selected_buttons_window by lia;
    match goal with
    | |- context [seqZ ?m ?n] =>
        pose proof (seqZ_sorted m n) as Hsorted;
        pose proof (λ k, proj1 (elem_of_seqZ m n k)) as Hbound;
        pose proof (proj2 (elem_of_seqZ m n currentPageRaw) ltac:(lia))
          as Hcur;
        assert (head (seqZ m n) = Some m) as Hhead
          by (rewrite seqZ_cons by lia; done);
        assert (last (seqZ m n) = Some (m + n - 1)) as Hlast
          by (replace n with (Z.succ (n - 1)) at 1 by lia;
              rewrite <- (Z2Nat.id (n - 1)) at 1 by lia;
              rewrite <- Nat2Z.inj_succ, seqZ_S, last_snoc;
              f_equal; lia);
        generalize dependent (seqZ m n)
    end; intros window Hsorted Hbound Hcur Hhead Hlast;
    cbn [Pagination.numbers Pagination.selected_pages omap list_omap
         Pagination._btn app].
  - (* both ellipses *)
    destruct (Z.eqb_spec currentPageRaw 1); [lia|].
    destruct (Z.eqb_spec currentPageRaw totalPages); [lia|].
    cbn [app]. split; [|split; [done|split; [|split; [|done]]]].
    + constructor.
      * apply StronglySorted_app_2; [|done|repeat constructor].
        intros x y Hx ->%list_elem_of_singleton. apply Hbound in Hx. lia.
      * apply Forall_app. split.
        -- apply Forall_forall. intros x Hx%Hbound. lia.
        -- repeat constructor. lia.
    + by rewrite app_comm_cons, last_snoc.
    + apply elem_of_cons. right. apply elem_of_app. by left.
  - (* leading ellipsis only *)
    destruct (Z.eqb_spec currentPageRaw 1); [lia|].
    cbn [app].
    split; [|split; [done|split; [|split; [|done]]]].
    + constructor; [done|]. apply Forall_forall. intros x Hx%Hbound. lia.
    + destruct window as [|w ws]; [done|].
      rewrite last_cons_cons, Hlast. f_equal. lia.
    + apply elem_of_cons. by right.
  - (* trailing ellipsis only *)
    destruct (Z.eqb_spec currentPageRaw totalPages); [lia|].
    cbn [app]. split; [|split; [|split; [|split; [|done]]]].
    + apply StronglySorted_app_2; [|done|repeat constructor].
      intros x y Hx ->%list_elem_of_singleton. apply Hbound in Hx. lia.
    + by destruct window.
    + by rewrite last_snoc.
    + apply elem_of_app. by left.
  - (* no ellipsis *)
    split; [done|]. split; [done|]. split; [|done].
    rewrite Hlast. f_equal. lia.
Qed.

(** ** Import and export of the whole database *)

Section DataFacts.
Context `{Ext : Externals}.
Implicit Types (c : controller) (d : doc).

Lemma add_all_general_fresh (items : list (string * Bm25Cache))
    (g : gmap string Bm25Cache) :
  NoDup items.*1 →
  (∀ k, k ∈ items.*1 → g !! k = None) →
  add_all_general items g = Ok (list_to_map items ∪ g).
Proof.
  revert g. induction items as [|[k v] items IH]; intros g Hnd Hfresh.
  - cbn. by rewrite (left_id_L ∅ (∪)).
  - rewrite fmap_cons in Hnd, Hfresh. cbn [fst] in Hnd, Hfresh.
    apply NoDup_cons in Hnd as [Hk Hnd].
    cbn [add_all_general]. rewrite (Hfresh k) by (by left).
    rewrite IH; [|done|].
    + f_equal. cbn [list_to_map foldr fst snd]. rewrite <- insert_union_l.
      symmetry. apply insert_union_r. by apply not_elem_of_list_to_map.
    + intros k' Hk'. rewrite lookup_insert_ne by (by intros ->).
      apply Hfresh. by right.
Qed.

Lemma import_export_store store c c0 :
  keyed c →
  records c0 store = ∅ →
  ∃ c1,
    _import store (_export store c) c0 = (Ok (keys (records c store)), c1)
    ∧ records c1 store = records c store
    ∧ (∀ store', store' ≠ store → records c1 store' = records c0 store')
    ∧ general c1 = general c0
    ∧ cache c1 = cache c0.
Proof.
  intros Hkeyed Hempty.
  assert (omap key_of (_export store c) = keys (records c store)) as Hkeys.
  { unfold _export, keys. apply omap_key_of_snd. apply Forall_forall.
    intros [k d] Hin%elem_of_map_to_list. by apply (Hkeyed store). }
  destruct (import_accepted store (_export store c) c0)
    as (c1 & Hrun & Hin & Hout & Hother & Hgen & Hcache).
  { split; [|split].
    - apply Forall_forall.
      intros d ([k d'] & -> & Hel%elem_of_map_to_list)%list_elem_of_fmap.
      cbn [snd]. rewrite (Hkeyed store k d' Hel). by eexists.
    - rewrite Hkeys. apply keys_NoDup.
    - intros k _. unfold db_get. by rewrite Hempty, lookup_empty. }
  rewrite Hkeys in Hrun, Hout.
  exists c1. split; [done|]. split; [|split; [|done]].
  - apply map_eq. intros k.
    destruct (records c store !! k) as [d|] eqn:Hk.
    + apply (Hin d k); [|by apply (Hkeyed store)].
      apply list_elem_of_fmap. exists (k, d). split; [done|].
      by apply elem_of_map_to_list.
    + change (db_get c1 store k = None). rewrite Hout.
      * unfold db_get. by rewrite Hempty, lookup_empty.
      * rewrite elem_of_keys, Hk. by intros []%is_Some_None.
  - intros store' Hne. apply records_ext. intros k. by apply Hother.
Qed.

Lemma records_of_empty_db c store : db c = ∅ → records c store = ∅.
Proof. intros Hdb. unfold records. by rewrite Hdb, lookup_empty. Qed.

(** X24.  [exportData] followed by [importData] into an empty database
    restores every object store and the BM25 caches, when every record
    carries its key in [id]. *)
Theorem export_import_whole_database c c0 :
  keyed c →
  db c0 = ∅ →
  general c0 = ∅ →
  ∃ c1,
    importData (exportData c) c0 = (Ok (), c1)
    ∧ (∀ store,
         store ∈ [STORE_KEY_PAPERS; STORE_KEY_QUESTIONS; STORE_KEY_RECORDS;
                  STORE_KEY_RESULTS; STORE_KEY_STATS] →
         records c1 store = records c store
         ∧ _export store c1 = _export store c)
    ∧ general c1 = general c
    ∧ cache c1 = cache c0.
Proof.
  intros Hkeyed Hdb Hgen0.
  pose proof (records_of_empty_db c0) as Hempty.
  unfold importData, exportData, and_then. cbn [qd_papers qd_questions
    qd_records qd_results qd_stats qd_general].
  destruct (import_export_store STORE_KEY_PAPERS c c0 Hkeyed)
    as (c1 & -> & HP1 & Ho1 & Hg1 & Hc1); [by apply Hempty|].
  destruct (import_export_store STORE_KEY_QUESTIONS c c1 Hkeyed)
    as (c2 & -> & HQ2 & Ho2 & Hg2 & Hc2);
    [rewrite Ho1 by done; by apply Hempty|].
  destruct (import_export_store STORE_KEY_RECORDS c c2 Hkeyed)
    as (c3 & -> & HR3 & Ho3 & Hg3 & Hc3);
    [rewrite Ho2, Ho1 by done; by apply Hempty|].
  destruct (import_export_store STORE_KEY_RESULTS c c3 Hkeyed)
    as (c4 & -> & HS4 & Ho4 & Hg4 & Hc4);
    [rewrite Ho3, Ho2, Ho1 by done; by apply Hempty|].
  destruct (import_export_store STORE_KEY_STATS c c4 Hkeyed)
    as (c5 & -> & HT5 & Ho5 & Hg5 & Hc5);
    [rewrite Ho4, Ho3, Ho2, Ho1 by done; by apply Hempty|].
  unfold _import_general.
  rewrite add_all_general_fresh;
    [|apply NoDup_fst_map_to_list
     |intros k _; by rewrite Hg5, Hg4, Hg3, Hg2, Hg1, Hgen0, lookup_empty].
  eexists. split; [done|].
  assert (∀ store, records {| db := db c5;
                              general := list_to_map (map_to_list (general c))
                                         ∪ general c5;
                              cache := cache c5 |} store
                   = records c5 store) as Hrec by done.
  split; [|split].
  - intros store Hstore.
    assert (records c5 store = records c store) as Heq.
    { repeat (apply elem_of_cons in Hstore as [->|Hstore]).
      - by rewrite Ho5, Ho4, Ho3, Ho2 by done.
      - by rewrite Ho5, Ho4, Ho3 by done.
      - by rewrite Ho5, Ho4 by done.
      - by rewrite Ho5 by done.
      - done.
      - by apply elem_of_nil in Hstore. }
    split; [by rewrite Hrec|]. unfold _export. by rewrite Hrec, Heq.
  - cbn [general]. rewrite list_to_map_to_list.
    rewrite Hg5, Hg4, Hg3, Hg2, Hg1, Hgen0. apply (right_id_L ∅ (∪)).
  - cbn [cache]. by rewrite Hc5, Hc4, Hc3, Hc2, Hc1.
Qed.


(** X26.  Sanitizing twice is sanitizing once, with the tags retained only
    if both passes retain them; without [retainTags] the result is the one
    with tags retained, less [tags]; [categories] stays either way. *)
Theorem sanitize_twice d retainTags retainTags' :
  sanitizeIndices (sanitizeIndices d retainTags) retainTags'
  = sanitizeIndices d (retainTags && retainTags')
  ∧ sanitizeIndices d false = delete "tags" (sanitizeIndices d true)
  ∧ sanitizeIndices d false !! "categories" = d !! "categories".
Proof.
  split; [|split].
  - apply map_eq. intros k. unfold sanitizeIndices.
    destruct retainTags, retainTags'; cbn [negb andb];
      rewrite !lookup_delete; repeat case_decide; done.
  - done.
  - unfold sanitizeIndices. cbn [negb].
    by repeat (rewrite lookup_delete_ne by done).
Qed.

End DataFacts.

(** * Statements evaluated on the sample data *)

#[local] Existing Instance Toy.externals.

(** The only record of a store built from one record. *)
Lemma with_records_single store k0 (d0 : doc) store' k d :
  db_get (Toy.with_records store [(k0, d0)]) store' k = Some d →
  store' = store ∧ k = k0 ∧ d = d0.
Proof.
  unfold db_get, records, Toy.with_records. cbn [db list_to_map foldr].
  destruct (decide (store = store')) as [<-|Hne].
  - rewrite lookup_singleton_eq. cbn [default from_option id].
    unfold Datatypes.id. rewrite lookup_insert. case_decide.
    + intros [= <-]. by subst.
    + simpl. by rewrite lookup_empty.
  - rewrite lookup_singleton_ne by done. simpl. by rewrite lookup_empty.
Qed.

(** C1 on [questions0]: two updates read the record stamped 5; the one
    that writes first, at time 6, commits and the other is refused. *)
Lemma update_optimistic_lock_witness :
  db_get Sample.questions0 "questions" "q" = Some Sample.q0
  ∧ Sample.q0 !! "lastUpdate" ≠ Some (VNum 6)
  ∧ ∃ modified c1,
      _update_read "questions" "q" {[ "name" := VStr "A" ]} false 6
        Sample.questions0
      = PlanCommit Sample.q0 modified
      ∧ modified !! "lastUpdate" = Some (VNum 6)
      ∧ _update_write "questions" "q" (PlanCommit Sample.q0 modified)
          Sample.questions0
        = (Ok "q", c1)
      ∧ _update_write "questions" "q"
          (_update_read "questions" "q" {[ "name" := VStr "B" ]} false 7
             Sample.questions0) c1
        = (Throw DataModified, c1).
Proof.
  assert (Sample.q0 !! "lastUpdate" ≠ Some (VNum 6)) as Hfresh
    by (vm_compute; discriminate).
  split; [reflexivity|]. split; [exact Hfresh|].
  destruct (update_optimistic_lock "questions" "q" {[ "name" := VStr "A" ]}
              false 6 Sample.questions0 Sample.q0 eq_refl)
    as (modified & Hplan & _ & Hlu & _ & _ & _ & Hrace).
  destruct (Hrace Hfresh {[ "name" := VStr "B" ]} false 7)
    as (c1 & HA & HB).
  exists modified, c1. repeat split; assumption.
Defined.

(** C1, refuted as stated: the first update writes at time 5, the very
    [lastUpdate] both read, and the second commits over it. *)
Lemma update_same_millisecond_both_commit :
  let c0 := Sample.questions0 in
  let planA :=
    _update_read "questions" "q" {[ "name" := VStr "A" ]} false 5 c0 in
  let planB :=
    _update_read "questions" "q" {[ "name" := VStr "B" ]} false 6 c0 in
  ∃ c1 c2,
    _update_write "questions" "q" planA c0 = (Ok "q", c1)
    ∧ _update_write "questions" "q" planB c1 = (Ok "q", c2)
    ∧ db_get c1 "questions" "q" ≫= (.!! "name") = Some (VStr "A")
    ∧ db_get c2 "questions" "q" ≫= (.!! "name") = Some (VStr "B").
Proof.
  do 2 eexists. split; [|split; [|split]].
  - vm_compute. reflexivity.
  - vm_compute. reflexivity.
  - vm_compute. reflexivity.
  - vm_compute. reflexivity.
Qed.

(** C7 on [papers0] and the id [b], which it does not hold. *)
Lemma missing_id_never_raises_witness :
  db_get Sample.papers0 "papers" "b" = None
  ∧ (∃ c', _update "papers" "b" {[ "name" := VStr "B" ]} false 7
             Sample.papers0 = (Ok "b", c'))
  ∧ _delete "papers" "b" true 7 Sample.papers0 = (Ok false, Sample.papers0)
  ∧ getQuizPaper "b" Sample.papers0 = None.
Proof.
  destruct (missing_id_never_raises "papers" "b" {[ "name" := VStr "B" ]}
              false true 7 Sample.papers0 eq_refl)
    as ((c' & Hup & _) & Hdel & Hget & _).
  split; [reflexivity|]. split; [by exists c'|].
  split; [exact Hdel|]. exact (Hget eq_refl).
Defined.

(** C9 on [papers0]: the patch says [zzz], the record stays under [a]. *)
Lemma update_commits_under_id_witness :
  let patch : doc := {[ "id" := VStr "zzz"; "name" := VStr "B" ]} in
  let r :=
    _update_write "papers" "a"
      (_update_read "papers" "a" patch false 7 Sample.papers0)
      Sample.papers0 in
  r = (Ok "a", r.2)
  ∧ ∃ d, db_get r.2 "papers" "a" = Some d ∧ d !! "id" = Some (VStr "a").
Proof.
  cbv zeta.
  assert (_update_write "papers" "a"
            (_update_read "papers" "a"
               {[ "id" := VStr "zzz"; "name" := VStr "B" ]} false 7
               Sample.papers0) Sample.papers0
          = (Ok "a",
             (_update_write "papers" "a"
                (_update_read "papers" "a"
                   {[ "id" := VStr "zzz"; "name" := VStr "B" ]} false 7
                   Sample.papers0) Sample.papers0).2)) as Hrun
    by (vm_compute; reflexivity).
  split; [exact Hrun|].
  exact (proj2 (update_commits_under_id _ _ _ _ _ _ _ _ _ Hrun)).
Defined.

(** C8 on [papers0]: an update and a soft delete of the stored paper. *)
Lemma mutation_clears_score_cache_witness :
  is_Some (db_get Sample.papers0 "papers" "a")
  ∧ (∃ c', _update "papers" "a" {[ "name" := VStr "B" ]} false 7
             Sample.papers0 = (Ok "a", c') ∧ cache c' = [])
  ∧ (∃ c', _delete "papers" "a" false 7 Sample.papers0 = (Ok true, c')
           ∧ cache c' = []).
Proof.
  assert (is_Some (db_get Sample.papers0 "papers" "a")) as Hex
    by (eexists; reflexivity).
  destruct (mutation_clears_score_cache "papers" "a"
              {[ "name" := VStr "B" ]} false false 7 false (λ _ _, 7)
              Sample.papers0) as (Hup & Hdel & _).
  split; [exact Hex|]. split.
  - destruct (Hup Hex) as (c' & H1 & H2 & _). by exists c'.
  - assert (_delete "papers" "a" false 7 Sample.papers0
            = (Ok true, (_delete "papers" "a" false 7 Sample.papers0).2))
      as Hrun by (vm_compute; reflexivity).
    eexists. split; [exact Hrun|]. exact (proj1 (Hdel _ Hrun)).
Defined.

(** C6, refuted as stated: the paper carries a [lastUpdate] (10) later than
    the clock of the rebuilds (5, then 6), and the second call re-indexes
    it again. *)
Lemma refresh_future_lastUpdate_reindexes_again :
  let c1 := (refreshSearchIndices false (λ _ _, 5) Sample.papers_future).2 in
  let r2 := refreshSearchIndices false (λ _ _, 6) c1 in
  r2.1 = 1
  ∧ db_get c1 "papers" "a" ≫= (.!! "keywordsUpdatedTime") = Some (VNum 5)
  ∧ db_get r2.2 "papers" "a" ≫= (.!! "keywordsUpdatedTime")
    = Some (VNum 6).
Proof.
  cbv zeta. unfold db_get.
  rewrite refresh_count, !refresh_records_papers, !refresh_records_questions.
  split; [vm_compute; reflexivity|].
  split; vm_compute; reflexivity.
Qed.

(** C6 on [papers0], whose paper was last updated before the rebuild. *)
Lemma refresh_idempotent_witness :
  let c1 := (refreshSearchIndices true (λ _ _, 5) Sample.papers0).2 in
  refreshSearchIndices false (λ _ _, 6) c1 = (0, c1).
Proof.
  refine (proj2 (proj2 (proj2
    (refresh_idempotent true (λ _ _, 5) (λ _ _, 6) Sample.papers0 _)))).
  intros store k d lu _ Hget _ _ Hlu.
  apply with_records_single in Hget as (_ & _ & ->).
  vm_compute in Hlu. injection Hlu as <-. lia.
Defined.




(** C8, refuted as stated: the ranking cached by a search is still in the
    cache after an update that creates its record. *)
Lemma update_create_keeps_score_cache :
  let key := CacheKey "papers" [] false 1.5 0.75 1e-10 in
  let c0 :=
    (_search "papers" "" [] false None None 1.5 0.75 1e-10
       Toy.empty_controller).2 in
  ∃ c1,
    _update "papers" "p" {[ "name" := VStr "P" ]} false 1 c0 = (Ok "p", c1)
    ∧ lru_has (cache c1) key = true
    ∧ cache c1 ≠ [].
Proof.
  cbv zeta.
  destruct (search_spec "papers" "" [] false None None 1.5 0.75 1e-10
              Toy.empty_controller) as (Hdb & _ & Hcache & _).
  set (c0 := (_search "papers" "" [] false None None 1.5 0.75 1e-10
                Toy.empty_controller).2) in *.
  assert (db_get c0 "papers" "p" = None) as Hget.
  { unfold db_get, records. by rewrite Hdb. }
  eexists. split; [by apply update_create|].
  unfold set_records. cbn [cache]. unfold lru_has. rewrite Hcache.
  split; [done|]. intros Hnil. by rewrite Hnil in Hcache.
Qed.





(** X3 on two entries joined by a comma; the second holds a space. *)
Lemma parse_join_round_trip_witness :
  Text.parseCommaSeparatedArray
    (Text.join 44 [[97]; [98; 32; 99]])
    Text.default_separators Text.default_spaces
  = [[97]; [98; 32; 99]].
Proof.
  apply parse_join_round_trip.
  - discriminate.
  - compute_done.
  - unfold Text.plain. compute_done.
  - repeat constructor.
  - discriminate.
Defined.

(** X4 with the defaults: after a full-width comma, and after a comma. *)
Lemma parse_trailing_separator_witness :
  Text.parseCommaSeparatedArray
    (Text.join 65292 [[97]] ++ [65292])
    Text.default_separators Text.default_spaces
  = [[97]; []]
  ∧ Text.parseCommaSeparatedArray
      (Text.join 44 [[97]] ++ [44])
      Text.default_separators Text.default_spaces
    = [[97]].
Proof.
  split.
  - apply (parse_trailing_separator Text.default_separators
             Text.default_spaces 65292 [[97]]).
    + discriminate.
    + compute_done.
    + unfold Text.plain. compute_done.
    + repeat constructor.
    + discriminate.
  - apply (parse_trailing_separator Text.default_separators
             Text.default_spaces 44 [[97]]).
    + discriminate.
    + compute_done.
    + unfold Text.plain. compute_done.
    + repeat constructor.
    + discriminate.
Defined.

(** X6 on an escaped comma. *)
Lemma parse_escape_witness :
  Text.parseCommaSeparatedArray ([97] ++ Text.backslash :: 44 :: [98])
    Text.default_separators Text.default_spaces
  = [[97; 44; 98]].
Proof.
  apply (parse_escape Text.default_separators Text.default_spaces
           [97] 44 [98]).
  - unfold Text.plain. compute_done.
  - unfold Text.plain. compute_done.
Defined.

(** The record of [papers0] carries its key. *)
Lemma keyed_papers0 : keyed Sample.papers0.
Proof.
  intros store k d Hget.
  by apply with_records_single in Hget as (_ & -> & ->).
Qed.

(** X8 on [papers0] and an update whose patch says [zzz]. *)
Lemma stored_records_carry_their_key_witness :
  keyed Sample.papers0
  ∧ keyed (_update "papers" "a" {[ "id" := VStr "zzz" ]} false 7
             Sample.papers0).2.
Proof.
  split; [exact keyed_papers0|].
  exact (proj1 (proj2 (proj2
    (stored_records_carry_their_key Sample.papers0 keyed_papers0)))
    "papers" "a" {[ "id" := VStr "zzz" ]} false 7).
Defined.

(** X9 on the paper of [papers0]. *)
Lemma hard_delete_removes_witness :
  is_Some (db_get Sample.papers0 "papers" "a")
  ∧ ∃ c',
      _delete "papers" "a" true 7 Sample.papers0 = (Ok true, c')
      ∧ db_get c' "papers" "a" = None
      ∧ _delete "papers" "a" true 8 c' = (Ok false, c').
Proof.
  assert (is_Some (db_get Sample.papers0 "papers" "a")) as Hex
    by (eexists; reflexivity).
  split; [exact Hex|].
  destruct (hard_delete_removes "papers" "a" 7 Sample.papers0 Hex)
    as (c' & Hrun & Hget & _ & _ & Hagain).
  exists c'. split; [exact Hrun|]. split; [exact Hget|]. apply Hagain.
Defined.

(** X10 on the paper of [papers0]. *)
Lemma soft_delete_keeps_record_witness :
  ∃ c',
    _delete "papers" "a" false 7 Sample.papers0 = (Ok true, c')
    ∧ db_get c' "papers" "a"
      = Some (<["lastUpdate" := VNum 7]>
                (<["deleted" := VBool true]> Sample.paper_a))
    ∧ "a" ∉ (_buildIndices "papers" false [] (λ _, 8) c').1.
Proof.
  destruct (soft_delete_keeps_record "papers" "a" 7 Sample.papers0
              Sample.paper_a eq_refl eq_refl)
    as (c' & Hrun & Hget & _ & _ & Hidx).
  exists c'. split; [exact Hrun|]. split; [exact Hget|].
  exact (proj1 (Hidx [] (λ _, 8))).
Defined.

(** X13 on the paper of [papers0], with the keyword cache
    invalidated. *)
Lemma committed_update_awaits_reindex_witness :
  is_Some (db_get Sample.papers0 "papers" "a")
  ∧ ∃ c' d',
      _update "papers" "a" {[ "name" := VStr "B" ]} true 7 Sample.papers0
      = (Ok "a", c')
      ∧ db_get c' "papers" "a" = Some d'
      ∧ d' !! "keywords" = None.
Proof.
  assert (is_Some (db_get Sample.papers0 "papers" "a")) as Hex
    by (eexists; reflexivity).
  split; [exact Hex|].
  destruct (committed_update_awaits_reindex "papers" "a"
              {[ "name" := VStr "B" ]} true 7 Sample.papers0 Hex)
    as (c' & d' & Hrun & Hget & _ & Hkw & _).
  exists c', d'. split; [exact Hrun|]. split; [exact Hget|].
  exact (Hkw eq_refl).
Defined.


(** X20 for the paper id [a]. *)
Lemma listing_by_paper_is_refused_witness :
  Schema.listQuizRecords (Some "a") Sample.papers0 = None
  ∧ Schema.listQuizResults (Some "a") Sample.papers0 = None.
Proof.
  destruct (listing_by_paper_is_refused "a" Sample.papers0 ltac:(discriminate))
    as (H1 & H2 & _).
  split; [exact H1|exact H2].
Defined.

(** X21 on two updates, at 110 and 125, of a record started at 100; the
    patches carry an id, a [timeUsed] and an [updateTime] of their own. *)
Lemma quiz_time_telescopes_witness :
  let old : Quiz.QuizRecord Z :=
    {| Quiz.qr_id := "r"; Quiz.qr_paperId := "a"; Quiz.qr_paused := false;
       Quiz.qr_startTime := 100; Quiz.qr_updateTime := 100;
       Quiz.qr_timeUsed := 0; Quiz.qr_answers := ∅; Quiz.qr_rest := ∅ |} in
  let patch : Quiz.PartialQuizRecord Z :=
    {| Quiz.p_id := Some "zzz"; Quiz.p_paperId := None;
       Quiz.p_paused := None; Quiz.p_startTime := None;
       Quiz.p_updateTime := Some 0; Quiz.p_timeUsed := Some 9999;
       Quiz.p_answers := Some {[ "q" := 1 ]}; Quiz.p_rest := ∅ |} in
  ∃ new,
    Quiz.updateQuiz_each Z "r" [(patch, 110); (patch, 125)] {[ "r" := old ]}
      !! "r" = Some new
    ∧ Quiz.qr_id Z new = "r"
    ∧ Quiz.qr_updateTime Z new = 125
    ∧ Quiz.qr_timeUsed Z new = 25.
Proof.
  cbv zeta.
  match goal with
  | |- ∃ new, Quiz.updateQuiz_each Z "r" ?calls {[ "r" := ?old ]} !! "r" = _ ∧ _ =>
      destruct (quiz_time_telescopes (Answers := Z) "r" calls {[ "r" := old ]}
                  old (lookup_singleton_eq _ _) eq_refl)
        as (new & Hnew & Hid & Htime & Hused & _)
  end.
  exists new. split; [exact Hnew|]. split; [exact Hid|].
  cbn in Htime. split; [exact Htime|].
  rewrite Hused, Htime. reflexivity.
Defined.

(** X23 on page 10 of 20, two pages shown on either side. *)
Lemma page_numbers_in_order_witness :
  1 ≤ 10 ≤ 20
  ∧ Pagination.numbers (Pagination.renderPageNumbers 10 20 (Some 2))
    = [1; 8; 9; 10; 11; 12; 20]
  ∧ Pagination.selected_pages (Pagination.renderPageNumbers 10 20 (Some 2))
    = [10].
Proof.
  split; [lia|]. split; [reflexivity|].
  exact (proj2 (proj2 (proj2 (proj2
    (page_numbers_in_order 10 20 (Some 2) ltac:(lia)))))).
Defined.

(** The empty database has no record. *)
Lemma keyed_empty : keyed Toy.empty_controller.
Proof. intros store k d Hget. discriminate Hget. Qed.

(** X24 from [papers0] into the empty database. *)
Lemma export_import_whole_database_witness :
  ∃ c1,
    importData (exportData Sample.papers0) Toy.empty_controller = (Ok (), c1)
    ∧ records c1 "papers" = records Sample.papers0 "papers".
Proof.
  destruct (export_import_whole_database Sample.papers0 Toy.empty_controller
              keyed_papers0 eq_refl eq_refl)
    as (c1 & Hrun & Hrec & _).
  exists c1. split; [exact Hrun|].
  exact (proj1 (Hrec "papers" ltac:(compute_done))).
Defined.

